(** * go-nasr: schema-driven relational builder and integrity repair

    A shallow embedding of the Go sources of IdahoAvionics/go-nasr
    (schema parsing, DDL synthesis, row loading, duplicate and orphan
    repair) together with the properties its specification states.

    Layout: models of the Go library functions the code calls
    (strings, fmt %q, regexp for the one pattern used, encoding/csv),
    then the program's own types and functions under their source names,
    then the lemmas and theorems. *)

From Stdlib Require Import Ascii String.
From stdpp Require Import gmap strings list sorting.

(** ** Bytes and characters

    A Go [string] is a sequence of bytes; it is a Rocq [string] at the
    interfaces and a [list ascii] inside the text-processing functions. *)

Abbreviation bytes := (list ascii).

Definition s2l : string → bytes := list_ascii_of_string.
Definition l2s : bytes → string := string_of_list_ascii.

Definition code (c : ascii) : N := N_of_ascii c.
Definition chr (n : N) : ascii := ascii_of_N n.

Definition DQ : ascii := chr 34.       (* the double quote *)
Definition BSL : ascii := chr 92.      (* the backslash *)
Definition LF : ascii := chr 10.
Definition CR : ascii := chr 13.
Definition COMMA : ascii := chr 44.
Definition LPAR : ascii := chr 40.
Definition RPAR : ascii := chr 41.
Definition SP : ascii := chr 32.

Definition ceqb (a b : ascii) : bool := bool_decide (a = b).

(** ** Package strings *)
Module GoStrings.

(** [asciiSpace] of package strings: tab, LF, VT, FF, CR and space. *)
Definition asciiSpace (c : ascii) : bool :=
  let n := code c in
  ((9 <=? n) && (n <=? 13))%N || (n =? 32)%N.

(** The remaining runes of [unicode.IsSpace], by their UTF-8 encodings:
    U+0085, U+00A0 (two bytes, lead 0xC2) and U+1680, U+2000..U+200A,
    U+2028, U+2029, U+202F, U+205F, U+3000 (three bytes). *)
Definition space2 (a b : ascii) : bool :=
  (code a =? 194)%N && ((code b =? 133)%N || (code b =? 160)%N).

Definition space3 (a b c : ascii) : bool :=
  let x := code a in let y := code b in let z := code c in
  ((x =? 225) && (y =? 154) && (z =? 128))%N
  || ((x =? 226) && (y =? 128)
      && (((128 <=? z) && (z <=? 138)) || (z =? 168) || (z =? 169) || (z =? 175)))%N
  || ((x =? 226) && (y =? 129) && (z =? 159))%N
  || ((x =? 227) && (y =? 128) && (z =? 128))%N.

(** [TrimLeftFunc s unicode.IsSpace]: runes are decoded from the front. *)
Fixpoint trimLeft (l : bytes) : bytes :=
  match l with
  | [] => []
  | a :: r =>
      if asciiSpace a then trimLeft r
      else match r with
           | b :: r2 =>
               if space2 a b then trimLeft r2
               else match r2 with
                    | c :: r3 => if space3 a b c then trimLeft r3 else l
                    | [] => l
                    end
           | [] => l
           end
  end.

(** [TrimRightFunc s unicode.IsSpace], on the reversed byte sequence:
    the last rune is decoded backwards from the end. *)
Fixpoint trimLeftRev (l : bytes) : bytes :=
  match l with
  | [] => []
  | a :: r =>
      if asciiSpace a then trimLeftRev r
      else match r with
           | b :: r2 =>
               if space2 b a then trimLeftRev r2
               else match r2 with
                    | c :: r3 => if space3 c b a then trimLeftRev r3 else l
                    | [] => l
                    end
           | [] => l
           end
  end.

Definition trimSpace (l : bytes) : bytes :=
  rev (trimLeftRev (rev (trimLeft l))).

Definition TrimSpace (s : string) : string := l2s (trimSpace (s2l s)).

(** [strings.Trim s cutset] for a cutset of ASCII bytes. *)
Definition inCutset (cutset : bytes) (c : ascii) : bool :=
  existsb (ceqb c) cutset.

Fixpoint dropWhile (p : ascii → bool) (l : bytes) : bytes :=
  match l with
  | [] => []
  | c :: r => if p c then dropWhile p r else l
  end.

Definition trim (cutset l : bytes) : bytes :=
  rev (dropWhile (inCutset cutset) (rev (dropWhile (inCutset cutset) l))).

Definition Trim (s cutset : string) : string := l2s (trim (s2l cutset) (s2l s)).

(** [strings.Split s sep] for a one-byte separator: always at least one
    piece, [n] separators give [n + 1] pieces. *)
Fixpoint split (sep : ascii) (l : bytes) : list bytes :=
  match l with
  | [] => [[]]
  | c :: r =>
      if ceqb c sep then [] :: split sep r
      else match split sep r with
           | p :: ps => (c :: p) :: ps
           | [] => [[c]]
           end
  end.

Definition Split (s : string) (sep : ascii) : list string :=
  l2s <$> split sep (s2l s).

(** [strings.Join elems sep]. *)
Fixpoint Join (elems : list string) (sep : string) : string :=
  match elems with
  | [] => ""
  | [e] => e
  | e :: es => e +:+ sep +:+ Join es sep
  end.

(** [strings.ReplaceAll s old new] for a one-byte [old] and [new]. *)
Definition replaceByte (old new : ascii) (l : bytes) : bytes :=
  (λ c, if ceqb c old then new else c) <$> l.

Definition ReplaceAll (s : string) (old new : ascii) : string :=
  l2s (replaceByte old new (s2l s)).

(** [strings.HasSuffix] and [strings.HasPrefix]. *)
Fixpoint hasPrefix (l p : bytes) : bool :=
  match p, l with
  | [], _ => true
  | a :: p', b :: l' => ceqb a b && hasPrefix l' p'
  | _ :: _, [] => false
  end.

Definition HasPrefix (s p : string) : bool := hasPrefix (s2l s) (s2l p).
Definition HasSuffix (s p : string) : bool :=
  hasPrefix (rev (s2l s)) (rev (s2l p)).

(** [strings.LastIndex s sep] for a one-byte separator; [None] is -1. *)
Fixpoint lastIndex (sep : ascii) (l : bytes) : option nat :=
  match l with
  | [] => None
  | c :: r =>
      match lastIndex sep r with
      | Some i => Some (S i)
      | None => if ceqb c sep then Some 0 else None
      end
  end.

(** [strings.TrimSuffix] and [strings.TrimPrefix]. *)
Definition TrimSuffix (s suffix : string) : string :=
  if HasSuffix s suffix
  then l2s (take (length (s2l s) - length (s2l suffix)) (s2l s)) else s.

Definition TrimPrefix (s prefix : string) : string :=
  if HasPrefix s prefix then l2s (drop (length (s2l prefix)) (s2l s)) else s.

(** [strings.Contains s substr] for a one-byte [substr]. *)
Definition Contains (s : string) (c : ascii) : bool := existsb (ceqb c) (s2l s).

End GoStrings.

(** ** fmt's %q verb (strconv.Quote)

    Each ASCII byte is rendered as strconv.Quote renders it: the quote and
    the backslash are escaped with a backslash, the control characters
    with their letter escapes or [\xhh], every other ASCII byte stands for
    itself.  Bytes from 0x80 up are copied, which is what Quote does for
    the UTF-8 encoding of a printable rune; the statements below that
    depend on the rendering are restricted to ASCII names. *)
Module GoFmt.

Definition hexDigit (n : N) : ascii :=
  if (n <? 10)%N then chr (48 + n) else chr (87 + n).

Definition quoteByte (c : ascii) : bytes :=
  let n := code c in
  if (n =? 34)%N then [BSL; DQ]
  else if (n =? 92)%N then [BSL; BSL]
  else if (n =? 7)%N then [BSL; chr 97]
  else if (n =? 8)%N then [BSL; chr 98]
  else if (n =? 12)%N then [BSL; chr 102]
  else if (n =? 10)%N then [BSL; chr 110]
  else if (n =? 13)%N then [BSL; chr 114]
  else if (n =? 9)%N then [BSL; chr 116]
  else if (n =? 11)%N then [BSL; chr 118]
  else if ((n <? 32) || (n =? 127))%N
       then [BSL; chr 120; hexDigit (n / 16); hexDigit (n mod 16)]
  else [c].

Definition quote (l : bytes) : bytes :=
  DQ :: concat (quoteByte <$> l) ++ [DQ].

(** [fmt.Sprintf("%q", s)]. *)
Definition Quote (s : string) : string := l2s (quote (s2l s)).

End GoFmt.

(** ** Package regexp, for the one pattern the program compiles

    [uniqueIndexRe] reads: the letters ON, one or more [\s], a double quote,
    one or more bytes other than a double quote (first submatch), a double
    quote, one or more [\s], an opening parenthesis, one or more bytes other
    than a closing parenthesis (second submatch), a closing parenthesis.
    Every repetition in it is followed by a character outside the repeated
    class, so at a given start there is at most one way to match and the
    greedy reading below is exact; [FindStringSubmatch] returns the match
    at the leftmost start that has one.  [\s] is RE2's class: tab, LF, FF,
    CR and space. *)
Module GoRegexp.

Definition reSpace (c : ascii) : bool :=
  let n := code c in
  (n =? 9)%N || (n =? 10)%N || (n =? 12)%N || (n =? 13)%N || (n =? 32)%N.

(** The longest prefix of [l] made of bytes other than [stop], and what
    follows it. *)
Fixpoint spanNot (stop : ascii) (l : bytes) : bytes * bytes :=
  match l with
  | [] => ([], [])
  | c :: r =>
      if ceqb c stop then ([], l)
      else let '(a, b) := spanNot stop r in (c :: a, b)
  end.

(** [\s+] followed by the byte [next]: what is left after them. *)
Definition spaces1Then (next : ascii) (l : bytes) : option bytes :=
  match l with
  | c :: r =>
      if reSpace c then
        match GoStrings.dropWhile reSpace r with
        | d :: r' => if ceqb d next then Some r' else None
        | [] => None
        end
      else None
  | [] => None
  end.

(** One or more bytes other than [stop], then [stop]: the bytes
    captured and what follows the [stop]. *)
Definition captureUntil (stop : ascii) (l : bytes) : option (bytes * bytes) :=
  match spanNot stop l with
  | (c :: cap, _ :: r) => Some (c :: cap, r)
  | _ => None
  end.

(** A match of the whole pattern starting at the first byte of [l]:
    the two submatches. *)
Definition matchHere (l : bytes) : option (bytes * bytes) :=
  match l with
  | o :: n :: r =>
      if ceqb o (chr 79) && ceqb n (chr 78) then
        r1 ← spaces1Then DQ r;
        '(tbl, r2) ← captureUntil DQ r1;
        r3 ← spaces1Then LPAR r2;
        '(cols, _) ← captureUntil RPAR r3;
        Some (tbl, cols)
      else None
  | _ => None
  end.

Fixpoint findSubmatch (l : bytes) : option (bytes * bytes) :=
  match matchHere l with
  | Some m => Some m
  | None => match l with
            | [] => None
            | _ :: r => findSubmatch r
            end
  end.

End GoRegexp.

(** ** Package encoding/csv

    [csv.Reader] with its default settings (comma separator, no comment
    character, no lazy quotes, no TrimLeadingSpace) over an input held in
    memory.  The reader takes the input as it is: it removes no byte-order
    mark.  [FieldsPerRecord] is the field the program sets to [-1] in one
    place and leaves at [0] in the other. *)
Module GoCsv.

Inductive error :=
| EOF              (* io.EOF *)
| ErrBareQuote     (* a quote in a field that does not start with one *)
| ErrQuote         (* an extraneous or missing quote in a quoted field *)
| ErrFieldCount.   (* wrong number of fields *)

#[global] Instance error_eq_dec : EqDecision error.
Proof. solve_decision. Defined.

Record Reader := mkReader { input : bytes; FieldsPerRecord : Z }.

Definition NewReader (inp : bytes) : Reader := mkReader inp 0.

(** [lengthNL]: 1 when the line ends with a line feed, 0 otherwise. *)
Definition lengthNL (l : bytes) : nat :=
  match last l with
  | Some c => if ceqb c LF then 1 else 0
  | None => 0
  end.

Definition dropLast (l : bytes) : bytes := take (length l - 1) l.

(** [readLine]: the next line with its line feed; a carriage return
    before the line feed is dropped, and so is one that ends the input.
    [None] is io.EOF. *)
Definition readLine (inp : bytes) : option (bytes * bytes) :=
  match inp with
  | [] => None
  | _ =>
      let '(a, b) := GoRegexp.spanNot LF inp in
      let a' := match last a with
                | Some c => if ceqb c CR then dropLast a else a
                | None => a
                end in
      match b with
      | _ :: rest => Some (a' ++ [LF], rest)
      | [] => Some (a', [])
      end
  end.

(** The loop at the head of [readRecord]: empty lines are skipped. *)
Fixpoint nextLine (fuel : nat) (inp : bytes) : option (bytes * bytes) :=
  match readLine inp with
  | None => None
  | Some (line, rest) =>
      if bool_decide (length line = lengthNL line) then
        match fuel with
        | O => None
        | S fuel' => nextLine fuel' rest
        end
      else Some (line, rest)
  end.

Inductive mode :=
| Field                   (* at the start of a field *)
| InQuote (acc : bytes).  (* inside a quoted field, [acc] read so far *)

Definition hasQuote (l : bytes) : bool := existsb (ceqb DQ) l.

(** The [parseField] loop: [fields] are the fields read so far, last
    first; [line] is what is left of the current line and [rest] the
    input after it (a quoted field may run over several lines). *)
Fixpoint parseFields (fuel : nat) (m : mode) (fields : list bytes)
    (line rest : bytes) : error + (list bytes * bytes) :=
  match fuel with
  | O => inl ErrQuote
  | S fuel' =>
      match m with
      | Field =>
          match line with
          | c :: line' =>
              if ceqb c DQ then parseFields fuel' (InQuote []) fields line' rest
              else
                let '(fld, after) := GoRegexp.spanNot COMMA line in
                match after with
                | _ :: line2 =>
                    if hasQuote fld then inl ErrBareQuote
                    else parseFields fuel' Field (fld :: fields) line2 rest
                | [] =>
                    let fld' := take (length fld - lengthNL fld) fld in
                    if hasQuote fld' then inl ErrBareQuote
                    else inr (rev (fld' :: fields), rest)
                end
          | [] => inr (rev ([] :: fields), rest)
          end
      | InQuote acc =>
          let '(pre, after) := GoRegexp.spanNot DQ line in
          match after with
          | _ :: line2 =>
              let acc' := acc ++ pre in
              match line2 with
              | d :: line3 =>
                  if ceqb d DQ then
                    parseFields fuel' (InQuote (acc' ++ [DQ])) fields line3 rest
                  else if ceqb d COMMA then
                    parseFields fuel' Field (acc' :: fields) line3 rest
                  else if bool_decide (length line2 = lengthNL line2) then
                    inr (rev (acc' :: fields), rest)
                  else inl ErrQuote
              | [] => inr (rev (acc' :: fields), rest)
              end
          | [] =>
              match line with
              | _ :: _ =>
                  match readLine rest with
                  | Some (line', rest') =>
                      parseFields fuel' (InQuote (acc ++ line)) fields line' rest'
                  | None => inl ErrQuote
                  end
              | [] => inl ErrQuote
              end
          end
      end
  end.

(** [Reader.Read]: the next record or an error, and the reader after
    the call.  With [FieldsPerRecord = 0] the first record fixes the
    number of fields of every later one; a negative value disables the
    check. *)
Definition Read (r : Reader) : (error + list string) * Reader :=
  match nextLine (length (input r)) (input r) with
  | None => (inl EOF, mkReader [] (FieldsPerRecord r))
  | Some (line, rest) =>
      let fuel := 2 * (length line + length rest) + 2 in
      match parseFields fuel Field [] line rest with
      | inl e => (inl e, mkReader rest (FieldsPerRecord r))
      | inr (fields, rest') =>
          let n := Z.of_nat (length fields) in
          let rec := l2s <$> fields in
          if bool_decide (0 < FieldsPerRecord r)%Z then
            if bool_decide (n = FieldsPerRecord r)
            then (inr rec, mkReader rest' (FieldsPerRecord r))
            else (inl ErrFieldCount, mkReader rest' (FieldsPerRecord r))
          else if bool_decide (FieldsPerRecord r = 0)%Z then
            (inr rec, mkReader rest' n)
          else (inr rec, mkReader rest' (FieldsPerRecord r))
      end
  end.

End GoCsv.

(** ** schema.go: table schemas from the metadata files *)

Record columnDef := mkColumnDef {
  cname : string;       (* the field [name] of [columnDef] *)
  dataType : string;
  nullable : bool
}.

Record tableSchema := mkTableSchema {
  tname : string;       (* the field [name] of [tableSchema] *)
  columns : list columnDef
}.

Record foreignKey := mkForeignKey {
  childTable : string;
  fkColumns : list string;   (* the field [columns] of [foreignKey] *)
  parentTable : string
}.

#[global] Instance columnDef_eq_dec : EqDecision columnDef.
Proof. solve_decision. Defined.
#[global] Instance tableSchema_eq_dec : EqDecision tableSchema.
Proof. solve_decision. Defined.
#[global] Instance foreignKey_eq_dec : EqDecision foreignKey.
Proof. solve_decision. Defined.

(** An entry of the archive: [zip.File] with the bytes [f.Open] yields. *)
Record zipFile := mkZipFile { Name : string; content : string }.

Inductive schemaError :=
| ReadHeaderError (file : string) (e : GoCsv.error)   (* read header in file *)
| ParseError (file : string) (e : GoCsv.error).       (* parse file *)

(** [normalizeCR] replaces a bare CR (not followed by LF) with LF. *)
Fixpoint normalizeCR (data : bytes) : bytes :=
  match data with
  | [] => []
  | c :: r =>
      if ceqb c CR then
        match r with
        | d :: r' => if ceqb d LF then CR :: LF :: normalizeCR r'
                     else LF :: normalizeCR r
        | [] => [LF]
        end
      else c :: normalizeCR r
  end.

(** The [switch dataType] of [parseSchemas]. *)
Definition mapDataType (dataType : string) : string :=
  if bool_decide (dataType = "VARCHAR") then "TEXT"
  else if bool_decide (dataType = "NUMBER") then "REAL"
  else dataType.

(** The column a metadata record describes, with the name of its table;
    [None] for a record of fewer than five fields. *)
Definition recordColumn (record : list string) : option (string * columnDef) :=
  match record with
  | r0 :: r1 :: _ :: r3 :: r4 :: _ =>
      let tableName := GoStrings.TrimSpace r0 in
      let colName := GoStrings.TrimSpace r1 in
      let dataType := GoStrings.TrimSpace r3 in
      let nullableStr := GoStrings.TrimSpace r4 in
      let colName := GoStrings.ReplaceAll colName SP (chr 95) in
      Some (tableName,
            mkColumnDef colName (mapDataType dataType)
                        (bool_decide (nullableStr = "Yes")))
  | _ => None
  end.

(** The body of the record loop of [parseSchemas]: the column is appended
    to the schema of its table, which is created on first use. *)
Definition addRecord (record : list string) (tables : gmap string tableSchema)
    : gmap string tableSchema :=
  match recordColumn record with
  | None => tables
  | Some (tableName, col) =>
      let ts := default (mkTableSchema tableName []) (tables !! tableName) in
      <[tableName := mkTableSchema (tname ts) (columns ts ++ [col])]> tables
  end.

Fixpoint readRecords (fuel : nat) (r : GoCsv.Reader) (file : string)
    (tables : gmap string tableSchema) : schemaError + gmap string tableSchema :=
  match fuel with
  | O => inr tables
  | S fuel' =>
      match GoCsv.Read r with
      | (inl GoCsv.EOF, _) => inr tables
      | (inl e, _) => inl (ParseError file e)
      | (inr record, r') => readRecords fuel' r' file (addRecord record tables)
      end
  end.

(** One iteration of the loop over [zr.File]. *)
Definition parseSchemaFile (f : zipFile) (tables : gmap string tableSchema)
    : schemaError + gmap string tableSchema :=
  if negb (GoStrings.HasSuffix (Name f) "_CSV_DATA_STRUCTURE.csv") then inr tables
  else
    let raw := normalizeCR (s2l (content f)) in
    let r := GoCsv.mkReader raw (-1) in
    match GoCsv.Read r with
    | (inl e, _) => inl (ReadHeaderError (Name f) e)
    | (inr _, r') => readRecords (S (length raw)) r' (Name f) tables
    end.

Fixpoint parseSchemaFiles (files : list zipFile) (tables : gmap string tableSchema)
    : schemaError + gmap string tableSchema :=
  match files with
  | [] => inr tables
  | f :: fs =>
      match parseSchemaFile f tables with
      | inl e => inl e
      | inr tables' => parseSchemaFiles fs tables'
      end
  end.

(** The override of nullability for one key of [sentinelNulls]. *)
Definition overrideColumn (colName : string) (c : columnDef) : columnDef :=
  if bool_decide (cname c = colName)
  then mkColumnDef (cname c) (dataType c) true else c.

Definition overrideNullable (key : string * string)
    (tables : gmap string tableSchema) : gmap string tableSchema :=
  match tables !! key.1 with
  | Some ts =>
      <[key.1 := mkTableSchema (tname ts) (overrideColumn key.2 <$> columns ts)]> tables
  | None => tables
  end.

(** [parseSchemas].  [sentinelNulls] is the table of (table, column) pairs
    the function ranges over; its declaration is not part of the sources
    at hand, so it is an argument here. *)
Definition parseSchemas (sentinelNulls : list (string * string))
    (files : list zipFile) : schemaError + gmap string tableSchema :=
  match parseSchemaFiles files ∅ with
  | inl e => inl e
  | inr tables => inr (foldr overrideNullable tables sentinelNulls)
  end.

(** ** schema.go: DDL synthesis *)

Definition NL : string := String LF EmptyString.

(** [fmt.Sprintf] with [%q] for each column name. *)
Definition quotedCols (cols : list string) : list string :=
  GoFmt.Quote <$> cols.

(** The lookup from child table to its foreign keys, in catalog order. *)
Definition buildFkMap (fks : list foreignKey) : gmap string (list foreignKey) :=
  foldl (λ m fk, <[childTable fk := default [] (m !! childTable fk) ++ [fk]]> m)
        ∅ fks.

(** [parentKey]: the parent table and the column names joined by commas. *)
Definition parentKey (fk : foreignKey) : string * string :=
  (parentTable fk, GoStrings.Join (fkColumns fk) ",").

(** The loop that collects the unique indexes needed on parent tables:
    a constraint is kept when its [parentKey] was not seen before. *)
Definition collectStep (st : gset (string * string) * list foreignKey)
    (fk : foreignKey) : gset (string * string) * list foreignKey :=
  let pk := parentKey fk in
  if bool_decide (pk ∈ st.1) then st
  else ({[pk]} ∪ st.1, st.2 ++ [fk]).

Definition collectUniqueIndexes (fks : list foreignKey) : list foreignKey :=
  (foldl collectStep (∅, []) fks).2.

Definition concatStrings (l : list string) : string := foldr String.append "" l.

(** The line of one column in a CREATE TABLE statement. *)
Definition columnLine (ncols nfks : nat) (i : nat) (col : columnDef) : string :=
  "  " +:+ GoFmt.Quote (cname col) +:+ " " +:+ dataType col
  +:+ (if nullable col then "" else " NOT NULL")
  +:+ (if bool_decide (Z.of_nat i < Z.of_nat ncols - 1)%Z
          || bool_decide (0 < nfks) then "," else "")
  +:+ NL.

(** The line of one foreign key clause. *)
Definition foreignKeyLine (nfks : nat) (i : nat) (fk : foreignKey) : string :=
  "  FOREIGN KEY (" +:+ GoStrings.Join (quotedCols (fkColumns fk)) ", "
  +:+ ") REFERENCES " +:+ GoFmt.Quote (parentTable fk)
  +:+ " (" +:+ GoStrings.Join (quotedCols (fkColumns fk)) ", " +:+ ")"
  +:+ (if bool_decide (Z.of_nat i < Z.of_nat nfks - 1)%Z then "," else "")
  +:+ NL.

Definition createTableStmt (ts : tableSchema) (fks : list foreignKey) : string :=
  "CREATE TABLE " +:+ GoFmt.Quote (tname ts) +:+ " (" +:+ NL
  +:+ concatStrings (imap (columnLine (length (columns ts)) (length fks)) (columns ts))
  +:+ concatStrings (imap (foreignKeyLine (length fks)) fks)
  +:+ ");".

Definition indexName (fk : foreignKey) : string :=
  "idx_" +:+ parentTable fk +:+ "_" +:+ GoStrings.Join (fkColumns fk) "_".

Definition createIndexStmt (fk : foreignKey) : string :=
  "CREATE UNIQUE INDEX " +:+ GoFmt.Quote (indexName fk)
  +:+ " ON " +:+ GoFmt.Quote (parentTable fk)
  +:+ " (" +:+ GoStrings.Join (quotedCols (fkColumns fk)) ", " +:+ ");".

(** [sort.Strings]: the names in increasing byte order.  The order is
    total on strings, so the sorted list is determined by its elements
    ([sortStrings_unique] below) whatever algorithm produces it. *)
Definition sortStrings (names : list string) : list string :=
  merge_sort String.le names.

(** The comparison passed to [sort.Slice]. *)
Definition lessParent (a b : foreignKey) : bool :=
  String.ltb (parentTable a) (parentTable b).

(** What [sort.Slice] runs on a slice of at most 12 elements: insertion
    sort, an element moving left past every element it is less than. *)
Fixpoint insertLeft {A} (less : A → A → bool) (x : A) (revPrefix : list A) : list A :=
  match revPrefix with
  | [] => [x]
  | y :: r => if less x y then y :: insertLeft less x r else x :: revPrefix
  end.

Definition insertionSort {A} (less : A → A → bool) (l : list A) : list A :=
  rev (foldl (λ acc x, insertLeft less x acc) [] l).

Section Synthesis.

(** [sort.Slice] is not stable and promises no more than a sorted
    rearrangement of its argument; it is a parameter, and the properties
    below assume of it only that it rearranges. *)
Variable sortSlice : (foreignKey → foreignKey → bool) → list foreignKey → list foreignKey.

(** [generateDDL].  [iter] is the order in which [range tables] yields
    the keys of the map, which Go leaves unspecified. *)
Definition generateDDL (iter : list string) (tables : gmap string tableSchema)
    (fks : list foreignKey) : list string * list string :=
  let fkMap := buildFkMap fks in
  let uniqueIndexes := collectUniqueIndexes fks in
  let names := sortStrings iter in
  let createTables :=
    omap (λ name, (λ ts, createTableStmt ts (default [] (fkMap !! name)))
                    <$> tables !! name) names in
  let uniqueIndexes := sortSlice lessParent uniqueIndexes in
  let createIndexes := createIndexStmt <$> uniqueIndexes in
  (createTables, createIndexes).

End Synthesis.

(** A legal order of iteration over a map: its keys, each once. *)
Definition iterationOrder (tables : gmap string tableSchema) (iter : list string) : Prop :=
  iter ≡ₚ elements (dom tables).

(** ** nasr.go: reading an index statement back *)

(** [parseUniqueIndex]: the table and the columns of a CREATE UNIQUE INDEX
    statement, [None] when the pattern does not match. *)
Definition parseUniqueIndex (stmt : string) : option (string * list string) :=
  match GoRegexp.findSubmatch (s2l stmt) with
  | None => None
  | Some (tbl, cols) =>
      Some (l2s tbl,
            (λ col, GoStrings.Trim (GoStrings.TrimSpace col) (String DQ EmptyString))
              <$> GoStrings.Split (l2s cols) COMMA)
  end.

(** ** The storage engine

    The program drives SQLite through statements.  The engine is modelled
    for the statements the program issues: table contents are rows with
    their rowid, a unique index can be created when no two rows agree on a
    key without NULL, GROUP BY puts equal keys together (NULLs included),
    the comparison [=] of a WHERE clause is never true of a NULL, and
    PRAGMA foreign_key_check reports the child rows whose key has no NULL
    and no match in the parent.  A statement names a table or a column by
    a quoted identifier, which the engine reads as the bytes between the
    two double quotes; names are compared as written. *)
Section Engine.

(** [float64] with the equality the engine compares numbers by, and
    [strconv.ParseFloat val 64]: the number when the error is nil. *)
Context {float64 : Type} `{!EqDecision float64}.
Variable ParseFloat : string → option float64.

(** What an [interface{}] holds in this program: nil, a string or a
    float64. *)
Inductive value :=
| VNil
| VString (s : string)
| VFloat (f : float64).

#[global] Instance value_eq_dec : EqDecision value.
Proof. solve_decision. Defined.

Record row := mkRow { rowid : Z; cells : list value }.

#[global] Instance row_eq_dec : EqDecision row.
Proof. solve_decision. Defined.

(** A table: its schema, the foreign key clauses of its CREATE TABLE
    statement, and its rows. *)
Record table := mkTable {
  schema : tableSchema;
  constraints : list foreignKey;
  rows : list row
}.

(** A unique index: its name, its table and its columns. *)
Record index := mkIndex {
  ixName : string; ixTable : string; ixColumns : list string
}.

#[global] Instance index_eq_dec : EqDecision index.
Proof. solve_decision. Defined.

Record database := mkDatabase {
  tables : gmap string table;
  indexes : list index
}.

Definition isNull (v : value) : bool :=
  match v with VNil => true | _ => false end.

Definition noNull (key : list value) : bool := forallb (λ v, negb (isNull v)) key.

(** The position of a column in a table. *)
Definition colIndex (ts : tableSchema) (c : string) : option nat :=
  fst <$> list_find (λ col, cname col = c) (columns ts).

Definition keyIdx (ts : tableSchema) (cols : list string) : option (list nat) :=
  mapM (colIndex ts) cols.

Definition cell (r : row) (i : nat) : value := default VNil (cells r !! i).

Definition rowKey (idx : list nat) (r : row) : list value := cell r <$> idx.

(** [c1 = ? AND c2 = ? ...] with the parameters [vals], on a row of key
    [key]. *)
Definition whereEq (vals key : list value) : bool :=
  noNull vals && bool_decide (vals = key).

(** *** Reading CREATE UNIQUE INDEX

    The engine's reading of an index statement of the shape
    [generateDDL] emits: a quoted identifier is what stands between two
    double quotes. *)
Definition stripPrefix (p : string) (l : bytes) : option bytes :=
  if GoStrings.hasPrefix l (s2l p) then Some (drop (length (s2l p)) l) else None.

Definition quotedIdent (l : bytes) : option (bytes * bytes) :=
  match l with
  | c :: r =>
      if ceqb c DQ then
        match GoRegexp.spanNot DQ r with
        | (nm, _ :: r') => Some (nm, r')
        | _ => None
        end
      else None
  | [] => None
  end.

(** The name a quoted identifier denotes, when it is one. *)
Definition sqlIdent (quoted : string) : option string :=
  match quotedIdent (s2l quoted) with
  | Some (nm, []) => Some (l2s nm)
  | _ => None
  end.

Fixpoint identList (fuel : nat) (l : bytes) : option (list bytes) :=
  match fuel with
  | O => None
  | S fuel' =>
      '(c, r) ← quotedIdent l;
      if bool_decide (r = s2l ");") then Some [c]
      else r' ← stripPrefix ", " r; (c ::.) <$> identList fuel' r'
  end.

Definition readIndexStmt (stmt : string) : option index :=
  r ← stripPrefix "CREATE UNIQUE INDEX " (s2l stmt);
  '(nm, r) ← quotedIdent r;
  r ← stripPrefix " ON " r;
  '(tbl, r) ← quotedIdent r;
  r ← stripPrefix " (" r;
  cols ← identList (length r) r;
  Some (mkIndex (l2s nm) (l2s tbl) (l2s <$> cols)).

(** *** Statements *)

(** The keys on which a unique index would be violated are those
    without NULL that occur twice. *)
Definition uniqueOn (idx : list nat) (rs : list row) : Prop :=
  NoDup (filter (λ k, noNull k = true) (rowKey idx <$> rs)).

(** [db.Exec] of a CREATE UNIQUE INDEX statement; [None] is an error. *)
Definition execCreateIndex (stmt : string) (db : database) : option database :=
  ix ← readIndexStmt stmt;
  if bool_decide (ixName ix ∈ ixName <$> indexes db) then None
  else
    tb ← tables db !! ixTable ix;
    idx ← keyIdx (schema tb) (ixColumns ix);
    if bool_decide (uniqueOn idx (rows tb))
    then Some (mkDatabase (tables db) (indexes db ++ [ix]))
    else None.

Definition countKey (k : list value) (keys : list (list value)) : nat :=
  length (filter (λ k', k' = k) keys).

(** SELECT cols FROM table GROUP BY cols HAVING more than one row, the
    table and the columns given as the statement has them, quoted. *)
Definition queryDupKeys (colList : list string) (qtable : string) (db : database)
    : option (list (list value)) :=
  tbl ← sqlIdent qtable;
  cols ← mapM sqlIdent colList;
  tb ← tables db !! tbl;
  idx ← keyIdx (schema tb) cols;
  let keys := rowKey idx <$> rows tb in
  Some (filter (λ k, 1 < countKey k keys) (remove_dups keys)).

(** SELECT rowid FROM table WHERE c1 = ? AND ... ORDER BY rowid. *)
Definition queryRowids (qtable : string) (qcols : list string) (vals : list value)
    (db : database) : option (list Z) :=
  tbl ← sqlIdent qtable;
  cols ← mapM sqlIdent qcols;
  tb ← tables db !! tbl;
  idx ← keyIdx (schema tb) cols;
  Some (merge_sort Z.le
          (rowid <$> filter (λ r, whereEq vals (rowKey idx r) = true) (rows tb))).

Definition setRows (tb : table) (rs : list row) : table :=
  mkTable (schema tb) (constraints tb) rs.

(** DELETE FROM table WHERE rowid = ?. *)
Definition execDelete (qtable : string) (rid : Z) (db : database) : option database :=
  tbl ← sqlIdent qtable;
  tb ← tables db !! tbl;
  Some (mkDatabase
          (<[tbl := setRows tb (filter (λ r, rowid r ≠ rid) (rows tb))]> (tables db))
          (indexes db)).

Definition nextRowid (rs : list row) : Z :=
  foldr (λ r m, Z.max (rowid r + 1) m) 1%Z rs.

Definition notNullOk (ts : tableSchema) (vals : list value) : bool :=
  forallb (λ '(col, v), nullable col || negb (isNull v)) (zip (columns ts) vals).

(** INSERT INTO table VALUES (?, ..., ?) with one value per column, on
    a table without index (rows are loaded before any index is
    created): a NULL in a NOT NULL column is an error.  The values are
    stored as they are given; the conversions of column affinity are not
    modelled. *)
Definition execInsert (qtable : string) (vals : list value) (db : database)
    : option database :=
  tbl ← sqlIdent qtable;
  tb ← tables db !! tbl;
  if bool_decide (length vals = length (columns (schema tb)))
     && notNullOk (schema tb) vals
  then Some (mkDatabase
               (<[tbl := setRows tb (rows tb ++ [mkRow (nextRowid (rows tb)) vals])]>
                  (tables db))
               (indexes db))
  else None.

(** A row of PRAGMA foreign_key_check.  [vFkid] numbers the constraint
    within its table; the program only prints it. *)
Record violation := mkViolation {
  vTable : string; vRowid : Z; vParent : string; vFkid : nat
}.

Definition hasIndexOn (db : database) (tbl : string) (cols : list string) : bool :=
  existsb (λ ix, bool_decide (ixTable ix = tbl ∧ ixColumns ix = cols)) (indexes db).

(** The rows of [child] that violate its foreign key number [fkid];
    [None] is the engine's error (a column that does not exist, or a
    parent without a unique index on the key). *)
Definition fkViolations (db : database) (name : string) (child : table)
    (fkid : nat) (fk : foreignKey) : option (list violation) :=
  cidx ← keyIdx (schema child) (fkColumns fk);
  let report r := mkViolation name (rowid r) (parentTable fk) fkid in
  match tables db !! parentTable fk with
  | None =>
      Some (report <$> filter (λ r, noNull (rowKey cidx r) = true) (rows child))
  | Some parent =>
      pidx ← keyIdx (schema parent) (fkColumns fk);
      if hasIndexOn db (parentTable fk) (fkColumns fk) then
        let pkeys := rowKey pidx <$> rows parent in
        Some (report <$> filter (λ r, noNull (rowKey cidx r) = true
                                      ∧ rowKey cidx r ∉ pkeys) (rows child))
      else None
  end.

Definition tableViolations (db : database) (entry : string * table)
    : option (list violation) :=
  (λ vs, concat vs) <$> mapM (λ '(i, fk), fkViolations db entry.1 entry.2 i fk)
                  (imap pair (constraints entry.2)).

(** PRAGMA foreign_key_check. *)
Definition fkCheck (db : database) : option (list violation) :=
  (λ vs, concat vs) <$> mapM (tableViolations db) (map_to_list (tables db)).

(** ** loader.go: loading the rows of one table *)

(** [convertValue]. *)
Definition convertValue (val : string) (col : columnDef) : value :=
  if bool_decide (val = "") && nullable col then VNil
  else if bool_decide (dataType col = "REAL") && negb (bool_decide (val = "")) then
    match ParseFloat val with
    | Some f => VFloat f
    | None => VString val
    end
  else VString val.

Inductive loadError :=
| LoadPrepareError                  (* an error of [tx.Prepare] *)
| LoadReadError (e : GoCsv.error)   (* an error of [cr.Read] *)
| LoadExecError.                    (* an error of [stmt.Exec] *)

(** The values of one row: a field per column while the row has one,
    nil for the columns past its end. *)
Definition rowValues (ts : tableSchema) (fields : list string) : list value :=
  imap (λ i col, match fields !! i with
                 | Some field => convertValue field col
                 | None => VNil
                 end) (columns ts).

(** The UTF-8 byte-order mark, peeked at and discarded before the
    reader is built. *)
Definition stripBOM (l : bytes) : bytes :=
  match l with
  | a :: b :: c :: r =>
      if ceqb a (chr 239) && ceqb b (chr 187) && ceqb c (chr 191) then r else l
  | _ => l
  end.

(** The table of the INSERT statement: the schema's name between two
    double quotes (the format is [%s] here, not [%q]). *)
Definition insertTarget (ts : tableSchema) : string :=
  String DQ (tname ts +:+ String DQ EmptyString).

Fixpoint loadRows (fuel : nat) (cr : GoCsv.Reader) (ts : tableSchema)
    (db : database) : loadError + database :=
  match fuel with
  | O => inr db
  | S fuel' =>
      match GoCsv.Read cr with
      | (inl GoCsv.EOF, _) => inr db
      | (inl e, _) => inl (LoadReadError e)
      | (inr fields, cr') =>
          match execInsert (insertTarget ts) (rowValues ts fields) db with
          | None => inl LoadExecError
          | Some db' => loadRows fuel' cr' ts db'
          end
      end
  end.

(** [tx.Prepare] of the INSERT statement: the table must exist and have
    as many columns as the statement has placeholders. *)
Definition prepareInsert (ts : tableSchema) (db : database) : bool :=
  match sqlIdent (insertTarget ts) ≫= (λ n, tables db !! n) with
  | Some tb => bool_decide (length (columns (schema tb)) = length (columns ts))
  | None => false
  end.

(** [loadCSV]: one transaction per table.  On an error the transaction
    is rolled back and the database is the one before the call, so only
    the error is returned; the result on success is the database after
    the commit. *)
Definition loadCSV (r : bytes) (ts : tableSchema) (db : database)
    : loadError + database :=
  if negb (prepareInsert ts db) then inl LoadPrepareError
  else
    let br := stripBOM r in
    let cr := GoCsv.NewReader br in
    match GoCsv.Read cr with
    | (inl e, _) => inl (LoadReadError e)
    | (inr _, cr') => loadRows (S (length br)) cr' ts db
    end.

(** ** nasr.go: duplicate and orphan repair *)

Inductive logEntry :=
| DeletedDuplicate (tbl : string) (kept deleted : Z) (key : list (string * value))
| DeletedOrphan (tbl : string) (rid : Z) (parent : string)
| ViolationRemaining (v : violation).

Inductive runError :=
| CreateIndexError (stmt : string)
| FindDuplicatesError (tbl : string)
| FindRowidsError (tbl : string)
| DeleteDuplicateError (rid : Z) (tbl : string)
| CreateIndexAfterDedupError (stmt : string)
| ForeignKeyCheckError
| DeleteOrphanError (rid : Z) (tbl : string)
| DeduplicateParentsError (e : runError)
| DeleteOrphansError (e : runError)
| FinalForeignKeyCheckError
| ViolationsRemain (count : nat).

(** The state the repair functions act on: the database and the log
    written so far (oldest line first).  A function returns the error,
    if any, with the state it leaves. *)
Definition state : Type := database * list logEntry.
Definition outcome : Type := option runError * state.

(** The loop [for _, rid := range rowids[1:]]. *)
Fixpoint deleteDuplicates (tbl : string) (cols : list string) (vals : list value)
    (kept : Z) (rids : list Z) (st : state) : outcome :=
  match rids with
  | [] => (None, st)
  | rid :: rest =>
      let log' := st.2 ++ [DeletedDuplicate tbl kept rid (zip cols vals)] in
      match execDelete (GoFmt.Quote tbl) rid st.1 with
      | None => (Some (DeleteDuplicateError rid tbl), (st.1, log'))
      | Some db' => deleteDuplicates tbl cols vals kept rest (db', log')
      end
  end.

(** The loop [for dupRows.Next()]: [groups] are the keys the duplicate
    query returned. *)
Fixpoint dedupGroups (tbl : string) (cols : list string)
    (groups : list (list value)) (st : state) : outcome :=
  match groups with
  | [] => (None, st)
  | vals :: rest =>
      match queryRowids (GoFmt.Quote tbl) (quotedCols cols) vals st.1 with
      | None => (Some (FindRowidsError tbl), st)
      | Some rowids =>
          match rowids with
          | kept :: ((_ :: _) as others) =>
              match deleteDuplicates tbl cols vals kept others st with
              | (Some e, st') => (Some e, st')
              | (None, st') => dedupGroups tbl cols rest st'
              end
          | _ => dedupGroups tbl cols rest st
          end
      end
  end.

(** The body of the loop of [deduplicateParents] for one statement. *)
Definition dedupIndex (stmt : string) (st : state) : outcome :=
  match execCreateIndex stmt st.1 with
  | Some db' => (None, (db', st.2))
  | None =>
      match parseUniqueIndex stmt with
      | None => (Some (CreateIndexError stmt), st)
      | Some (tbl, cols) =>
          match queryDupKeys (quotedCols cols) (GoFmt.Quote tbl) st.1 with
          | None => (Some (FindDuplicatesError tbl), st)
          | Some groups =>
              match dedupGroups tbl cols groups st with
              | (Some e, st') => (Some e, st')
              | (None, st') =>
                  match execCreateIndex stmt st'.1 with
                  | None => (Some (CreateIndexAfterDedupError stmt), st')
                  | Some db' => (None, (db', st'.2))
                  end
              end
          end
      end
  end.

(** [deduplicateParents]. *)
Fixpoint deduplicateParents (createIndexes : list string) (st : state) : outcome :=
  match createIndexes with
  | [] => (None, st)
  | stmt :: rest =>
      match dedupIndex stmt st with
      | (Some e, st') => (Some e, st')
      | (None, st') => deduplicateParents rest st'
      end
  end.

(** The deletion loop of [deleteOrphans]. *)
Fixpoint deleteViolations (vs : list violation) (st : state) : outcome :=
  match vs with
  | [] => (None, st)
  | v :: rest =>
      let log' := st.2 ++ [DeletedOrphan (vTable v) (vRowid v) (vParent v)] in
      match execDelete (GoFmt.Quote (vTable v)) (vRowid v) st.1 with
      | None => (Some (DeleteOrphanError (vRowid v) (vTable v)), (st.1, log'))
      | Some db' => deleteViolations rest (db', log')
      end
  end.

(** [deleteOrphans]. *)
Definition deleteOrphans (st : state) : outcome :=
  match fkCheck st.1 with
  | None => (Some ForeignKeyCheckError, st)
  | Some violations => deleteViolations violations st
  end.

(** The end of [Extract]: the final foreign key check. *)
Definition finalCheck (st : state) : outcome :=
  match fkCheck st.1 with
  | None => (Some FinalForeignKeyCheckError, st)
  | Some vs =>
      let st' := (st.1, st.2 ++ (ViolationRemaining <$> vs)) in
      if bool_decide (0 < length vs) then (Some (ViolationsRemain (length vs)), st')
      else (None, st')
  end.

(** [Extract] from the call of [deduplicateParents] to its return, on
    the database the load left. *)
Definition repairAndVerify (createIndexes : list string) (st : state) : outcome :=
  match deduplicateParents createIndexes st with
  | (Some e, st1) => (Some (DeduplicateParentsError e), st1)
  | (None, st1) =>
      match deleteOrphans st1 with
      | (Some e, st2) => (Some (DeleteOrphansError e), st2)
      | (None, st2) => finalCheck st2
      end
  end.

(** The database after CREATE TABLE for one schema. *)
Definition emptyTable (ts : tableSchema) : database :=
  mkDatabase {[tname ts := mkTable ts [] []]} [].

End Engine.

(** ** The catalog of foreign keys *)

(** [foreignKeyDefs]. *)
Definition foreignKeyDefs : list foreignKey := [
  mkForeignKey "APT_RWY" ["SITE_NO"] "APT_BASE";
  mkForeignKey "APT_RWY_END" ["SITE_NO"; "RWY_ID"] "APT_RWY";
  mkForeignKey "APT_ARS" ["SITE_NO"; "RWY_ID"; "RWY_END_ID"] "APT_RWY_END";
  mkForeignKey "APT_ATT" ["SITE_NO"] "APT_BASE";
  mkForeignKey "APT_CON" ["SITE_NO"] "APT_BASE";
  mkForeignKey "APT_RMK" ["SITE_NO"] "APT_BASE";
  mkForeignKey "NAV_CKPT" ["NAV_ID"; "NAV_TYPE"] "NAV_BASE";
  mkForeignKey "NAV_RMK" ["NAV_ID"; "NAV_TYPE"] "NAV_BASE";
  mkForeignKey "FIX_CHRT" ["FIX_ID"; "ICAO_REGION_CODE"] "FIX_BASE";
  mkForeignKey "FIX_NAV" ["FIX_ID"; "ICAO_REGION_CODE"] "FIX_BASE";
  mkForeignKey "AWY_SEG_ALT" ["AWY_ID"] "AWY_BASE";
  mkForeignKey "ILS_GS" ["SITE_NO"; "RWY_END_ID"; "ILS_LOC_ID"] "ILS_BASE";
  mkForeignKey "ILS_DME" ["SITE_NO"; "RWY_END_ID"; "ILS_LOC_ID"] "ILS_BASE";
  mkForeignKey "ILS_MKR" ["SITE_NO"; "RWY_END_ID"; "ILS_LOC_ID"] "ILS_BASE";
  mkForeignKey "ILS_RMK" ["SITE_NO"; "RWY_END_ID"; "ILS_LOC_ID"] "ILS_BASE";
  mkForeignKey "ATC_SVC" ["FACILITY_ID"; "FACILITY_TYPE"] "ATC_BASE";
  mkForeignKey "ATC_ATIS" ["FACILITY_ID"; "FACILITY_TYPE"] "ATC_BASE";
  mkForeignKey "ATC_RMK" ["FACILITY_ID"; "FACILITY_TYPE"] "ATC_BASE";
  mkForeignKey "STAR_APT" ["STAR_COMPUTER_CODE"] "STAR_BASE";
  mkForeignKey "STAR_RTE" ["STAR_COMPUTER_CODE"] "STAR_BASE";
  mkForeignKey "DP_APT" ["DP_COMPUTER_CODE"] "DP_BASE";
  mkForeignKey "DP_RTE" ["DP_COMPUTER_CODE"] "DP_BASE";
  mkForeignKey "HPF_SPD_ALT" ["HP_NAME"; "HP_NO"] "HPF_BASE";
  mkForeignKey "HPF_CHRT" ["HP_NAME"; "HP_NO"] "HPF_BASE";
  mkForeignKey "HPF_RMK" ["HP_NAME"; "HP_NO"] "HPF_BASE";
  mkForeignKey "PFR_SEG" ["ORIGIN_ID"; "DSTN_ID"; "PFR_TYPE_CODE"; "ROUTE_NO"] "PFR_BASE";
  mkForeignKey "MTR_PT" ["ROUTE_TYPE_CODE"; "ROUTE_ID"] "MTR_BASE";
  mkForeignKey "MTR_AGY" ["ROUTE_TYPE_CODE"; "ROUTE_ID"] "MTR_BASE";
  mkForeignKey "MTR_SOP" ["ROUTE_TYPE_CODE"; "ROUTE_ID"] "MTR_BASE";
  mkForeignKey "MTR_TERR" ["ROUTE_TYPE_CODE"; "ROUTE_ID"] "MTR_BASE";
  mkForeignKey "MTR_WDTH" ["ROUTE_TYPE_CODE"; "ROUTE_ID"] "MTR_BASE";
  mkForeignKey "ARB_SEG" ["LOCATION_ID"] "ARB_BASE";
  mkForeignKey "WXL_SVC" ["WEA_ID"] "WXL_BASE";
  mkForeignKey "MAA_SHP" ["MAA_ID"] "MAA_BASE";
  mkForeignKey "MAA_RMK" ["MAA_ID"] "MAA_BASE";
  mkForeignKey "MAA_CON" ["MAA_ID"] "MAA_BASE";
  mkForeignKey "PJA_CON" ["PJA_ID"] "PJA_BASE";
  mkForeignKey "FSS_RMK" ["FSS_ID"] "FSS_BASE"
].

(** ** zip.go: the choice of the inner archive *)

Definition SLASH : ascii := chr 47.
Definition HYPHEN : ascii := chr 45.

(** The test of the loop of [openInnerCSVZip]: an entry under CSV_Data/
    that ends in _CSV.zip, and whose name between the two has no hyphen
    (a delta archive has one between its two dates). *)
Definition isInnerCSVZip (name : string) : bool :=
  if negb (GoStrings.HasPrefix name "CSV_Data/")
     || negb (GoStrings.HasSuffix name "_CSV.zip")
  then false
  else
    let base := GoStrings.TrimPrefix name "CSV_Data/" in
    let base := GoStrings.TrimSuffix base "_CSV.zip" in
    negb (GoStrings.Contains base HYPHEN).

(** [innerFile] at the end of the loop of [openInnerCSVZip]: the first
    entry that passes the test, [None] for nil.  What the function does
    next, opening the entry as an archive, is the work of archive/zip. *)
Fixpoint innerFile (files : list zipFile) : option zipFile :=
  match files with
  | [] => None
  | f :: fs => if isInnerCSVZip (Name f) then Some f else innerFile fs
  end.

(** ** loader.go: loading every table *)

(** The table a data file is loaded into: the name after its last
    slash, without .csv. *)
Definition dataTableName (name : string) : string :=
  let name' := match GoStrings.lastIndex SLASH (s2l name) with
               | Some idx => l2s (drop (S idx) (s2l name))
               | None => name
               end in
  GoStrings.TrimSuffix name' ".csv".

Section Loader.

Context {float64 : Type} `{!EqDecision float64}.
Variable ParseFloat : string → option float64.

(** [loadAllCSVs]: the error names the table whose load failed.  The
    tables loaded before it stay loaded (each load is a transaction of
    its own); the caller gives up on an error, and only the error is
    returned here. *)
Fixpoint loadAllCSVs (files : list zipFile) (tables : gmap string tableSchema)
    (db : database) : (string * loadError) + database :=
  match files with
  | [] => inr db
  | f :: fs =>
      if negb (GoStrings.HasSuffix (Name f) ".csv") then loadAllCSVs fs tables db
      else if GoStrings.HasSuffix (Name f) "_CSV_DATA_STRUCTURE.csv"
      then loadAllCSVs fs tables db
      else
        let tableName := dataTableName (Name f) in
        match tables !! tableName with
        | None => loadAllCSVs fs tables db
        | Some schema =>
            match loadCSV ParseFloat (s2l (content f)) schema db with
            | inl e => inl (tableName, e)
            | inr db' => loadAllCSVs fs tables db'
            end
        end
  end.

End Loader.

(** ** Vocabulary of the specification *)

Section SpecVocabulary.

Context {float64 : Type} `{!EqDecision float64}.
Variable ParseFloat : string → option float64.


End SpecVocabulary.

(** The sentinel the specification names, and a column of the override
    list as the program's own test gives it. *)
Definition sentinelString : string := "NOT ASSIGNED".
Definition dpComputerCode : columnDef := mkColumnDef "DP_COMPUTER_CODE" "TEXT" false.

(** A metadata stream whose header is quoted, and the same stream behind
    a byte-order mark. *)
Definition BOM : bytes := [chr 239; chr 187; chr 191].

Definition quotedField (s : string) : string :=
  String DQ (s +:+ String DQ EmptyString).

Definition sampleMetadata : string :=
  quotedField "Table" +:+ "," +:+ quotedField "Column" +:+ ",Max Length,Data Type,Nullable"
  +:+ NL +:+ "APT_BASE,SITE_NO,9,VARCHAR,No" +:+ NL.

Definition sampleMetadataFile (withBOM : bool) : zipFile :=
  mkZipFile "APT_CSV_DATA_STRUCTURE.csv"
            (if withBOM then l2s BOM +:+ sampleMetadata else sampleMetadata).

(** A table of two nullable TEXT columns, a data stream whose second row
    has one field where its header has two, and a stream whose header and
    rows all have one field. *)
Definition twoColumns : tableSchema :=
  mkTableSchema "T" [mkColumnDef "A" "TEXT" true; mkColumnDef "B" "TEXT" true].

Definition raggedStream : string := "A,B" +:+ NL +:+ "x" +:+ NL.
Definition narrowStream : string := "A" +:+ NL +:+ "x" +:+ NL.

(** The same table with its second column declared NOT NULL. *)
Definition twoColumnsStrict : tableSchema :=
  mkTableSchema "T" [mkColumnDef "A" "TEXT" true; mkColumnDef "B" "TEXT" false].

(** The pair a unique index stands for. *)
Definition pairOf (fk : foreignKey) : string * list string :=
  (parentTable fk, fkColumns fk).

Definition noComma (s : string) : Prop := COMMA ∉ s2l s.

(** A constraint with at least one column and no comma in a column name. *)
Definition commaFreeKey (fk : foreignKey) : Prop :=
  fkColumns fk ≠ [] ∧ Forall noComma (fkColumns fk).

(** One index statement for each distinct (parentTable, columns) pair of
    the constraints, and no other: the statements are those of constraints
    [reps] whose pairs are pairwise distinct and are exactly the pairs of
    [fks]. *)
Definition oneIndexPerPair (fks : list foreignKey) (stmts : list string) : Prop :=
  ∃ reps : list foreignKey,
    stmts = createIndexStmt <$> reps
    ∧ NoDup (pairOf <$> reps)
    ∧ ∀ p, p ∈ pairOf <$> reps ↔ p ∈ pairOf <$> fks.

(** The statement of the table [name]: its schema with the clauses of the
    constraints whose child it is, in catalog order. *)
Definition tableStmtOf (tables : gmap string tableSchema) (fks : list foreignKey)
    (name stmt : string) : Prop :=
  ∃ ts, tables !! name = Some ts
        ∧ stmt = createTableStmt ts (filter (λ fk, childTable fk = name) fks).

(** Two constraints on one parent whose column lists differ and have the
    same comma-joined text. *)
Definition collidingKeys : list foreignKey :=
  [mkForeignKey "C1" ["a,b"] "P"; mkForeignKey "C2" ["a"; "b"] "P"].

(** The schemas and the catalog of the program's test of [generateDDL]. *)
Definition testTables : gmap string tableSchema :=
  {[ "TEST_BASE" := mkTableSchema "TEST_BASE"
                      [mkColumnDef "ID" "TEXT" false; mkColumnDef "VALUE" "REAL" true];
     "TEST_CHILD" := mkTableSchema "TEST_CHILD"
                       [mkColumnDef "ID" "TEXT" false; mkColumnDef "BASE_ID" "TEXT" false] ]}.

Definition testFks : list foreignKey :=
  [mkForeignKey "TEST_CHILD" ["BASE_ID"] "TEST_BASE"].

#[global] Instance commaFreeKey_dec fk : Decision (commaFreeKey fk).
Proof. unfold commaFreeKey, noComma. apply _. Defined.

(** A byte that [%q] writes as it is and that is none of the separators of
    an index statement: printable ASCII other than the double quote, the
    backslash, the comma and the two parentheses. *)
Definition plainByte (c : ascii) : Prop :=
  let n := code c in
  (32 ≤ n ∧ n ≤ 126 ∧ n ≠ 34 ∧ n ≠ 92 ∧ n ≠ 44 ∧ n ≠ 40 ∧ n ≠ 41)%N.

Definition plainName (s : string) : Prop := Forall plainByte (s2l s).

(** A constraint whose index statement reads back: a parent name that is
    not empty, at least one column, and plain names throughout. *)
Definition plainKey (fk : foreignKey) : Prop :=
  parentTable fk ≠ "" ∧ plainName (parentTable fk)
  ∧ fkColumns fk ≠ [] ∧ Forall plainName (fkColumns fk).

#[global] Instance plainByte_dec c : Decision (plainByte c).
Proof. unfold plainByte. apply _. Defined.

#[global] Instance plainName_dec s : Decision (plainName s).
Proof. unfold plainName. apply _. Defined.

#[global] Instance plainKey_dec fk : Decision (plainKey fk).
Proof. unfold plainKey. apply _. Defined.


(** The bytes of an index statement: the text before the index name, and
    the statement from its ON on, for a parent name [P] and a column list
    [C]. *)
Definition stmtPrefix : bytes := s2l "CREATE UNIQUE INDEX ".

(** The statement, from the ON on. *)
Definition stmtTail (P C : bytes) : bytes :=
  chr 79 :: chr 78 :: SP :: DQ :: P ++ DQ :: SP :: LPAR :: C ++ [RPAR; chr 59].

Definition quotedL (c : bytes) : bytes := DQ :: c ++ [DQ].

(** The bytes of the column list of a statement: the quoted names with a
    comma and a space between them. *)
Fixpoint colListL (cols : list bytes) : bytes :=
  match cols with
  | [] => []
  | [c] => quotedL c
  | c :: cs => quotedL c ++ COMMA :: SP :: colListL cs
  end.

(** ** Vocabulary of the repair properties *)

Section RepairVocabulary.

Context {float64 : Type} `{!EqDecision float64}.

(** The database with the rows of one table replaced. *)
Definition withRows (db : database (float64 := float64)) (t : string)
    (tb : table) (rs : list row) : database :=
  mkDatabase (<[t := setRows tb rs]> (tables db)) (indexes db).

(** [r'] has the key of [r] and a lower rowid. *)
Definition lowerTwin (idx : list nat) (r r' : row (float64 := float64)) : Prop :=
  rowKey idx r' = rowKey idx r ∧ (rowid r' < rowid r)%Z.


(** The rows left once the groups of the keys [fixed] are repaired. *)
Definition afterGroups (idx : list nat) (fixed : list (list value))
    (rs0 : list (row (float64 := float64))) : list row :=
  filter (λ r, ¬ (noNull (rowKey idx r) = true ∧ rowKey idx r ∈ fixed
                  ∧ Exists (lowerTwin idx r) rs0)) rs0.

(** Every table name is plain, so that the quoted name the program writes
    denotes the table. *)
Definition plainTables (db : database (float64 := float64)) : Prop :=
  map_Forall (λ n _, plainName n) (tables db).







End RepairVocabulary.

(** The specification's example of a duplicate: two rows of key (1, 2) at
    the rowids 5 and 9, and a row of another key between them. *)
Definition dupSchema : tableSchema :=
  mkTableSchema "T" [mkColumnDef "x" "TEXT" false; mkColumnDef "y" "TEXT" false;
                     mkColumnDef "note" "TEXT" true].

Definition dupTable : table (float64 := Z) :=
  mkTable dupSchema []
    [mkRow 5 [VString "1"; VString "2"; VString "first"];
     mkRow 7 [VString "3"; VString "4"; VNil];
     mkRow 9 [VString "1"; VString "2"; VString "second"]].

Definition dupDb : database (float64 := Z) := mkDatabase {["T" := dupTable]} [].

Definition dupIndexStmt : string :=
  createIndexStmt (mkForeignKey "CHILD" ["x"; "y"] "T").

(** A parent with one row and a child with a row that matches it, a row
    that references a missing parent and a row with a NULL key. *)
Definition orphanDb : database (float64 := Z) :=
  mkDatabase
    {[ "P" := mkTable (mkTableSchema "P" [mkColumnDef "ID" "TEXT" false]) []
                [mkRow 1 [VString "a"]];
       "C" := mkTable (mkTableSchema "C" [mkColumnDef "N" "TEXT" false;
                                          mkColumnDef "ID" "TEXT" true])
                [mkForeignKey "C" ["ID"] "P"]
                [mkRow 1 [VString "x"; VString "a"];
                 mkRow 2 [VString "y"; VString "zz"];
                 mkRow 3 [VString "z"; VNil]] ]}
    [mkIndex "idx_P_ID" "P" ["ID"]].

(** A chain of three tables: the runway has no airport, and the runway
    end references the runway. *)
Definition cascadeDb : database (float64 := Z) :=
  mkDatabase
    {[ "APT_BASE" := mkTable (mkTableSchema "APT_BASE" [mkColumnDef "SITE_NO" "TEXT" false])
                       [] [];
       "APT_RWY" := mkTable (mkTableSchema "APT_RWY" [mkColumnDef "SITE_NO" "TEXT" false;
                                                      mkColumnDef "RWY_ID" "TEXT" false])
                      [mkForeignKey "APT_RWY" ["SITE_NO"] "APT_BASE"]
                      [mkRow 1 [VString "s1"; VString "r1"]];
       "APT_RWY_END" := mkTable (mkTableSchema "APT_RWY_END"
                                   [mkColumnDef "SITE_NO" "TEXT" false;
                                    mkColumnDef "RWY_ID" "TEXT" false;
                                    mkColumnDef "RWY_END_ID" "TEXT" false])
                          [mkForeignKey "APT_RWY_END" ["SITE_NO"; "RWY_ID"] "APT_RWY"]
                          [mkRow 1 [VString "s1"; VString "r1"; VString "e1"]] ]}
    [mkIndex "idx_APT_BASE_SITE_NO" "APT_BASE" ["SITE_NO"];
     mkIndex "idx_APT_RWY_SITE_NO_RWY_ID" "APT_RWY" ["SITE_NO"; "RWY_ID"]].

#[global] Instance plainTables_dec {float64 : Type} `{!EqDecision float64}
  (db : database (float64 := float64)) : Decision (plainTables db).
Proof. unfold plainTables. apply _. Defined.


(** ** Vocabulary of the further properties *)

(** Every carriage return is directly followed by a line feed. *)
Definition everyCRbeforeLF (l : bytes) : Prop :=
  ∀ i, l !! i = Some CR → l !! S i = Some LF.

(** A stream with a bare carriage return and a CR LF pair. *)
Definition crSample : bytes := s2l "a,b" ++ CR :: s2l "c,d" ++ [CR; LF].

(** An entry [parseSchemas] reads. *)
Definition isStructureFile (f : zipFile) : Prop :=
  GoStrings.HasSuffix (Name f) "_CSV_DATA_STRUCTURE.csv" = true.

#[global] Instance isStructureFile_dec f : Decision (isStructureFile f).
Proof. unfold isStructureFile. apply _. Defined.

(** What every column of a parsed schema satisfies: its type is not one
    of the two tokens that are mapped, and its name holds no space. *)
Definition cleanColumn (c : columnDef) : Prop :=
  dataType c ≠ "VARCHAR" ∧ dataType c ≠ "NUMBER" ∧ SP ∉ s2l (cname c).

#[global] Instance cleanColumn_dec c : Decision (cleanColumn c).
Proof. unfold cleanColumn. apply _. Defined.

(** A schema map as [parseSchemas] builds it: a schema is filed under its
    own name, has at least one column, and its columns are clean. *)
Definition wellFormedSchemas (tables : gmap string tableSchema) : Prop :=
  map_Forall (λ name ts, tname ts = name ∧ columns ts ≠ []
                         ∧ Forall cleanColumn (columns ts)) tables.

(** The override of nullability, column by column: a column becomes
    nullable when its table and name are a key of [sentinelNulls]. *)
Definition withSentinel (sentinelNulls : list (string * string)) (name : string)
    (c : columnDef) : columnDef :=
  if bool_decide ((name, cname c) ∈ sentinelNulls)
  then mkColumnDef (cname c) (dataType c) true else c.

Definition withSentinels (sentinelNulls : list (string * string))
    (tables : gmap string tableSchema) : gmap string tableSchema :=
  map_imap (λ name ts, Some (mkTableSchema (tname ts)
                               (withSentinel sentinelNulls name <$> columns ts))) tables.

(** A metadata file of one table, with a column name of two words and
    the two mapped types. *)
Definition spacedMetadataFile : zipFile :=
  mkZipFile "DP_CSV_DATA_STRUCTURE.csv"
    ("Table,Column,Max Length,Data Type,Nullable" +:+ NL
     +:+ "DP_BASE,DP COMPUTER CODE,12,VARCHAR,No" +:+ NL
     +:+ "DP_BASE,LAT DECIMAL,12,NUMBER,Yes" +:+ NL).

Definition spacedSchema : tableSchema :=
  mkTableSchema "DP_BASE" [mkColumnDef "DP_COMPUTER_CODE" "TEXT" false;
                           mkColumnDef "LAT_DECIMAL" "REAL" true].

(** The items of a CREATE TABLE statement: a column definition, a
    foreign key clause. *)
Definition columnItem (col : columnDef) : string :=
  "  " +:+ GoFmt.Quote (cname col) +:+ " " +:+ dataType col
  +:+ (if nullable col then "" else " NOT NULL").

Definition foreignKeyItem (fk : foreignKey) : string :=
  "  FOREIGN KEY (" +:+ GoStrings.Join (quotedCols (fkColumns fk)) ", "
  +:+ ") REFERENCES " +:+ GoFmt.Quote (parentTable fk)
  +:+ " (" +:+ GoStrings.Join (quotedCols (fkColumns fk)) ", " +:+ ")".

(** What stands between two items: a comma and a line feed. *)
Definition itemSep : string := "," +:+ NL.

(** An entry the program takes for the full CSV archive: under CSV_Data/,
    ending in _CSV.zip, and without a hyphen anywhere. *)
Definition fullArchiveName (name : string) : Prop :=
  GoStrings.HasPrefix name "CSV_Data/" = true
  ∧ GoStrings.HasSuffix name "_CSV.zip" = true
  ∧ HYPHEN ∉ s2l name.

#[global] Instance fullArchiveName_dec name : Decision (fullArchiveName name).
Proof. unfold fullArchiveName. apply _. Defined.

(** A stream without a record: line ends only (LF or CR LF), with
    possibly a last CR. *)
Fixpoint onlyLineEnds (l : bytes) : bool :=
  match l with
  | [] => true
  | c :: r =>
      if ceqb c LF then onlyLineEnds r
      else if ceqb c CR then
        match r with
        | d :: r' => ceqb d LF && onlyLineEnds r'
        | [] => true
        end
      else false
  end.

(** An entry [loadAllCSVs] loads: a .csv file that is not a structure
    file and whose table has a schema. *)
Definition loadedEntry (tables : gmap string tableSchema) (f : zipFile) : Prop :=
  GoStrings.HasSuffix (Name f) ".csv" = true
  ∧ GoStrings.HasSuffix (Name f) "_CSV_DATA_STRUCTURE.csv" = false
  ∧ is_Some (tables !! dataTableName (Name f)).

#[global] Instance loadedEntry_dec tables f : Decision (loadedEntry tables f).
Proof. unfold loadedEntry. apply _. Defined.

(** Every schema is filed under its own name. *)
Definition keyedByName (tables : gmap string tableSchema) : Prop :=
  map_Forall (λ name ts, tname ts = name) tables.

#[global] Instance keyedByName_dec tables : Decision (keyedByName tables).
Proof. unfold keyedByName. apply _. Defined.

(** A data stream of two rows under a header of two fields, and an
    archive that holds it beside a file of no table. *)
Definition pairStream : string :=
  "A,B" +:+ NL +:+ "x,y" +:+ NL +:+ ",z" +:+ NL.

Definition pairArchive : list zipFile :=
  [mkZipFile "README.txt" "about"; mkZipFile "CSV/T.csv" pairStream;
   mkZipFile "U.csv" pairStream].

Section InvariantVocabulary.

Context {float64 : Type} `{!EqDecision float64}.

(** [db'] is [db] with the rows [new] added at the end of table [name]. *)
Definition appended (db db' : database (float64 := float64)) (name : string)
    (new : list row) : Prop :=
  ∃ tb, tables db !! name = Some tb ∧ db' = withRows db name tb (rows tb ++ new).

(** Every table of [db] is in [db'] with its schema, its constraints and
    its rows, possibly followed by more rows; [db'] has no other table and
    the same indexes. *)
Definition extends (db db' : database (float64 := float64)) : Prop :=
  indexes db' = indexes db
  ∧ ∀ n, option_Forall2
           (λ tb tb', schema tb' = schema tb ∧ constraints tb' = constraints tb
                      ∧ rows tb `prefix_of` rows tb')
           (tables db !! n) (tables db' !! n).

(** [db'] is [db] with rows deleted and indexes added, and nothing else
    changed: the same tables with their schemas and constraints, the rows
    of each table a sub-list of what they were (no row added, changed or
    moved), the indexes those of [db] followed by new ones. *)
Definition shrinks (db db' : database (float64 := float64)) : Prop :=
  indexes db `prefix_of` indexes db'
  ∧ ∀ n, option_Forall2
           (λ tb tb', schema tb' = schema tb ∧ constraints tb' = constraints tb
                      ∧ rows tb' `sublist_of` rows tb)
           (tables db !! n) (tables db' !! n).

(** The outcome [o] of a repair started in [st]: rows deleted, indexes
    added, lines added to the log. *)
Definition steady (st : state (float64 := float64)) (o : outcome) : Prop :=
  shrinks st.1 o.2.1 ∧ st.2 `prefix_of` o.2.2.

(** The index [ix] is in the database and its table satisfies it. *)
Definition indexHolds (db : database (float64 := float64)) (ix : index) : Prop :=
  ix ∈ indexes db
  ∧ ∃ tb idx, tables db !! ixTable ix = Some tb
              ∧ keyIdx (schema tb) (ixColumns ix) = Some idx
              ∧ uniqueOn idx (rows tb).

End InvariantVocabulary.

(** A number parser that reads nothing, for the examples. *)
Definition noFloat (s : string) : option Z := None.



(** The table of two columns before and after [pairStream] is loaded
    into it. *)
Definition emptyPairTable : table (float64 := Z) := mkTable twoColumns [] [].

Definition pairTable : table (float64 := Z) :=
  mkTable twoColumns []
    [mkRow 1 [VString "x"; VString "y"]; mkRow 2 [VNil; VString "z"]].

Definition pairLoaded : database (float64 := Z) :=
  mkDatabase {["T" := pairTable]} [].

(** ** Plain CSV streams *)

(** A byte of a field that needs no quoting: printable ASCII other than
    the double quote and the comma. *)
Definition csvPlain (c : ascii) : Prop :=
  (32 ≤ code c ∧ code c ≤ 126 ∧ code c ≠ 34 ∧ code c ≠ 44)%N.

#[global] Instance csvPlain_dec c : Decision (csvPlain c).
Proof. unfold csvPlain. apply _. Defined.

(** A record written without quotes: at least one field, not the one
    empty field (its line would be empty), plain bytes throughout. *)
Definition plainRecord (rec : list string) : Prop :=
  rec ≠ [] ∧ rec ≠ [""] ∧ Forall (λ f, Forall csvPlain (s2l f)) rec.

#[global] Instance plainRecord_dec rec : Decision (plainRecord rec).
Proof. unfold plainRecord. apply _. Defined.

(** The line of a record: its fields with commas between them and a
    line feed; the stream of a list of records. *)
Definition csvLine (rec : list string) : bytes :=
  s2l (GoStrings.Join rec ",") ++ [LF].

Definition csvStream (records : list (list string)) : bytes :=
  concat (csvLine <$> records).

Section PlainLoad.

Context {float64 : Type} `{!EqDecision float64}.

(** The rows of the given cells with rowids counted up from [next]. *)
Fixpoint numbered (next : Z) (cellss : list (list (value (float64 := float64))))
    : list row :=
  match cellss with
  | [] => []
  | cs :: rest => mkRow next cs :: numbered (next + 1) rest
  end.

End PlainLoad.

(** The columns the records give to table [t], in the order of the
    records. *)
Definition columnsOf (t : string) (records : list (list string)) : list columnDef :=
  snd <$> filter (λ p, p.1 = t) (omap recordColumn records).

(** The schema of table [t] that the records describe, with the
    overrides of [sentinelNulls]; none when no record names [t]. *)
Definition schemaOf (sentinelNulls : list (string * string))
    (records : list (list string)) (t : string) : option tableSchema :=
  match columnsOf t records with
  | [] => None
  | cols => Some (mkTableSchema t (withSentinel sentinelNulls t <$> cols))
  end.

(** A structure file written without quotes: its name, its header and
    its records. *)
Record plainFile := mkPlainFile {
  pfName : string; pfHeader : list string; pfRecords : list (list string)
}.

Definition plainStructureFile (p : plainFile) : Prop :=
  GoStrings.HasSuffix (pfName p) "_CSV_DATA_STRUCTURE.csv" = true
  ∧ plainRecord (pfHeader p) ∧ Forall plainRecord (pfRecords p).

#[global] Instance plainStructureFile_dec p : Decision (plainStructureFile p).
Proof. unfold plainStructureFile. apply _. Defined.

Definition plainEntry (p : plainFile) : zipFile :=
  mkZipFile (pfName p) (l2s (csvStream (pfHeader p :: pfRecords p))).

Section OrphanVocabulary.

Context {float64 : Type} `{!EqDecision float64}.



(** The rows of every table have pairwise distinct rowids. *)
Definition distinctRowids (db : database (float64 := float64)) : Prop :=
  map_Forall (λ _ tb, NoDup (rowid <$> rows tb)) (tables db).

#[global] Instance distinctRowids_dec db : Decision (distinctRowids db).
Proof. unfold distinctRowids. apply _. Defined.

End OrphanVocabulary.


Definition spacedPlainFile : plainFile :=
  mkPlainFile "DP_CSV_DATA_STRUCTURE.csv"
    ["Table"; "Column"; "Max Length"; "Data Type"; "Nullable"]
    [["DP_BASE"; "DP COMPUTER CODE"; "12"; "VARCHAR"; "No"];
     ["DP_BASE"; "LAT DECIMAL"; "12"; "NUMBER"; "Yes"]].

(** The bytes of a line before its line feed: plain bytes and commas. *)
Definition lineByte (c : ascii) : Prop := csvPlain c ∨ c = COMMA.


(** * Properties *)

(** ** Value coercion *)

Section Coercion.

Context {float64 : Type} `{!EqDecision float64}.
Variable ParseFloat : string → option float64.





(** C1, on the program as it is: [convertValue] has no case for the
    sentinel.  On a TEXT column it returns the string "NOT ASSIGNED",
    not NULL, whatever the name of the column and whether or not the
    override made it nullable; the column of the program's own test,
    after the override of its table, is an instance. *)
Theorem convertValue_sentinel_not_null :
  (∀ (colName : string) (isNullable : bool),
     convertValue ParseFloat sentinelString (mkColumnDef colName "TEXT" isNullable)
     = VString "NOT ASSIGNED")
  ∧ (let tables : gmap string tableSchema :=
       {["DP_BASE" := mkTableSchema "DP_BASE" [dpComputerCode]]} in
     let col := mkColumnDef "DP_COMPUTER_CODE" "TEXT" true in
     columns <$> (foldr overrideNullable tables [("DP_BASE", "DP_COMPUTER_CODE")]
                    !! "DP_BASE") = Some [col]
     ∧ convertValue ParseFloat sentinelString col = VString "NOT ASSIGNED"
     ∧ convertValue ParseFloat sentinelString col ≠ VNil).
Proof.
  split; [done|]. split; [by vm_compute|]. split; [done|]. by vm_compute.
Qed.

End Coercion.

(** ** The metadata parser *)





(** C8, on the program as it is: [parseSchemas] hands the stream to the
    csv reader without removing a byte-order mark.  Behind the mark, the
    quote that opens the first header field is a quote inside an unquoted
    field, and the parse fails on the header; without the mark the same
    stream parses to one table. *)
Theorem parseSchemas_keeps_BOM (sentinelNulls : list (string * string)) :
  parseSchemas sentinelNulls [sampleMetadataFile true]
  = inl (ReadHeaderError "APT_CSV_DATA_STRUCTURE.csv" GoCsv.ErrBareQuote)
  ∧ parseSchemas sentinelNulls [sampleMetadataFile false]
    = inr (foldr overrideNullable
             {["APT_BASE" := mkTableSchema "APT_BASE" [mkColumnDef "SITE_NO" "TEXT" false]]}
             sentinelNulls).
Proof.
  unfold parseSchemas. split.
  - by vm_compute (parseSchemaFiles _ _).
  - assert (parseSchemaFiles [sampleMetadataFile false] ∅
            = inr {["APT_BASE" := mkTableSchema "APT_BASE" [mkColumnDef "SITE_NO" "TEXT" false]]})
      as -> by (by vm_compute).
    done.
Qed.

(** With an unquoted header the mark stays in the first header field and
    goes with the header. *)
Lemma parseSchemas_BOM_in_plain_header :
  let plain := "Table,Column,Max Length,Data Type,Nullable" +:+ NL
               +:+ "APT_BASE,SITE_NO,9,VARCHAR,No" +:+ NL in
  parseSchemas [] [mkZipFile "APT_CSV_DATA_STRUCTURE.csv" (l2s BOM +:+ plain)]
  = parseSchemas [] [mkZipFile "APT_CSV_DATA_STRUCTURE.csv" plain].
Proof. by vm_compute. Qed.

(** ** The row loader *)

Section Loading.

Context {float64 : Type} `{!EqDecision float64}.
Variable ParseFloat : string → option float64.

(** The loop body pads: a value per column, nil past the end of the
    row. *)
Lemma rowValues_lookup ts fields i col :
  columns ts !! i = Some col →
  rowValues ParseFloat ts fields !! i
  = Some (match fields !! i with
          | Some field => convertValue ParseFloat field col
          | None => VNil
          end).
Proof. intros H. unfold rowValues. by rewrite list_lookup_imap, H. Qed.

Lemma rowValues_length ts fields :
  length (rowValues ParseFloat ts fields) = length (columns ts).
Proof. unfold rowValues. by rewrite length_imap. Qed.

(** C4, on the program as it is: the reader of [loadCSV] is left with
    [FieldsPerRecord = 0], so the header fixes the number of fields and a
    row with fewer is an error of [Read]; the load of the table fails and
    no row is inserted.  The padding is reached only when the header is
    as short as the row. *)
Theorem loadCSV_short_row_is_error :
  loadCSV ParseFloat (s2l raggedStream) twoColumns (emptyTable twoColumns)
  = inl (LoadReadError GoCsv.ErrFieldCount)
  ∧ loadCSV ParseFloat (s2l narrowStream) twoColumns (emptyTable twoColumns)
    = inr (mkDatabase
             {["T" := mkTable twoColumns [] [mkRow 1 [VString "x"; VNil]]]} []).
Proof. split; by vm_compute. Qed.

(** The padded row is refused by the engine when a column it pads is
    declared NOT NULL. *)
Lemma loadCSV_padding_not_null :
  loadCSV ParseFloat (s2l narrowStream) twoColumnsStrict (emptyTable twoColumnsStrict)
  = inl LoadExecError.
Proof. by vm_compute. Qed.

End Loading.

(** ** Strings as byte lists *)

Lemma l2s_s2l s : l2s (s2l s) = s.
Proof. apply string_of_list_ascii_of_string. Qed.

Lemma s2l_l2s l : s2l (l2s l) = l.
Proof. apply list_ascii_of_string_of_list_ascii. Qed.

Lemma s2l_inj s1 s2 : s2l s1 = s2l s2 → s1 = s2.
Proof. intros H. by rewrite <- (l2s_s2l s1), H, l2s_s2l. Qed.

Lemma s2l_app s1 s2 : s2l (s1 +:+ s2) = s2l s1 ++ s2l s2.
Proof. induction s1 as [|c s1 IH]; [done|]. cbn. by rewrite <- IH. Qed.

Lemma s2l_String c s : s2l (String c s) = c :: s2l s.
Proof. done. Qed.

(** The first occurrence of a byte splits a list in one way. *)
Lemma first_occurrence {A} (c : A) l1 r1 l2 r2 :
  c ∉ l1 → c ∉ l2 → l1 ++ c :: r1 = l2 ++ c :: r2 → l1 = l2 ∧ r1 = r2.
Proof.
  revert l2. induction l1 as [|a l1 IH]; intros [|b l2] H1 H2 Heq; cbn in Heq.
  - by injection Heq as ->.
  - injection Heq as -> _. destruct H2. apply list_elem_of_here.
  - injection Heq as -> _. destruct H1. apply list_elem_of_here.
  - injection Heq as -> Heq. rewrite not_elem_of_cons in H1, H2.
    destruct (IH l2) as [-> ->]; [tauto..|done].
Qed.

(** ** Joining column names *)

Lemma Join_cons e e' es sep :
  GoStrings.Join (e :: e' :: es) sep = e +:+ sep +:+ GoStrings.Join (e' :: es) sep.
Proof. done. Qed.

Lemma Join_comma_inj l1 l2 :
  l1 ≠ [] → l2 ≠ [] → Forall noComma l1 → Forall noComma l2 →
  GoStrings.Join l1 "," = GoStrings.Join l2 "," → l1 = l2.
Proof.
  revert l2. induction l1 as [|e1 l1 IH]; intros l2 Hn1 Hn2 H1 H2 Heq; [done|].
  destruct l2 as [|e2 l2]; [done|].
  apply Forall_cons in H1 as [He1 H1]. apply Forall_cons in H2 as [He2 H2].
  destruct l1 as [|e1' l1], l2 as [|e2' l2].
  - by simplify_eq/=.
  - exfalso. change (e1 = e2 +:+ "," +:+ GoStrings.Join (e2' :: l2) ",") in Heq.
    subst e1. apply He1. rewrite !s2l_app. set_solver.
  - exfalso. change (e1 +:+ "," +:+ GoStrings.Join (e1' :: l1) "," = e2) in Heq.
    subst e2. apply He2. rewrite !s2l_app. set_solver.
  - rewrite !Join_cons in Heq. apply (f_equal s2l) in Heq.
    rewrite !s2l_app in Heq. change (s2l ",") with [COMMA] in Heq. cbn [app] in Heq.
    apply first_occurrence in Heq as [He Hrest]; [|done..].
    apply s2l_inj in He, Hrest. subst e2. f_equal. by apply IH.
Qed.

Lemma parentKey_pairOf fk1 fk2 :
  commaFreeKey fk1 → commaFreeKey fk2 →
  parentKey fk1 = parentKey fk2 → pairOf fk1 = pairOf fk2.
Proof.
  intros [Hn1 H1] [Hn2 H2]. unfold parentKey, pairOf. intros [= Hp Hj].
  f_equal; [done|]. by apply Join_comma_inj.
Qed.

(** ** The collection of unique indexes *)

Lemma collect_invariant fks seen acc :
  (∀ k, k ∈ seen ↔ k ∈ parentKey <$> acc) → NoDup (parentKey <$> acc) →
  let out := (foldl collectStep (seen, acc) fks).2 in
  NoDup (parentKey <$> out)
  ∧ (∀ fk, fk ∈ out → fk ∈ acc ∨ fk ∈ fks)
  ∧ (∀ fk, fk ∈ acc ∨ fk ∈ fks → parentKey fk ∈ parentKey <$> out).
Proof.
  revert seen acc. induction fks as [|fk fks IH]; intros seen acc Hseen Hnd; cbn.
  - split; [done|]. split; [by left|]. intros fk [H|H]; [|by apply elem_of_nil in H].
    by apply list_elem_of_fmap_2.
  - destruct (decide (parentKey fk ∈ seen)) as [Hin|Hin].
    + assert (collectStep (seen, acc) fk = (seen, acc)) as ->.
      { unfold collectStep. cbn [fst snd]. by rewrite bool_decide_eq_true_2. }
      destruct (IH seen acc Hseen Hnd) as (Hnd' & Hsub & Hcov).
      split; [done|]. split.
      * intros x Hx. destruct (Hsub x Hx); [by left|right; by right].
      * intros x [Hx|Hx]; [apply Hcov; by left|].
        apply elem_of_cons in Hx as [->|Hx]; [|apply Hcov; by right].
        apply Hseen in Hin. apply list_elem_of_fmap in Hin as (y & Hy & Hyin).
        rewrite Hy. apply Hcov. by left.
    + assert (collectStep (seen, acc) fk = ({[parentKey fk]} ∪ seen, acc ++ [fk])) as ->.
      { unfold collectStep. cbn [fst snd]. by rewrite bool_decide_eq_false_2. }
      destruct (IH ({[parentKey fk]} ∪ seen) (acc ++ [fk])) as (Hnd' & Hsub & Hcov).
      * intros k. rewrite fmap_app, elem_of_app, elem_of_union, elem_of_singleton.
        cbn. rewrite list_elem_of_singleton, Hseen. tauto.
      * rewrite fmap_app. apply NoDup_app. split; [done|]. split.
        -- intros k Hk. cbn. rewrite list_elem_of_singleton. intros ->.
           apply Hin, Hseen, Hk.
        -- cbn. apply NoDup_singleton.
      * split; [done|]. split.
        -- intros x Hx. destruct (Hsub x Hx) as [H|H].
           ++ apply elem_of_app in H as [H|H]; [by left|].
              apply list_elem_of_singleton in H as ->. right; by left.
           ++ right; by right.
        -- intros x [Hx|Hx].
           ++ apply Hcov. left. apply elem_of_app. by left.
           ++ apply elem_of_cons in Hx as [->|Hx].
              ** apply Hcov. left. apply elem_of_app. right. by apply list_elem_of_singleton.
              ** apply Hcov. by right.
Qed.

Lemma collectUniqueIndexes_spec fks :
  NoDup (parentKey <$> collectUniqueIndexes fks)
  ∧ (∀ fk, fk ∈ collectUniqueIndexes fks → fk ∈ fks)
  ∧ (∀ fk, fk ∈ fks → parentKey fk ∈ parentKey <$> collectUniqueIndexes fks).
Proof.
  destruct (collect_invariant fks ∅ []) as (H1 & H2 & H3).
  - intros k. cbn. rewrite elem_of_nil. set_solver.
  - cbn. apply NoDup_nil_2.
  - split; [done|]. split.
    + intros fk Hfk. destruct (H2 fk Hfk) as [H|H]; [by apply elem_of_nil in H|done].
    + intros fk Hfk. apply H3. by right.
Qed.

(** ** The lookup from child table to constraints *)

Lemma buildFkMap_foldl fks (m : gmap string (list foreignKey)) name :
  default [] (foldl (λ m fk, <[childTable fk := default [] (m !! childTable fk) ++ [fk]]> m)
                    m fks !! name)
  = default [] (m !! name) ++ filter (λ fk, childTable fk = name) fks.
Proof.
  revert m. induction fks as [|fk fks IH]; intros m; cbn [foldl].
  - by rewrite app_nil_r.
  - rewrite IH, filter_cons. destruct (decide (childTable fk = name)) as [<-|Hne].
    + rewrite lookup_insert_eq. cbn. by rewrite <- app_assoc.
    + by rewrite lookup_insert_ne.
Qed.

Lemma buildFkMap_lookup fks name :
  default [] (buildFkMap fks !! name) = filter (λ fk, childTable fk = name) fks.
Proof. unfold buildFkMap. by rewrite buildFkMap_foldl, lookup_empty. Qed.

(** ** Sorting *)

Lemma sortStrings_sorted names : Sorted String.le (sortStrings names).
Proof. apply (Sorted_merge_sort String.le). Qed.

Lemma sortStrings_perm names : sortStrings names ≡ₚ names.
Proof. apply merge_sort_Permutation. Qed.

(** [sort.Strings] is determined by what it promises: any sorted
    rearrangement of the names is the one [sortStrings] returns. *)
Lemma sortStrings_unique names sorted :
  Sorted String.le sorted → sorted ≡ₚ names → sorted = sortStrings names.
Proof.
  intros Hs Hp. apply (Sorted_unique String.le); [done|apply sortStrings_sorted|].
  by rewrite Hp, sortStrings_perm.
Qed.

Lemma sortStrings_order_irrelevant l1 l2 :
  l1 ≡ₚ l2 → sortStrings l1 = sortStrings l2.
Proof.
  intros Hp. apply sortStrings_unique; [apply sortStrings_sorted|].
  by rewrite sortStrings_perm.
Qed.

Lemma insertLeft_perm {A} (less : A → A → bool) x l :
  insertLeft less x l ≡ₚ x :: l.
Proof.
  induction l as [|y l IH]; [done|]. cbn. destruct (less x y); [|done].
  rewrite IH. apply Permutation_swap.
Qed.

Lemma insertionSort_perm {A} (less : A → A → bool) l :
  insertionSort less l ≡ₚ l.
Proof.
  unfold insertionSort. rewrite <- Permutation_rev.
  assert (∀ acc, foldl (λ acc x, insertLeft less x acc) acc l ≡ₚ acc ++ l) as H.
  { induction l as [|x l IH]; intros acc; cbn [foldl].
    - by rewrite app_nil_r.
    - rewrite IH, insertLeft_perm. cbn. apply Permutation_middle. }
  apply H.
Qed.

(** ** DDL synthesis *)

Section SynthesisFacts.

Variable sortSlice : (foreignKey → foreignKey → bool) → list foreignKey → list foreignKey.

Lemma generateDDL_tables iter tables fks :
  (generateDDL sortSlice iter tables fks).1
  = omap (λ name, (λ ts, createTableStmt ts (filter (λ fk, childTable fk = name) fks))
                    <$> tables !! name) (sortStrings iter).
Proof.
  unfold generateDDL. cbn [fst]. apply list_omap_ext.
  apply Forall2_same_length_lookup_2; [done|]. intros i x y Hx Hy. simplify_eq.
  by rewrite buildFkMap_lookup.
Qed.

Lemma generateDDL_indexes iter tables fks :
  (generateDDL sortSlice iter tables fks).2
  = createIndexStmt <$> sortSlice lessParent (collectUniqueIndexes fks).
Proof. done. Qed.

Lemma iterationOrder_names tables iter :
  iterationOrder tables iter →
  NoDup (sortStrings iter)
  ∧ (∀ n, n ∈ sortStrings iter ↔ is_Some (tables !! n))
  ∧ length (sortStrings iter) = size tables.
Proof.
  unfold iterationOrder. intros Hp.
  assert (sortStrings iter ≡ₚ elements (dom tables)) as Hs
    by (by rewrite sortStrings_perm).
  split; [rewrite Hs; apply NoDup_elements|]. split.
  - intros n. by rewrite Hs, elem_of_elements, elem_of_dom.
  - rewrite Hs, <- size_dom. reflexivity.
Qed.

Lemma createTables_spec iter tables fks :
  iterationOrder tables iter →
  Forall2 (tableStmtOf tables fks) (sortStrings iter)
          (generateDDL sortSlice iter tables fks).1.
Proof.
  intros Hit. rewrite generateDDL_tables.
  destruct (iterationOrder_names _ _ Hit) as (_ & Hin & _).
  assert (Forall (λ n, is_Some (tables !! n)) (sortStrings iter)) as Hall.
  { apply Forall_forall. intros n Hn. by apply Hin. }
  clear Hin Hit. generalize dependent (sortStrings iter). intros names Hall.
  induction Hall as [|n names [ts Hts] Hall IH]; [constructor|].
  cbn [omap list_omap]. rewrite Hts. cbn. constructor; [|done].
  by exists ts.
Qed.

End SynthesisFacts.

Section SynthesisTheorems.

Variable sortSlice : (foreignKey → foreignKey → bool) → list foreignKey → list foreignKey.
Hypothesis sortSlice_perm : ∀ less l, sortSlice less l ≡ₚ l.

Lemma collected_pairs fks :
  Forall commaFreeKey fks →
  NoDup (pairOf <$> collectUniqueIndexes fks)
  ∧ ∀ p, p ∈ pairOf <$> collectUniqueIndexes fks ↔ p ∈ pairOf <$> fks.
Proof.
  intros Hfree. destruct (collectUniqueIndexes_spec fks) as (Hnd & Hsub & Hcov).
  split.
  - apply (NoDup_fmap_1 (λ p : string * list string, (p.1, GoStrings.Join p.2 ","))).
    by rewrite <- list_fmap_compose.
  - intros p. rewrite !list_elem_of_fmap. split.
    + intros (fk & -> & Hfk). exists fk. split; [done|]. by apply Hsub.
    + intros (fk & -> & Hfk). specialize (Hcov fk Hfk).
      apply list_elem_of_fmap in Hcov as (fk' & Hk & Hfk').
      exists fk'. split; [|done].
      rewrite Forall_forall in Hfree.
      apply parentKey_pairOf; [by apply Hfree|by apply Hfree, Hsub|done].
Qed.

(** C6, as amended.  For constraints that each have at least one column and
    no comma in a column name, [generateDDL] emits exactly one unique-index
    statement per distinct (parentTable, columns) pair: the statements are
    those of constraints with pairwise distinct pairs, which are the pairs
    of the catalog, so there are as many statements as distinct pairs; and
    it emits exactly one table statement per schema, the statement of that
    schema with the clauses of its constraints.  [sort.Slice] may be any
    function that rearranges its argument. *)
Theorem generateDDL_one_index_per_pair iter tables fks :
  iterationOrder tables iter →
  Forall commaFreeKey fks →
  oneIndexPerPair fks (generateDDL sortSlice iter tables fks).2
  ∧ length (generateDDL sortSlice iter tables fks).2
    = length (remove_dups (pairOf <$> fks))
  ∧ Forall2 (tableStmtOf tables fks) (sortStrings iter)
            (generateDDL sortSlice iter tables fks).1
  ∧ length (generateDDL sortSlice iter tables fks).1 = size tables.
Proof.
  intros Hit Hfree. destruct (collected_pairs fks Hfree) as (Hnd & Hmem).
  pose proof (sortSlice_perm lessParent (collectUniqueIndexes fks)) as Hp.
  assert (NoDup (pairOf <$> sortSlice lessParent (collectUniqueIndexes fks))) as Hnd'
    by (by rewrite Hp).
  assert (∀ p, p ∈ pairOf <$> sortSlice lessParent (collectUniqueIndexes fks)
               ↔ p ∈ pairOf <$> fks) as Hmem'
    by (intros p; by rewrite Hp).
  pose proof (createTables_spec sortSlice iter tables fks Hit) as Htabs.
  split; [|split; [|split]].
  - exists (sortSlice lessParent (collectUniqueIndexes fks)). by rewrite generateDDL_indexes.
  - rewrite generateDDL_indexes, length_fmap.
    rewrite <- (length_fmap pairOf). apply Permutation_length.
    apply NoDup_Permutation; [done|apply NoDup_remove_dups|].
    intros p. by rewrite Hmem', elem_of_remove_dups.
  - done.
  - rewrite <- (Forall2_length _ _ _ Htabs).
    by destruct (iterationOrder_names _ _ Hit) as (_ & _ & ->).
Qed.

End SynthesisTheorems.

(** C7.  The output of [generateDDL] does not depend on the order in which
    the map of schemas is ranged over: two runs on the same schemas and
    catalog return the same two lists, statement for statement.  The table
    statements are those of the table names in increasing byte order, each
    table once. *)
Theorem generateDDL_deterministic
    (sortSlice : (foreignKey → foreignKey → bool) → list foreignKey → list foreignKey)
    (iter1 iter2 : list string) (tables : gmap string tableSchema)
    (fks : list foreignKey) :
  iterationOrder tables iter1 → iterationOrder tables iter2 →
  generateDDL sortSlice iter1 tables fks = generateDDL sortSlice iter2 tables fks
  ∧ ∃ names,
      Sorted String.le names ∧ NoDup names
      ∧ (∀ n, n ∈ names ↔ is_Some (tables !! n))
      ∧ Forall2 (tableStmtOf tables fks) names
                (generateDDL sortSlice iter1 tables fks).1.
Proof.
  intros H1 H2. split.
  - unfold generateDDL. rewrite (sortStrings_order_irrelevant iter1 iter2); [done|].
    unfold iterationOrder in *. by rewrite H1, H2.
  - exists (sortStrings iter1).
    destruct (iterationOrder_names _ _ H1) as (Hnd & Hin & _).
    split; [apply sortStrings_sorted|]. split; [done|]. split; [done|].
    by apply createTables_spec.
Qed.

(** C6 as stated fails: two constraints on one parent whose column lists
    differ but join to the same text get one index statement between
    them. *)
Lemma generateDDL_collision :
  ¬ oneIndexPerPair collidingKeys (generateDDL insertionSort [] ∅ collidingKeys).2.
Proof.
  intros (reps & Hst & Hnd & Hmem).
  assert (length reps = 1) as Hlen.
  { rewrite <- (length_fmap createIndexStmt), <- Hst. by vm_compute. }
  destruct reps as [|r [|r' reps]]; [done| |done].
  assert (("P", ["a,b"]) ∈ pairOf <$> [r]) as Ha.
  { apply Hmem. apply list_elem_of_here. }
  assert (("P", ["a"; "b"]) ∈ pairOf <$> [r]) as Hb.
  { apply Hmem. apply list_elem_of_further, list_elem_of_here. }
  cbn in Ha, Hb. apply list_elem_of_singleton in Ha, Hb. congruence.
Qed.

Lemma generateDDL_one_index_per_pair_witness :
  let iter := elements (dom testTables) in
  oneIndexPerPair testFks (generateDDL insertionSort iter testTables testFks).2
  ∧ length (generateDDL insertionSort iter testTables testFks).2
    = length (remove_dups (pairOf <$> testFks))
  ∧ Forall2 (tableStmtOf testTables testFks) (sortStrings iter)
            (generateDDL insertionSort iter testTables testFks).1
  ∧ length (generateDDL insertionSort iter testTables testFks).1 = size testTables.
Proof.
  apply (generateDDL_one_index_per_pair insertionSort (@insertionSort_perm _)).
  - unfold iterationOrder. reflexivity.
  - apply (bool_decide_unpack _). by vm_compute.
Defined.

Lemma generateDDL_deterministic_witness :
  generateDDL insertionSort (elements (dom testTables)) testTables testFks
  = generateDDL insertionSort (reverse (elements (dom testTables))) testTables testFks
  ∧ ∃ names,
      Sorted String.le names ∧ NoDup names
      ∧ (∀ n, n ∈ names ↔ is_Some (testTables !! n))
      ∧ Forall2 (tableStmtOf testTables testFks) names
                (generateDDL insertionSort (elements (dom testTables)) testTables testFks).1.
Proof.
  apply generateDDL_deterministic.
  - unfold iterationOrder. reflexivity.
  - unfold iterationOrder. apply reverse_Permutation.
Defined.

(** ** Reading an index statement back *)

Lemma code_chr_plain c n : c = chr n → (n < 256)%N → code c = n.
Proof. intros -> H. unfold code, chr. by apply N_ascii_embedding. Qed.

Lemma plainByte_ne c n : plainByte c → (n = 34 ∨ n = 92 ∨ n = 44 ∨ n = 40 ∨ n = 41)%N → c ≠ chr n.
Proof.
  intros Hp Hn Hc. apply code_chr_plain in Hc; [|lia]. unfold plainByte in Hp. cbn zeta in Hp. lia.
Qed.

Lemma plainByte_notDQ c : plainByte c → c ≠ DQ.
Proof. intros H. apply (plainByte_ne c 34 H). lia. Qed.
Lemma plainByte_notCOMMA c : plainByte c → c ≠ COMMA.
Proof. intros H. apply (plainByte_ne c 44 H). lia. Qed.
Lemma plainByte_notLPAR c : plainByte c → c ≠ LPAR.
Proof. intros H. apply (plainByte_ne c 40 H). lia. Qed.
Lemma plainByte_notRPAR c : plainByte c → c ≠ RPAR.
Proof. intros H. apply (plainByte_ne c 41 H). lia. Qed.

Lemma plain_not_elem l c :
  Forall plainByte l → (∀ x, plainByte x → x ≠ c) → c ∉ l.
Proof.
  intros Hl Hc Hin. rewrite Forall_forall in Hl. by apply (Hc c (Hl c Hin)).
Qed.

Lemma quoteByte_plain c : plainByte c → GoFmt.quoteByte c = [c].
Proof.
  unfold plainByte, GoFmt.quoteByte. cbn zeta. intros H.
  repeat match goal with
  | |- context [(?a =? ?b)%N] => destruct (N.eqb_spec a b); [lia|]
  end.
  destruct (N.ltb_spec (code c) 32); [lia|]. done.
Qed.

Lemma quote_plain l : Forall plainByte l → GoFmt.quote l = DQ :: l ++ [DQ].
Proof.
  intros H. unfold GoFmt.quote. do 2 f_equal.
  induction H as [|c l Hc Hl IH]; [done|]. cbn. by rewrite quoteByte_plain, IH.
Qed.

Lemma Quote_plain s : plainName s → s2l (GoFmt.Quote s) = DQ :: s2l s ++ [DQ].
Proof. intros H. unfold GoFmt.Quote. by rewrite s2l_l2s, quote_plain. Qed.

(** *** The pattern *)

Lemma ceqb_true a b : ceqb a b = true ↔ a = b.
Proof. unfold ceqb. apply bool_decide_eq_true. Qed.

Lemma ceqb_false a b : ceqb a b = false ↔ a ≠ b.
Proof. unfold ceqb. apply bool_decide_eq_false. Qed.

Lemma spanNot_app stop a r :
  stop ∉ a → GoRegexp.spanNot stop (a ++ stop :: r) = (a, stop :: r).
Proof.
  induction a as [|c a IH]; intros Hn; cbn.
  - by rewrite (proj2 (ceqb_true stop stop) eq_refl).
  - apply not_elem_of_cons in Hn as [Hc Ha].
    rewrite (proj2 (ceqb_false c stop)) by done. by rewrite IH.
Qed.

Lemma spanNot_none stop a :
  stop ∉ a → GoRegexp.spanNot stop a = (a, []).
Proof.
  induction a as [|c a IH]; intros Hn; cbn; [done|].
  apply not_elem_of_cons in Hn as [Hc Ha].
  rewrite (proj2 (ceqb_false c stop)) by done. by rewrite IH.
Qed.

Lemma spanNot_spec stop l a b :
  GoRegexp.spanNot stop l = (a, b) →
  l = a ++ b ∧ (stop ∉ a) ∧ (b = [] ∨ ∃ r, b = stop :: r).
Proof.
  revert a b. induction l as [|c l IH]; intros a b; cbn.
  - intros [= <- <-]. split; [done|]. split; [apply not_elem_of_nil|by left].
  - destruct (ceqb c stop) eqn:Hc.
    + apply ceqb_true in Hc as ->. intros [= <- <-].
      split; [done|]. split; [apply not_elem_of_nil|right; by eexists].
    + apply ceqb_false in Hc. destruct (GoRegexp.spanNot stop l) as [a' b'].
      intros [= <- <-]. destruct (IH a' b' eq_refl) as (-> & Hn & Hb).
      split; [done|]. split; [|done]. apply not_elem_of_cons. by split.
Qed.

Lemma dropWhile_spec p l :
  ∃ w, l = w ++ (GoStrings.dropWhile p l) ∧ Forall (λ c, p c = true) w
       ∧ match GoStrings.dropWhile p l with c :: _ => p c = false | [] => True end.
Proof.
  induction l as [|c l (w & Hl & Hw & Hh)]; [by exists []|].
  cbn. destruct (p c) eqn:Hc.
  - exists (c :: w). split; [by rewrite Hl at 1|]. split; [by constructor|done].
  - exists []. split; [done|]. split; [constructor|done].
Qed.

Lemma dropWhile_stop p c l :
  p c = false → GoStrings.dropWhile p (c :: l) = c :: l.
Proof. intros H. cbn. by rewrite H. Qed.

Lemma captureUntil_Some stop l cap r :
  GoRegexp.captureUntil stop l = Some (cap, r) →
  l = cap ++ stop :: r ∧ (stop ∉ cap) ∧ cap ≠ [].
Proof.
  unfold GoRegexp.captureUntil.
  destruct (GoRegexp.spanNot stop l) as [a b] eqn:Hs.
  apply spanNot_spec in Hs as (-> & Hn & Hb).
  destruct a as [|c a]; [done|]. destruct b as [|d b]; [done|].
  destruct Hb as [Hb|[r' [= -> ->]]]; [done|]. by intros [= <- <-].
Qed.

Lemma captureUntil_app stop cap r :
  stop ∉ cap → cap ≠ [] → GoRegexp.captureUntil stop (cap ++ stop :: r) = Some (cap, r).
Proof.
  intros Hn Hne. unfold GoRegexp.captureUntil. rewrite spanNot_app by done.
  by destruct cap.
Qed.

Lemma spaces1Then_Some next l r :
  GoRegexp.spaces1Then next l = Some r →
  ∃ w, l = w ++ next :: r ∧ w ≠ [] ∧ Forall (λ c, GoRegexp.reSpace c = true) w.
Proof.
  unfold GoRegexp.spaces1Then. destruct l as [|c l]; [done|].
  destruct (GoRegexp.reSpace c) eqn:Hc; [|done].
  destruct (dropWhile_spec GoRegexp.reSpace l) as (w & Hl & Hw & _).
  destruct (GoStrings.dropWhile GoRegexp.reSpace l) as [|d r'] eqn:Hd; [done|].
  destruct (ceqb d next) eqn:Hdn; [|done]. apply ceqb_true in Hdn as ->.
  intros [= ->]. exists (c :: w). split; [by rewrite Hl|]. split; [done|by constructor].
Qed.

(** What a match at the head of [l] takes: ON, blanks, a quoted run,
    blanks, an opening parenthesis. *)
Lemma matchHere_Some l m :
  GoRegexp.matchHere l = Some m →
  ∃ w t w2 r2,
    l = chr 79 :: chr 78 :: (w ++ DQ :: (t ++ DQ :: (w2 ++ LPAR :: r2)))
    ∧ Forall (λ c, GoRegexp.reSpace c = true) w ∧ (DQ ∉ t)
    ∧ w2 ≠ [] ∧ Forall (λ c, GoRegexp.reSpace c = true) w2.
Proof.
  unfold GoRegexp.matchHere. destruct l as [|o [|n r]]; [done..|].
  destruct (ceqb o (chr 79)) eqn:Ho; [|done]. apply ceqb_true in Ho as ->.
  destruct (ceqb n (chr 78)) eqn:Hn; [|done]. apply ceqb_true in Hn as ->.
  cbn [andb].
  destruct (GoRegexp.spaces1Then DQ r) as [r1|] eqn:H1; [|done].
  cbn [mbind option_bind].
  destruct (GoRegexp.captureUntil DQ r1) as [[tbl r2]|] eqn:H2; [|done].
  cbn [mbind option_bind].
  destruct (GoRegexp.spaces1Then LPAR r2) as [r3|] eqn:H3; [|done].
  intros _.
  apply spaces1Then_Some in H1 as (w & -> & _ & Hw).
  apply captureUntil_Some in H2 as (-> & Ht & _).
  apply spaces1Then_Some in H3 as (w2 & -> & Hw2 & Hw2').
  by exists w, tbl, w2, r3.
Qed.

Lemma matchHere_head c l : c ≠ chr 79 → GoRegexp.matchHere (c :: l) = None.
Proof.
  intros Hc. unfold GoRegexp.matchHere. destruct l as [|n r]; [done|].
  by rewrite (proj2 (ceqb_false c (chr 79))).
Qed.

Lemma findSubmatch_skip pre R :
  (∀ a b, pre = a ++ b → b ≠ [] → GoRegexp.matchHere (b ++ R) = None) →
  GoRegexp.findSubmatch (pre ++ R) = GoRegexp.findSubmatch R.
Proof.
  induction pre as [|c pre IH]; intros H; [done|].
  cbn [app GoRegexp.findSubmatch].
  assert (GoRegexp.matchHere (c :: pre ++ R) = None) as ->.
  { apply (H [] (c :: pre)); done. }
  apply IH. intros a b -> Hb. by apply (H (c :: a) b).
Qed.

Lemma findSubmatch_here l m :
  GoRegexp.matchHere l = Some m → GoRegexp.findSubmatch l = Some m.
Proof. intros H. destruct l; cbn [GoRegexp.findSubmatch]; by rewrite H. Qed.

(** *** The statement of a plain constraint *)

(** Blanks and then an opening parenthesis are not the start of a plain
    name followed by a double quote. *)
Lemma blanks_paren_not_name w2 r2 P Y :
  Forall (λ c, GoRegexp.reSpace c = true) w2 → LPAR ∉ P →
  w2 ++ LPAR :: r2 ≠ P ++ DQ :: Y.
Proof.
  intros Hw. revert P. induction Hw as [|x w2 Hx Hw IH]; intros P HP Heq.
  - destruct P as [|p P]; cbn in Heq; [done|].
    injection Heq as <- _. apply HP, list_elem_of_here.
  - destruct P as [|p P]; cbn in Heq.
    + injection Heq as -> _. done.
    + injection Heq as -> Heq. apply (IH P); [|done].
      intros Hin. apply HP. by apply list_elem_of_further.
Qed.

Lemma matchHere_stmtTail P C :
  P ≠ [] → DQ ∉ P → C ≠ [] → RPAR ∉ C →
  GoRegexp.matchHere (stmtTail P C) = Some (P, C).
Proof.
  intros HP1 HP2 HC1 HC2. unfold stmtTail, GoRegexp.matchHere.
  change (ceqb (chr 79) (chr 79) && ceqb (chr 78) (chr 78)) with true. cbv iota.
  change (GoRegexp.spaces1Then DQ (SP :: DQ :: P ++ DQ :: SP :: LPAR :: C ++ [RPAR; chr 59]))
    with (Some (P ++ DQ :: SP :: LPAR :: C ++ [RPAR; chr 59])).
  cbn [mbind option_bind]. rewrite captureUntil_app by done.
  cbn [mbind option_bind].
  change (GoRegexp.spaces1Then LPAR (SP :: LPAR :: C ++ [RPAR; chr 59]))
    with (Some (C ++ [RPAR; chr 59])).
  cbn [mbind option_bind]. by rewrite captureUntil_app.
Qed.

(** The suffixes of the text before the ON that a match could start at:
    all of them start with a byte other than O, except those that start
    inside the index name. *)
Lemma suffix_before_ON I a b :
  stmtPrefix ++ DQ :: I ++ [DQ; SP] = a ++ b → b ≠ [] →
  (∃ c b', b = c :: b' ∧ c ≠ chr 79)
  ∨ (∃ J, b = J ++ [DQ; SP] ∧ (∀ x, x ∈ J → x ∈ I)).
Proof.
  unfold stmtPrefix. intros Heq Hb.
  do 20 (destruct a as [|? a];
         [cbn in Heq; subst b; left; by do 2 eexists
         |cbn in Heq; injection Heq as <- Heq]).
  destruct a as [|? a].
  { cbn in Heq. subst b. left. by do 2 eexists. }
  cbn in Heq. injection Heq as <- Heq.
  revert a Heq. induction I as [|i I IH]; intros a Heq.
  - cbn in Heq. destruct a as [|? a].
    { cbn in Heq. subst b. left. by do 2 eexists. }
    cbn in Heq. injection Heq as <- Heq. destruct a as [|? a].
    { cbn in Heq. subst b. left. by do 2 eexists. }
    cbn in Heq. injection Heq as <- Heq. by destruct a, b.
  - destruct a as [|? a].
    + cbn in Heq. right. exists (i :: I). by split.
    + cbn in Heq. injection Heq as <- Heq.
      destruct (IH a Heq) as [H|(J & HJ & Hsub)]; [by left|right].
      exists J. split; [done|]. intros x Hx. apply list_elem_of_further. by apply Hsub.
Qed.

(** No match starts before the ON of the statement. *)
Lemma no_match_before_ON I P C a b :
  DQ ∉ I → LPAR ∉ P →
  stmtPrefix ++ DQ :: I ++ [DQ; SP] = a ++ b → b ≠ [] →
  GoRegexp.matchHere (b ++ stmtTail P C) = None.
Proof.
  intros HI HP Heq Hb.
  destruct (suffix_before_ON I a b Heq Hb) as [(c & b' & -> & Hc)|(J & -> & HJ)].
  { by apply matchHere_head. }
  destruct (GoRegexp.matchHere ((J ++ [DQ; SP]) ++ stmtTail P C)) as [m|] eqn:Hm;
    [exfalso|done].
  apply matchHere_Some in Hm as (w & t & w2 & r2 & Hl & Hw & Ht & Hw2 & Hw2').
  (* the first double quote after the start closes the index name *)
  rewrite <- app_assoc in Hl. cbn [app] in Hl.
  change (chr 79 :: chr 78 :: (w ++ DQ :: (t ++ DQ :: (w2 ++ LPAR :: r2))))
    with ((chr 79 :: chr 78 :: w) ++ DQ :: (t ++ DQ :: (w2 ++ LPAR :: r2))) in Hl.
  apply first_occurrence in Hl as [_ Hrest].
  2:{ intros Hin. apply HI. by apply HJ. }
  2:{ rewrite !not_elem_of_cons. split; [done|]. split; [done|].
      intros Hin. rewrite Forall_forall in Hw. by specialize (Hw _ Hin). }
  (* the second one opens the parent name *)
  unfold stmtTail in Hrest.
  change (SP :: chr 79 :: chr 78 :: SP :: DQ :: P ++ DQ :: SP :: LPAR :: C ++ [RPAR; chr 59])
    with ([SP; chr 79; chr 78; SP] ++ DQ :: (P ++ DQ :: SP :: LPAR :: C ++ [RPAR; chr 59]))
    in Hrest.
  apply first_occurrence in Hrest as [_ Hrest]; [| |done].
  2:{ rewrite !not_elem_of_cons. repeat split; try done. apply not_elem_of_nil. }
  symmetry in Hrest. by apply blanks_paren_not_name in Hrest.
Qed.

Lemma findSubmatch_stmt I P C :
  DQ ∉ I → P ≠ [] → DQ ∉ P → LPAR ∉ P → C ≠ [] → RPAR ∉ C →
  GoRegexp.findSubmatch (stmtPrefix ++ DQ :: I ++ [DQ; SP] ++ stmtTail P C)
  = Some (P, C).
Proof.
  intros HI HP1 HP2 HP3 HC1 HC2.
  change (stmtPrefix ++ DQ :: I ++ [DQ; SP] ++ stmtTail P C)
    with (stmtPrefix ++ (DQ :: I) ++ [DQ; SP] ++ stmtTail P C).
  rewrite !app_assoc, <- (app_assoc stmtPrefix).
  rewrite findSubmatch_skip.
  - apply findSubmatch_here. by apply matchHere_stmtTail.
  - intros a b Heq Hb. by apply (no_match_before_ON I P C a b).
Qed.

(** *** The column list *)

Lemma split_no_sep sep l : sep ∉ l → GoStrings.split sep l = [l].
Proof.
  induction l as [|c l IH]; intros Hn; [done|].
  apply not_elem_of_cons in Hn as [Hc Hl]. cbn.
  rewrite (proj2 (ceqb_false c sep)) by done. by rewrite IH.
Qed.

Lemma split_app sep a r :
  sep ∉ a → GoStrings.split sep (a ++ sep :: r) = a :: GoStrings.split sep r.
Proof.
  induction a as [|c a IH]; intros Hn; cbn.
  - by rewrite (proj2 (ceqb_true sep sep) eq_refl).
  - apply not_elem_of_cons in Hn as [Hc Ha].
    rewrite (proj2 (ceqb_false c sep)) by done. by rewrite IH.
Qed.

Lemma colListL_Join cols :
  Forall plainName cols →
  s2l (GoStrings.Join (quotedCols cols) ", ") = colListL (s2l <$> cols).
Proof.
  induction 1 as [|c cols Hc Hcols IH]; [done|].
  destruct cols as [|c' cols].
  - cbn. by apply Quote_plain.
  - change (quotedCols (c :: c' :: cols))
      with (GoFmt.Quote c :: quotedCols (c' :: cols)).
    change (GoStrings.Join (GoFmt.Quote c :: quotedCols (c' :: cols)) ", ")
      with (GoFmt.Quote c +:+ ", " +:+ GoStrings.Join (quotedCols (c' :: cols)) ", ").
    rewrite !s2l_app, IH, Quote_plain by done. done.
Qed.

Lemma colListL_props cols :
  cols ≠ [] → Forall (Forall plainByte) cols →
  colListL cols ≠ [] ∧ RPAR ∉ colListL cols.
Proof.
  intros Hne Hall. split.
  - destruct cols as [|c [|c' cols]]; done.
  - clear Hne. induction Hall as [|c cols Hc Hall IH]; [apply not_elem_of_nil|].
    assert (RPAR ∉ quotedL c) as Hq.
    { unfold quotedL. rewrite not_elem_of_cons, not_elem_of_app. split; [done|].
      split; [|by rewrite list_elem_of_singleton].
      apply plain_not_elem; [done|apply plainByte_notRPAR]. }
    destruct cols as [|c' cols]; [done|].
    change (colListL (c :: c' :: cols))
      with (quotedL c ++ COMMA :: SP :: colListL (c' :: cols)).
    rewrite not_elem_of_app, !not_elem_of_cons. done.
Qed.

(** The pieces between the commas of a column list: the quoted names,
    each but the first behind a space. *)
Lemma split_colListL cols :
  cols ≠ [] → Forall (Forall plainByte) cols →
  Forall2 (λ p c, (p = quotedL c ∨ p = SP :: quotedL c) ∧ Forall plainByte c)
          (GoStrings.split COMMA (colListL cols)) cols.
Proof.
  intros Hne Hall.
  assert (∀ c, Forall plainByte c → COMMA ∉ quotedL c) as Hq.
  { intros c Hc. unfold quotedL. rewrite not_elem_of_cons, not_elem_of_app.
    split; [done|]. split; [|by rewrite list_elem_of_singleton].
    apply plain_not_elem; [done|apply plainByte_notCOMMA]. }
  assert (∀ cs, Forall (Forall plainByte) cs → cs ≠ [] →
            GoStrings.split COMMA (colListL cs) =
            match cs with
            | c :: cs' => quotedL c :: ((λ c, SP :: quotedL c) <$> cs')
            | [] => []
            end)
    as Haux.
  { clear cols Hne Hall. induction 1 as [|c cs Hc Hcs IH]; [done|]. intros _.
    destruct cs as [|c' cs].
    - cbn [colListL]. rewrite split_no_sep by auto. done.
    - change (colListL (c :: c' :: cs))
        with (quotedL c ++ COMMA :: (SP :: colListL (c' :: cs))).
      rewrite split_app by auto. f_equal.
      specialize (IH ltac:(done)).
      change (GoStrings.split COMMA (SP :: colListL (c' :: cs)))
        with (if ceqb SP COMMA then [] :: GoStrings.split COMMA (colListL (c' :: cs))
              else match GoStrings.split COMMA (colListL (c' :: cs)) with
                   | p :: ps => (SP :: p) :: ps
                   | [] => [[SP]]
                   end).
      change (ceqb SP COMMA) with false. cbv iota. by rewrite IH. }
  rewrite Haux by done. destruct cols as [|c cols]; [done|].
  apply Forall_cons in Hall as [Hc Hall].
  constructor; [split; [by left|done]|]. clear -Hall.
  induction Hall as [|c' cols Hc' Hall IH]; [constructor|].
  cbn. constructor; [split; [by right|done]|done].
Qed.

Lemma space2_DQ b : GoStrings.space2 b DQ = false.
Proof. unfold GoStrings.space2. apply andb_false_r. Qed.

Lemma space3_DQ c b : GoStrings.space3 c b DQ = false.
Proof.
  unfold GoStrings.space3. cbv zeta. change (code DQ) with 34%N.
  by destruct (code c =? 225)%N, (code c =? 226)%N, (code c =? 227)%N,
              (code b =? 154)%N, (code b =? 128)%N, (code b =? 129)%N.
Qed.

Lemma trimSpace_quotedL c :
  GoStrings.trimSpace (quotedL c) = quotedL c
  ∧ GoStrings.trimSpace (SP :: quotedL c) = quotedL c.
Proof.
  assert (∀ l, GoStrings.trimLeft (DQ :: l) = DQ :: l) as HL.
  { by intros [|b [|d l]]. }
  assert (∀ l, GoStrings.trimLeftRev (DQ :: l) = DQ :: l) as HR.
  { intros [|b [|d l]]; [done| |].
    - cbn [GoStrings.trimLeftRev]. change (GoStrings.asciiSpace DQ) with false.
      cbv iota. by rewrite space2_DQ.
    - cbn [GoStrings.trimLeftRev]. change (GoStrings.asciiSpace DQ) with false.
      cbv iota. by rewrite space2_DQ, space3_DQ. }
  assert (rev (quotedL c) = DQ :: rev c ++ [DQ]) as Hrev.
  { unfold quotedL. cbn [rev]. rewrite rev_app_distr. done. }
  assert (GoStrings.trimSpace (quotedL c) = quotedL c) as H1.
  { unfold GoStrings.trimSpace. unfold quotedL at 1. rewrite HL.
    fold (quotedL c). rewrite Hrev, HR, <- Hrev. apply rev_involutive. }
  split; [done|]. unfold GoStrings.trimSpace.
  change (GoStrings.trimLeft (SP :: quotedL c)) with (GoStrings.trimLeft (quotedL c)).
  apply H1.
Qed.

Lemma trim_quotedL c :
  DQ ∉ c → GoStrings.trim [DQ] (quotedL c) = c.
Proof.
  intros Hc.
  assert (∀ l, DQ ∉ l →
            GoStrings.dropWhile (GoStrings.inCutset [DQ]) (l ++ [DQ])
            = match l with [] => [] | _ => l ++ [DQ] end) as Hdrop.
  { intros [|x l] Hl; [done|]. apply not_elem_of_cons in Hl as [Hx _].
    cbn [app GoStrings.dropWhile]. unfold GoStrings.inCutset. cbn [existsb].
    by rewrite (proj2 (ceqb_false x DQ)). }
  unfold GoStrings.trim, quotedL.
  change (GoStrings.dropWhile (GoStrings.inCutset [DQ]) (DQ :: c ++ [DQ]))
    with (GoStrings.dropWhile (GoStrings.inCutset [DQ]) (c ++ [DQ])).
  rewrite Hdrop by done. destruct c as [|x c]; [done|].
  rewrite rev_app_distr.
  change (rev [DQ] ++ rev (x :: c)) with (DQ :: rev (x :: c)).
  change (GoStrings.dropWhile (GoStrings.inCutset [DQ]) (DQ :: rev (x :: c)))
    with (GoStrings.dropWhile (GoStrings.inCutset [DQ]) (rev (x :: c))).
  assert (∃ y l', rev (x :: c) = y :: l' ∧ y ≠ DQ) as (y & l' & Hr & Hy).
  { destruct (rev (x :: c)) as [|y l'] eqn:Hr.
    - apply (f_equal (@length _)) in Hr. rewrite length_rev in Hr. done.
    - exists y, l'. split; [done|]. intros ->. apply Hc.
      apply list_elem_of_In, in_rev. rewrite <- list_elem_of_In.
      change (rev (x :: c)) with (rev (x :: c)). rewrite Hr. apply list_elem_of_here. }
  rewrite Hr. cbn [GoStrings.dropWhile]. unfold GoStrings.inCutset. cbn [existsb].
  rewrite (proj2 (ceqb_false y DQ)) by done. cbn [orb]. rewrite <- Hr.
  apply rev_involutive.
Qed.

(** *** The round trip *)

Lemma plainName_app s1 s2 : plainName s1 → plainName s2 → plainName (s1 +:+ s2).
Proof. unfold plainName. rewrite s2l_app. apply Forall_app_2. Qed.

Lemma plainName_Join cols :
  Forall plainName cols → plainName (GoStrings.Join cols "_").
Proof.
  assert (plainName "_") as Hu by (apply (bool_decide_unpack _); by vm_compute).
  induction 1 as [|c cols Hc Hcols IH]; [constructor|].
  destruct cols as [|c' cols]; [done|].
  change (GoStrings.Join (c :: c' :: cols) "_")
    with (c +:+ "_" +:+ GoStrings.Join (c' :: cols) "_").
  by repeat apply plainName_app.
Qed.

Lemma plainName_indexName fk : plainKey fk → plainName (indexName fk).
Proof.
  intros (_ & HP & _ & Hcols). unfold indexName.
  assert (plainName "idx_") as Hi by (apply (bool_decide_unpack _); by vm_compute).
  assert (plainName "_") as Hu by (apply (bool_decide_unpack _); by vm_compute).
  repeat apply plainName_app; try done. by apply plainName_Join.
Qed.

Lemma s2l_createIndexStmt fk :
  plainKey fk →
  s2l (createIndexStmt fk)
  = stmtPrefix ++ DQ :: s2l (indexName fk) ++ [DQ; SP]
    ++ stmtTail (s2l (parentTable fk)) (colListL (s2l <$> fkColumns fk)).
Proof.
  intros Hfk. pose proof (plainName_indexName fk Hfk) as Hidx.
  destruct Hfk as (_ & HP & _ & Hcols).
  unfold createIndexStmt. rewrite !s2l_app, !Quote_plain, colListL_Join by done.
  unfold stmtPrefix, stmtTail. cbn [app]. rewrite <- !app_assoc. done.
Qed.

Lemma parseUniqueIndex_createIndexStmt fk :
  plainKey fk →
  parseUniqueIndex (createIndexStmt fk) = Some (parentTable fk, fkColumns fk).
Proof.
  intros Hfk. pose proof (plainName_indexName fk Hfk) as Hidx.
  unfold parseUniqueIndex. rewrite s2l_createIndexStmt by done.
  destruct Hfk as (HP0 & HP & Hc0 & Hcols).
  assert (Forall (Forall plainByte) (s2l <$> fkColumns fk)) as Hcols'.
  { apply Forall_fmap. eapply Forall_impl; [exact Hcols|]. by intros c Hc. }
  assert (s2l <$> fkColumns fk ≠ []) as Hc0' by (by destruct (fkColumns fk)).
  destruct (colListL_props _ Hc0' Hcols') as [HC1 HC2].
  rewrite findSubmatch_stmt; try done.
  - rewrite l2s_s2l. do 2 f_equal.
    unfold GoStrings.Split. rewrite s2l_l2s.
    pose proof (split_colListL _ Hc0' Hcols') as Hsplit.
    rewrite <- list_fmap_compose.
    apply list_eq_Forall2. apply Forall2_fmap_l.
    apply Forall2_fmap_r in Hsplit.
    eapply Forall2_impl; [exact Hsplit|]. clear Hsplit.
    intros p col [Hp Hcol]. cbn.
    unfold GoStrings.Trim, GoStrings.TrimSpace. rewrite !s2l_l2s.
    change (s2l (String DQ EmptyString)) with [DQ].
    destruct (trimSpace_quotedL (s2l col)) as [H1 H2].
    assert (DQ ∉ s2l col) as Hdq by (apply plain_not_elem; [done|apply plainByte_notDQ]).
    destruct Hp as [-> | ->]; by rewrite ?H1, ?H2, trim_quotedL, l2s_s2l.
  - apply plain_not_elem; [done|apply plainByte_notDQ].
  - intros Hp. apply HP0. apply s2l_inj. by rewrite Hp.
  - apply plain_not_elem; [done|apply plainByte_notDQ].
  - apply plain_not_elem; [done|apply plainByte_notLPAR].
Qed.

Section ReadingBack.

Variable sortSlice : (foreignKey → foreignKey → bool) → list foreignKey → list foreignKey.
Hypothesis sortSlice_perm : ∀ less l, sortSlice less l ≡ₚ l.


End ReadingBack.



(** ** The engine on plain names *)

Section EngineFacts.

Context {float64 : Type} `{!EqDecision float64}.
Implicit Types (db : database (float64 := float64)) (tb : table (float64 := float64)).
Implicit Types (rs : list (row (float64 := float64))) (r : row (float64 := float64)).



Lemma setRows_id tb : setRows tb (rows tb) = tb.
Proof. by destruct tb. Qed.

Lemma withRows_id db t tb : tables db !! t = Some tb → withRows db t tb (rows tb) = db.
Proof.
  intros H. unfold withRows. rewrite setRows_id, insert_id by done. by destruct db.
Qed.

Lemma withRows_lookup db t tb rs : tables (withRows db t tb rs) !! t = Some (setRows tb rs).
Proof. apply lookup_insert_eq. Qed.

Lemma withRows_withRows db t tb rs rs' :
  withRows (withRows db t tb rs) t (setRows tb rs) rs' = withRows db t tb rs'.
Proof. unfold withRows. cbn. by rewrite insert_insert_eq. Qed.




End EngineFacts.

(** ** Lists *)

Lemma filter_ext_in {A} (P Q : A → Prop) `{!∀ x, Decision (P x)} `{!∀ x, Decision (Q x)}
    (l : list A) :
  (∀ x, x ∈ l → P x ↔ Q x) → filter P l = filter Q l.
Proof.
  induction l as [|x l IH]; intros Hext; [done|].
  rewrite !filter_cons.
  rewrite IH by (intros y Hy; apply Hext; by apply list_elem_of_further).
  destruct (decide (P x)) as [HP|HP], (decide (Q x)) as [HQ|HQ]; try done.
  - destruct HQ. apply Hext; [apply list_elem_of_here|done].
  - destruct HP. apply Hext; [apply list_elem_of_here|done].
Qed.








(** ** Duplicate repair *)

Section DuplicateRepair.

Context {float64 : Type} `{!EqDecision float64}.
Implicit Types (db : database (float64 := float64)) (tb : table (float64 := float64)).
Implicit Types (rs : list (row (float64 := float64))) (r : row (float64 := float64)).
Implicit Types (vals : list (value (float64 := float64))).



Section Group.

Variable idx : list nat.







Lemma afterGroups_ext fixed fixed' rs0 :
  (∀ k, k ∈ fixed ↔ k ∈ fixed') → afterGroups idx fixed rs0 = afterGroups idx fixed' rs0.
Proof.
  intros Hk. unfold afterGroups. apply filter_ext_in. intros r _. by rewrite Hk.
Qed.














End Group.

End DuplicateRepair.



Section DedupIndex.

Context {float64 : Type} `{!EqDecision float64}.


End DedupIndex.

(** ** Orphan repair and the final check *)

Section OrphanRepair.

Context {float64 : Type} `{!EqDecision float64}.
Implicit Types (db : database (float64 := float64)) (tb : table (float64 := float64)).
Implicit Types (st : state (float64 := float64)).








Lemma finalCheck_outcome st :
  finalCheck st
  = match fkCheck st.1 with
    | None => (Some FinalForeignKeyCheckError, st)
    | Some vs =>
        (if decide (vs = []) then None else Some (ViolationsRemain (length vs)),
         (st.1, st.2 ++ (ViolationRemaining <$> vs)))
    end.
Proof.
  unfold finalCheck. destruct (fkCheck st.1) as [[|v vs]|]; [done| |done].
  cbn [length]. rewrite bool_decide_eq_true_2 by lia. done.
Qed.


(** A run that fails on remaining violations carries their number. *)
Lemma repairAndVerify_count createIndexes st n :
  (repairAndVerify createIndexes st).1 = Some (ViolationsRemain n) →
  ∃ vs, fkCheck (repairAndVerify createIndexes st).2.1 = Some vs
        ∧ length vs = n ∧ 0 < n.
Proof.
  unfold repairAndVerify.
  destruct (deduplicateParents createIndexes st) as [[e|] st1]; [done|].
  destruct (deleteOrphans st1) as [[e|] st2]; [done|].
  rewrite finalCheck_outcome. destruct (fkCheck st2.1) as [vs|] eqn:Hchk; [|done].
  destruct (decide (vs = [])) as [->|Hne]; [done|]. cbn. intros [= <-].
  exists vs. split; [done|]. split; [done|]. destruct vs; [done|cbn; lia].
Qed.


End OrphanRepair.

(** ** The repairs on examples *)

(** The example of the specification: the row of rowid 9 goes, the row of
    rowid 5 stays, the deletion is logged and the index is created. *)
Lemma dedupIndex_example :
  dedupIndex dupIndexStmt (dupDb, [])
  = (None,
     (mkDatabase
        {["T" := mkTable dupSchema []
                   [mkRow 5 [VString "1"; VString "2"; VString "first"];
                    mkRow 7 [VString "3"; VString "4"; VNil]]]}
        [mkIndex "idx_T_x_y" "T" ["x"; "y"]],
      [DeletedDuplicate "T" 5 9 [("x", VString "1"); ("y", VString "2")]])).
Proof. by vm_compute. Qed.

(** One orphan: it is deleted and the final check passes. *)
Lemma repairAndVerify_example :
  (repairAndVerify [] (orphanDb, [])).1 = None
  ∧ (repairAndVerify [] (orphanDb, [])).2.2 = [DeletedOrphan "C" 2 "P"]
  ∧ rows <$> (tables (repairAndVerify [] (orphanDb, [])).2.1 !! "C")
    = Some [mkRow 1 [VString "x"; VString "a"]; mkRow 3 [VString "z"; VNil]].
Proof. by vm_compute. Qed.

(** A cascade: deleting the runway orphans the runway end, which the one
    pass of [deleteOrphans] had not seen; the final check finds it and the
    run fails with the count 1. *)
Lemma repairAndVerify_cascade :
  (repairAndVerify [] (cascadeDb, [])).1 = Some (ViolationsRemain 1).
Proof. by vm_compute. Qed.



(** * Further properties of the code *)

(** ** Line ends of the metadata files *)

Lemma normalizeCR_cons c r :
  normalizeCR (c :: r)
  = if ceqb c CR then
      match r with
      | d :: r' => if ceqb d LF then CR :: LF :: normalizeCR r' else LF :: normalizeCR r
      | [] => [LF]
      end
    else c :: normalizeCR r.
Proof. reflexivity. Qed.

Lemma normalizeCR_other c r : c ≠ CR → normalizeCR (c :: r) = c :: normalizeCR r.
Proof. intros H. by rewrite normalizeCR_cons, (proj2 (ceqb_false c CR) H). Qed.

Lemma normalizeCR_CRLF r : normalizeCR (CR :: LF :: r) = CR :: LF :: normalizeCR r.
Proof.
  by rewrite normalizeCR_cons, (proj2 (ceqb_true CR CR) eq_refl),
    (proj2 (ceqb_true LF LF) eq_refl).
Qed.

Lemma normalizeCR_bare d r : d ≠ LF → normalizeCR (CR :: d :: r) = LF :: normalizeCR (d :: r).
Proof.
  intros H. by rewrite normalizeCR_cons, (proj2 (ceqb_true CR CR) eq_refl),
    (proj2 (ceqb_false d LF) H).
Qed.

Lemma normalizeCR_last : normalizeCR [CR] = [LF].
Proof. reflexivity. Qed.

(** The cases of [normalizeCR], as an induction principle. *)
Lemma normalizeCR_ind (P : bytes → Prop) :
  P [] →
  (∀ c r, c ≠ CR → P r → P (c :: r)) →
  (∀ r, P r → P (CR :: LF :: r)) →
  (∀ d r, d ≠ LF → P (d :: r) → P (CR :: d :: r)) →
  P [CR] →
  ∀ l, P l.
Proof.
  intros Hnil Hother Hcrlf Hbare Hlast l.
  assert (∀ n l, length l ≤ n → P l) as H; [|by apply (H (length l))].
  clear l. induction n as [|n IH]; intros l Hl.
  { destruct l; [done | cbn in Hl; lia]. }
  destruct l as [|c r]; [done|]. cbn in Hl.
  destruct (decide (c = CR)) as [->|Hc]; [|apply Hother; [done | apply IH; lia]].
  destruct r as [|d r]; [done|]. cbn in Hl.
  destruct (decide (d = LF)) as [->|Hd].
  - apply Hcrlf, IH. lia.
  - apply Hbare; [done | apply IH; cbn; lia].
Qed.

Lemma normalizeCR_out data : everyCRbeforeLF (normalizeCR data).
Proof.
  induction data as [|c r Hc IH|r IH|d r Hd IH|] using normalizeCR_ind; intros i.
  - done.
  - rewrite normalizeCR_other by done. destruct i as [|i]; cbn.
    + intros ?; simplify_eq.
    + apply IH.
  - rewrite normalizeCR_CRLF. destruct i as [|[|i]]; cbn; [done|done|apply IH].
  - rewrite normalizeCR_bare by done. destruct i as [|i]; cbn; [done | apply IH].
  - destruct i as [|[|i]]; done.
Qed.

Lemma normalizeCR_fixed data : everyCRbeforeLF data → normalizeCR data = data.
Proof.
  induction data as [|c r Hc IH|r IH|d r Hd IH|] using normalizeCR_ind; intros H.
  - done.
  - rewrite normalizeCR_other by done. f_equal. apply IH. intros i. apply (H (S i)).
  - rewrite normalizeCR_CRLF. do 2 f_equal. apply IH. intros i. apply (H (S (S i))).
  - specialize (H 0 eq_refl). change (Some d = Some LF) in H. congruence.
  - specialize (H 0 eq_refl). done.
Qed.

(** X1. In the output of [normalizeCR] every carriage return is directly
    followed by a line feed: no bare carriage return is left. *)
Theorem normalizeCR_no_bare_CR (data : bytes) :
  ∀ i, normalizeCR data !! i = Some CR → normalizeCR data !! S i = Some LF.
Proof. apply normalizeCR_out. Qed.

(** X2. [normalizeCR] returns its input unchanged exactly when the input
    has no bare carriage return; in particular it is idempotent. *)
Theorem normalizeCR_unchanged_iff (data : bytes) :
  (normalizeCR data = data ↔ everyCRbeforeLF data)
  ∧ normalizeCR (normalizeCR data) = normalizeCR data.
Proof.
  split; [split|].
  - intros <-. apply normalizeCR_out.
  - apply normalizeCR_fixed.
  - apply normalizeCR_fixed, normalizeCR_out.
Qed.

(** X3. [normalizeCR] keeps the length of its input and every byte other
    than a carriage return at its place; a carriage return stays where a
    line feed follows it and becomes a line feed elsewhere. *)
Theorem normalizeCR_in_place (data : bytes) :
  length (normalizeCR data) = length data
  ∧ ∀ i c, data !! i = Some c →
      normalizeCR data !! i
      = Some (if decide (c = CR ∧ data !! S i ≠ Some LF) then LF else c).
Proof.
  induction data as [|c r Hc [IHl IH]|r [IHl IH]|d r Hd [IHl IH]|] using normalizeCR_ind.
  - done.
  - rewrite normalizeCR_other by done. split; [cbn; by rewrite IHl|].
    intros [|i] c' Hi; cbn in *.
    + injection Hi as <-. rewrite decide_False; [done | by intros [? _]].
    + by apply IH.
  - rewrite normalizeCR_CRLF. split; [cbn; by rewrite IHl|].
    intros [|[|i]] c' Hi; cbn in *.
    + injection Hi as <-. rewrite decide_False; [done | by intros [_ ?]].
    + injection Hi as <-. rewrite decide_False; [done | by intros [? _]].
    + by apply IH.
  - rewrite normalizeCR_bare by done. split; [cbn in *; by rewrite IHl|].
    intros [|i] c' Hi.
    + injection Hi as <-. rewrite decide_True; [done|]. split; [done|].
      intros Heq. change (Some d = Some LF) in Heq. congruence.
    + apply (IH i c' Hi).
  - split; [done|]. intros [|i] c' Hi; [|done]. injection Hi as <-. cbn.
    by rewrite decide_True.
Qed.


(** ** The schemas [parseSchemas] returns *)

Lemma mapDataType_mapped d : mapDataType d ≠ "VARCHAR" ∧ mapDataType d ≠ "NUMBER".
Proof.
  unfold mapDataType. repeat case_bool_decide; split; congruence.
Qed.

Lemma replaceByte_gone old new l : old ≠ new → old ∉ GoStrings.replaceByte old new l.
Proof.
  intros Hne. unfold GoStrings.replaceByte. rewrite list_elem_of_fmap.
  intros (c & Hc & _). destruct (ceqb c old) eqn:E.
  - congruence.
  - apply ceqb_false in E. congruence.
Qed.

Lemma recordColumn_clean record t col :
  recordColumn record = Some (t, col) → cleanColumn col.
Proof.
  unfold recordColumn. intros H.
  destruct record as [|r0 [|r1 [|r2 [|r3 [|r4 more]]]]]; try done.
  injection H as <- <-. unfold cleanColumn. cbn [dataType cname].
  destruct (mapDataType_mapped (GoStrings.TrimSpace r3)) as [H1 H2].
  split_and!; [done|done|].
  unfold GoStrings.ReplaceAll. rewrite s2l_l2s. by apply replaceByte_gone.
Qed.

Lemma addRecord_wellFormed record tables :
  wellFormedSchemas tables → wellFormedSchemas (addRecord record tables).
Proof.
  intros Hwf. unfold addRecord.
  destruct (recordColumn record) as [[t col]|] eqn:Hrec; [|done].
  apply recordColumn_clean in Hrec.
  apply map_Forall_insert_2; [|done].
  destruct (tables !! t) as [ts|] eqn:Hts; cbn.
  - destruct (Hwf _ _ Hts) as (Hn & Hc & Hcl). split_and!; [done| |].
    + by destruct (columns ts).
    + apply Forall_app. split; [done | by apply Forall_singleton].
  - split_and!; [done|done|by apply Forall_singleton].
Qed.

Lemma readRecords_wellFormed fuel r file tables tables' :
  wellFormedSchemas tables →
  readRecords fuel r file tables = inr tables' → wellFormedSchemas tables'.
Proof.
  revert r tables. induction fuel as [|fuel IH]; intros r tables Hwf H; cbn in H.
  { by injection H as <-. }
  destruct (GoCsv.Read r) as [[e|record] r'].
  - destruct e; try done. by injection H as <-.
  - eapply IH; [|done]. by apply addRecord_wellFormed.
Qed.

Lemma parseSchemaFile_wellFormed f tables tables' :
  wellFormedSchemas tables →
  parseSchemaFile f tables = inr tables' → wellFormedSchemas tables'.
Proof.
  intros Hwf. unfold parseSchemaFile.
  destruct (negb _); [by intros [= <-]|].
  destruct (GoCsv.Read _) as [[e|hd] r']; [done|].
  by apply readRecords_wellFormed.
Qed.

Lemma parseSchemaFiles_wellFormed files tables tables' :
  wellFormedSchemas tables →
  parseSchemaFiles files tables = inr tables' → wellFormedSchemas tables'.
Proof.
  revert tables. induction files as [|f fs IH]; intros tables Hwf H; cbn in H.
  { by injection H as <-. }
  destruct (parseSchemaFile f tables) as [e|t1] eqn:Hf; [done|].
  eapply IH; [|done]. by eapply parseSchemaFile_wellFormed.
Qed.

Lemma overrides_lookup sentinelNulls (tables : gmap string tableSchema) name :
  foldr overrideNullable tables sentinelNulls !! name
  = (λ ts, mkTableSchema (tname ts) (withSentinel sentinelNulls name <$> columns ts))
      <$> tables !! name.
Proof.
  induction sentinelNulls as [|[t c] sn IH]; cbn [foldr].
  - destruct (tables !! name) as [[n cs]|]; [|done]. cbn. do 2 f_equal.
    rewrite <- (list_fmap_id cs) at 1. apply list_fmap_ext. intros i col _.
    unfold withSentinel. rewrite bool_decide_eq_false_2; [done | apply not_elem_of_nil].
  - unfold overrideNullable at 1. cbn [fst snd].
    assert (∀ col, withSentinel ((t, c) :: sn) name col
                   = if decide (t = name) then overrideColumn c (withSentinel sn name col)
                     else withSentinel sn name col) as Hcol.
    { intros col. unfold withSentinel, overrideColumn.
      destruct (decide (t = name)) as [->|Hne].
      - destruct (decide (cname col = c)) as [<-|Hc].
        + rewrite (bool_decide_eq_true_2 ((name, cname col) ∈ (name, cname col) :: sn))
            by apply list_elem_of_here.
          destruct (bool_decide ((name, cname col) ∈ sn)); cbn;
            by rewrite (bool_decide_eq_true_2 (cname col = cname col)).
        + assert ((name, cname col) ∈ (name, c) :: sn ↔ (name, cname col) ∈ sn) as Hiff.
          { rewrite elem_of_cons. split; [intros [[= ?]|?]; done | by right]. }
          rewrite (bool_decide_ext _ _ Hiff).
          destruct (bool_decide ((name, cname col) ∈ sn)); cbn;
            by rewrite (bool_decide_eq_false_2 (cname col = c)).
      - assert ((name, cname col) ∈ (t, c) :: sn ↔ (name, cname col) ∈ sn) as Hiff.
        { rewrite elem_of_cons. split; [intros [[= ? ?]|?]; done | by right]. }
        by rewrite (bool_decide_ext _ _ Hiff). }
    destruct (foldr overrideNullable tables sn !! t) as [ts|] eqn:Ht.
    + destruct (decide (t = name)) as [->|Hne].
      * rewrite lookup_insert_eq. rewrite IH in Ht.
        destruct (tables !! name) as [ts0|]; [|done]. cbn in Ht. injection Ht as <-.
        cbn. do 2 f_equal. rewrite <- list_fmap_compose. apply list_fmap_ext.
        intros i col _. cbn. by rewrite Hcol.
      * rewrite lookup_insert_ne by done. rewrite IH.
        destruct (tables !! name) as [ts0|]; [|done]. cbn. do 2 f_equal.
        apply list_fmap_ext. intros i col _. by rewrite Hcol.
    + rewrite IH. destruct (decide (t = name)) as [->|Hne].
      * rewrite IH in Ht. by destruct (tables !! name).
      * destruct (tables !! name) as [ts0|]; [|done]. cbn. do 2 f_equal.
        apply list_fmap_ext. intros i col _. by rewrite Hcol.
Qed.

Lemma overrides_withSentinels sentinelNulls (tables : gmap string tableSchema) :
  foldr overrideNullable tables sentinelNulls = withSentinels sentinelNulls tables.
Proof.
  apply map_eq. intros name. rewrite overrides_lookup. unfold withSentinels.
  rewrite map_lookup_imap. by destruct (tables !! name).
Qed.

Lemma withSentinel_clean sn name c : cleanColumn c → cleanColumn (withSentinel sn name c).
Proof. unfold withSentinel. by case_bool_decide. Qed.

Lemma overrides_wellFormed sn tables :
  wellFormedSchemas tables → wellFormedSchemas (foldr overrideNullable tables sn).
Proof.
  intros Hwf name ts. rewrite overrides_lookup.
  destruct (tables !! name) as [ts0|] eqn:H0; [|done]. intros [= <-].
  destruct (Hwf _ _ H0) as (Hn & Hc & Hcl). cbn. split_and!; [done| |].
  - by destruct (columns ts0).
  - apply Forall_fmap. eapply Forall_impl; [done|]. intros c. apply withSentinel_clean.
Qed.

Lemma parseSchemas_wellFormed sn files tables :
  parseSchemas sn files = inr tables → wellFormedSchemas tables.
Proof.
  unfold parseSchemas. destruct (parseSchemaFiles files ∅) as [e|t0] eqn:H0; [done|].
  intros [= <-]. apply overrides_wellFormed.
  eapply parseSchemaFiles_wellFormed; [|done]. apply map_Forall_empty.
Qed.

(** X5. Every schema [parseSchemas] returns is filed under its own name and
    has at least one column. *)
Theorem parseSchemas_keyed_by_name sentinelNulls files tables name ts :
  parseSchemas sentinelNulls files = inr tables →
  tables !! name = Some ts →
  tname ts = name ∧ columns ts ≠ [].
Proof.
  intros H Hts. destruct (parseSchemas_wellFormed _ _ _ H _ _ Hts) as (?&?&?). done.
Qed.

(** X6. No column [parseSchemas] returns has the type VARCHAR or NUMBER, and
    no column name holds a space. *)
Theorem parseSchemas_columns_clean sentinelNulls files tables name ts :
  parseSchemas sentinelNulls files = inr tables →
  tables !! name = Some ts →
  Forall (λ c, dataType c ≠ "VARCHAR" ∧ dataType c ≠ "NUMBER" ∧ SP ∉ s2l (cname c))
         (columns ts).
Proof.
  intros H Hts. destruct (parseSchemas_wellFormed _ _ _ H _ _ Hts) as (?&?&?). done.
Qed.

(** X7. The override loop of [parseSchemas] changes nothing but the
    nullability of the columns that [sentinelNulls] lists, which it sets:
    the result is the one without overrides with those columns made
    nullable, whatever the order in which the keys are visited. *)
Theorem parseSchemas_overrides sentinelNulls files :
  parseSchemas sentinelNulls files
  = match parseSchemas [] files with
    | inl e => inl e
    | inr tables => inr (withSentinels sentinelNulls tables)
    end.
Proof.
  unfold parseSchemas. destruct (parseSchemaFiles files ∅) as [e|t0]; [done|].
  cbn [foldr]. by rewrite overrides_withSentinels.
Qed.

Lemma parseSchemaFiles_filter files tables :
  parseSchemaFiles files tables = parseSchemaFiles (filter isStructureFile files) tables.
Proof.
  revert tables. induction files as [|f fs IH]; intros tables; [done|].
  rewrite filter_cons. cbn [parseSchemaFiles]. destruct (decide (isStructureFile f)) as [Hf|Hf].
  - cbn [parseSchemaFiles]. destruct (parseSchemaFile f tables); [done | apply IH].
  - unfold parseSchemaFile. unfold isStructureFile in Hf.
    apply not_true_is_false in Hf. rewrite Hf. cbn. apply IH.
Qed.

(** X4. [parseSchemas] looks only at the entries whose name ends in
    _CSV_DATA_STRUCTURE.csv: the other entries of the archive, whatever
    they hold, do not change its result. *)
Theorem parseSchemas_structure_files_only sentinelNulls files :
  parseSchemas sentinelNulls files
  = parseSchemas sentinelNulls (filter isStructureFile files).
Proof. unfold parseSchemas. by rewrite <- parseSchemaFiles_filter. Qed.

(** ** The shape of a CREATE TABLE statement *)

Ltac string_assoc :=
  apply s2l_inj; repeat rewrite s2l_app; repeat rewrite <- app_assoc; reflexivity.

Lemma append_assoc (a b c : string) : (a +:+ b) +:+ c = a +:+ b +:+ c.
Proof. string_assoc. Qed.

Lemma append_nil_r (a : string) : a +:+ "" = a.
Proof. apply s2l_inj. by rewrite s2l_app, app_nil_r. Qed.

Lemma columnLine_item ncols nfks i col :
  columnLine ncols nfks i col
  = columnItem col
    +:+ (if bool_decide (Z.of_nat i < Z.of_nat ncols - 1)%Z || bool_decide (0 < nfks)
         then itemSep else NL).
Proof.
  unfold columnLine, columnItem, itemSep.
  destruct (_ || _); string_assoc.
Qed.

Lemma foreignKeyLine_item nfks i fk :
  foreignKeyLine nfks i fk
  = foreignKeyItem fk
    +:+ (if bool_decide (Z.of_nat i < Z.of_nat nfks - 1)%Z then itemSep else NL).
Proof.
  unfold foreignKeyLine, foreignKeyItem, itemSep.
  destruct (bool_decide _); string_assoc.
Qed.

(** Lines whose comma is decided by position: all but the last carry
    one, and the last carries one when [more] follows. *)
Lemma lines_by_position {A} (item : A → string) (more : bool) (n : nat)
    (f : nat → A → string) (l : list A) (k : nat) :
  (∀ i x, f i x = item x +:+ (if bool_decide (Z.of_nat i < Z.of_nat n - 1)%Z || more
                              then itemSep else NL)) →
  k + length l = n →
  concatStrings (imap (λ i, f (k + i)) l)
  = if more then concatStrings ((λ x, item x +:+ itemSep) <$> l)
    else match l with
         | [] => ""
         | _ => GoStrings.Join (item <$> l) itemSep +:+ NL
         end.
Proof.
  intros Hf. revert k. induction l as [|x l IH]; intros k Hk.
  { by destruct more. }
  cbn [imap concatStrings foldr fmap list_fmap]. cbn [length] in Hk.
  assert (concatStrings (imap ((λ i, f (k + i)) ∘ S) l)
          = concatStrings (imap (λ i, f (S k + i)) l)) as Hshift.
  { f_equal. apply imap_ext. intros i y _. cbn. f_equal. lia. }
  fold (concatStrings (imap ((λ i, f (k + i)) ∘ S) l)).
  rewrite Hshift, (IH (S k)) by lia. rewrite Hf, Nat.add_0_r.
  destruct more.
  - by rewrite orb_true_r.
  - rewrite orb_false_r. destruct l as [|y l].
    + rewrite bool_decide_eq_false_2 by (cbn in Hk; lia). cbn. by rewrite append_nil_r.
    + rewrite bool_decide_eq_true_2 by (cbn in Hk; lia).
      cbn [fmap list_fmap]. rewrite Join_cons. string_assoc.
Qed.

Lemma Join_after_lines (xs ys : list string) :
  ys ≠ [] →
  concatStrings ((λ x, x +:+ itemSep) <$> xs) +:+ GoStrings.Join ys itemSep
  = GoStrings.Join (xs ++ ys) itemSep.
Proof.
  intros Hys. induction xs as [|x xs IH]; [done|].
  cbn [fmap list_fmap concatStrings foldr app].
  fold (concatStrings ((λ x, x +:+ itemSep) <$> xs)).
  destruct (xs ++ ys) as [|z zs] eqn:Hz.
  { by destruct xs, ys. }
  rewrite Join_cons, <- IH. string_assoc.
Qed.

(** X9. A CREATE TABLE statement of [generateDDL] is its items, the
    column definitions and then the foreign key clauses, each on its own
    line, with a comma after every item but the last. *)
Theorem createTableStmt_items (ts : tableSchema) (fks : list foreignKey) :
  columns ts ≠ [] ∨ fks ≠ [] →
  createTableStmt ts fks
  = "CREATE TABLE " +:+ GoFmt.Quote (tname ts) +:+ " (" +:+ NL
    +:+ GoStrings.Join ((columnItem <$> columns ts) ++ (foreignKeyItem <$> fks))
                       ("," +:+ NL)
    +:+ NL +:+ ");".
Proof.
  intros Hne. unfold createTableStmt. fold itemSep.
  rewrite <- (imap_ext (λ i, columnLine (length (columns ts)) (length fks) (0 + i))
                       (columnLine (length (columns ts)) (length fks)) (columns ts))
    by done.
  rewrite <- (imap_ext (λ i, foreignKeyLine (length fks) (0 + i))
                       (foreignKeyLine (length fks)) fks) by done.
  rewrite (lines_by_position columnItem (bool_decide (0 < length fks))
             (length (columns ts)))
    by (done || apply columnLine_item).
  rewrite (lines_by_position foreignKeyItem false (length fks)).
  2:{ intros i x. rewrite orb_false_r. apply foreignKeyLine_item. }
  2:{ done. }
  destruct fks as [|fk fks].
  - rewrite bool_decide_eq_false_2 by (cbn; lia). cbn [fmap list_fmap]. rewrite app_nil_r.
    destruct (columns ts) as [|c cs] eqn:Hc; [by destruct Hne|].
    do 4 f_equal. cbn. string_assoc.
  - rewrite bool_decide_eq_true_2 by (cbn; lia).
    do 4 f_equal. rewrite <- (Join_after_lines _ (foreignKeyItem <$> fk :: fks)) by done.
    rewrite <- list_fmap_compose.
    replace ((λ x, x +:+ itemSep) ∘ columnItem) with (λ x, columnItem x +:+ itemSep) by done.
    string_assoc.
Qed.

(** ** The inner archive and the names of the data files *)

Lemma hasPrefix_app p l : GoStrings.hasPrefix (p ++ l) p = true.
Proof.
  induction p as [|c p IH]; [by destruct l|]. cbn.
  by rewrite (proj2 (ceqb_true c c) eq_refl), IH.
Qed.

Lemma hasPrefix_spec l p : GoStrings.hasPrefix l p = true ↔ ∃ r, l = p ++ r.
Proof.
  split.
  - revert l. induction p as [|c p IH]; intros l H; [by exists l|].
    destruct l as [|d l]; [done|]. cbn in H. apply andb_true_iff in H as [Hc Hp].
    apply ceqb_true in Hc as ->. destruct (IH _ Hp) as [r ->]. by exists r.
  - intros [r ->]. apply hasPrefix_app.
Qed.

Lemma HasPrefix_spec s p : GoStrings.HasPrefix s p = true ↔ ∃ r, s2l s = s2l p ++ r.
Proof. apply hasPrefix_spec. Qed.

Lemma HasSuffix_spec s p : GoStrings.HasSuffix s p = true ↔ ∃ r, s2l s = r ++ s2l p.
Proof.
  unfold GoStrings.HasSuffix. rewrite hasPrefix_spec. split.
  - intros [r Hr]. exists (rev r). apply (f_equal (@rev _)) in Hr.
    by rewrite rev_involutive, rev_app_distr, rev_involutive in Hr.
  - intros [r ->]. exists (rev r). by rewrite rev_app_distr.
Qed.

Lemma TrimSuffix_app x s : GoStrings.TrimSuffix (x +:+ s) s = x.
Proof.
  unfold GoStrings.TrimSuffix.
  rewrite (proj2 (HasSuffix_spec (x +:+ s) s)) by (exists (s2l x); apply s2l_app).
  rewrite s2l_app, length_app, Nat.add_sub, take_app_length. apply l2s_s2l.
Qed.

Lemma Contains_spec s c : GoStrings.Contains s c = true ↔ c ∈ s2l s.
Proof.
  unfold GoStrings.Contains. rewrite existsb_exists. split.
  - intros (x & Hin & Hx). apply ceqb_true in Hx as ->. by apply list_elem_of_In.
  - intros H. exists c. split; [by apply list_elem_of_In | by apply ceqb_true].
Qed.

Lemma isInnerCSVZip_spec name : isInnerCSVZip name = true ↔ fullArchiveName name.
Proof.
  unfold isInnerCSVZip, fullArchiveName.
  destruct (GoStrings.HasPrefix name "CSV_Data/") eqn:Hp; cbn [negb orb];
    [|split; [done | by intros (? & _)]].
  destruct (GoStrings.HasSuffix name "_CSV.zip") eqn:Hs; cbn [negb orb];
    [|split; [done | by intros (_ & ? & _)]].
  rewrite negb_true_iff, <- not_true_iff_false, Contains_spec.
  apply HasPrefix_spec in Hp as [x Hx].
  assert (GoStrings.TrimPrefix name "CSV_Data/" = l2s x) as ->.
  { unfold GoStrings.TrimPrefix.
    rewrite (proj2 (HasPrefix_spec name "CSV_Data/")) by by exists x.
    by rewrite Hx, drop_app_length. }
  assert (HYPHEN ∈ s2l name ↔ HYPHEN ∈ x) as ->.
  { rewrite Hx, elem_of_app. split; [intros [H|H]; [|done] | by right].
    exfalso. revert H. apply (bool_decide_unpack _). by vm_compute. }
  unfold GoStrings.TrimSuffix. destruct (GoStrings.HasSuffix (l2s x) "_CSV.zip") eqn:Hx2.
  - apply HasSuffix_spec in Hx2 as [y Hy]. rewrite s2l_l2s in Hy. rewrite !s2l_l2s.
    rewrite Hy, length_app, Nat.add_sub, take_app_length, elem_of_app.
    split; [intros H; split_and!; [done|done|] | intros (_ & _ & H) ?; apply H; by left].
    intros [?|Hin]; [done|]. revert Hin. apply (bool_decide_unpack _). by vm_compute.
  - rewrite s2l_l2s. split; [done | by intros (_ & _ & ?)].
Qed.

Lemma innerFile_spec files f :
  innerFile files = Some f
  ↔ ∃ before after, files = before ++ f :: after
                    ∧ fullArchiveName (Name f)
                    ∧ Forall (λ g, ¬ fullArchiveName (Name g)) before.
Proof.
  induction files as [|g fs IH]; cbn.
  - split; [done|]. intros (b & a & H & _). by destruct b.
  - destruct (isInnerCSVZip (Name g)) eqn:Hg.
    + apply isInnerCSVZip_spec in Hg. split.
      * intros [= <-]. exists [], fs. split_and!; [done|done|constructor].
      * intros ([|b bs] & a & H & Hf & Hb).
        -- by injection H as <- _.
        -- injection H as <- _. by apply Forall_cons in Hb as [? _].
    + assert (¬ fullArchiveName (Name g)) as Hng.
      { rewrite <- isInnerCSVZip_spec. by rewrite Hg. }
      rewrite IH. split.
      * intros (b & a & -> & Hf & Hb). exists (g :: b), a. split_and!; [done|done|by constructor].
      * intros ([|b bs] & a & H & Hf & Hb).
        -- injection H as -> _. done.
        -- injection H as <- ->. apply Forall_cons in Hb as [_ Hb]. by exists bs, a.
Qed.

(** X12. [openInnerCSVZip] takes the first entry of the outer archive, in
    archive order, whose name starts with CSV_Data/, ends in _CSV.zip and
    holds no hyphen anywhere; it finds none exactly when no entry is of
    that kind. *)
Theorem innerFile_first_full_archive (files : list zipFile) :
  (∀ f, innerFile files = Some f
        ↔ ∃ before after, files = before ++ f :: after
                          ∧ fullArchiveName (Name f)
                          ∧ Forall (λ g, ¬ fullArchiveName (Name g)) before)
  ∧ (innerFile files = None ↔ Forall (λ g, ¬ fullArchiveName (Name g)) files).
Proof.
  split; [apply innerFile_spec|].
  induction files as [|g fs IH]; cbn; [split; [constructor|done]|].
  destruct (isInnerCSVZip (Name g)) eqn:Hg.
  - apply isInnerCSVZip_spec in Hg. split; [done|]. by intros [? _]%Forall_cons.
  - rewrite IH. assert (¬ fullArchiveName (Name g)) as Hng.
    { rewrite <- isInnerCSVZip_spec. by rewrite Hg. }
    split; [by constructor | by intros [_ ?]%Forall_cons].
Qed.

Lemma lastIndex_none sep l : sep ∉ l → GoStrings.lastIndex sep l = None.
Proof.
  induction l as [|c l IH]; [done|]. intros [Hc Hl]%not_elem_of_cons. cbn.
  rewrite IH by done. by rewrite (proj2 (ceqb_false c sep)).
Qed.

Lemma lastIndex_app sep a b :
  sep ∉ b → GoStrings.lastIndex sep (a ++ sep :: b) = Some (length a).
Proof.
  intros Hb. induction a as [|c a IH]; cbn.
  - rewrite lastIndex_none by done. by rewrite (proj2 (ceqb_true sep sep) eq_refl).
  - by rewrite IH.
Qed.

(** X13. The table of a data file is its base name without the extension:
    the directories of the entry name do not count. *)
Theorem dataTableName_base (dir t : string) :
  SLASH ∉ s2l t →
  dataTableName (dir +:+ "/" +:+ t +:+ ".csv") = t ∧ dataTableName (t +:+ ".csv") = t.
Proof.
  intros Ht.
  assert (SLASH ∉ s2l (t +:+ ".csv")) as Hn.
  { rewrite s2l_app, elem_of_app. intros [?|Hin]; [done|].
    revert Hin. apply (bool_decide_unpack _). by vm_compute. }
  unfold dataTableName. split.
  - replace (s2l (dir +:+ "/" +:+ t +:+ ".csv"))
      with (s2l dir ++ SLASH :: s2l (t +:+ ".csv")) by by rewrite !s2l_app.
    rewrite lastIndex_app by done.
    replace (drop (S (length (s2l dir))) (s2l dir ++ SLASH :: s2l (t +:+ ".csv")))
      with (s2l (t +:+ ".csv")).
    + rewrite l2s_s2l. apply TrimSuffix_app.
    + rewrite (cons_middle SLASH), app_assoc.
      rewrite drop_app_length'; [done | rewrite length_app; cbn; lia].
  - rewrite lastIndex_none by done. apply TrimSuffix_app.
Qed.

Lemma dataTableName_base_witness :
  dataTableName ("CSV_Data" +:+ "/" +:+ "APT_BASE" +:+ ".csv") = "APT_BASE"
  ∧ dataTableName ("APT_BASE" +:+ ".csv") = "APT_BASE".
Proof. apply dataTableName_base. apply (bool_decide_unpack _). by vm_compute. Defined.

(** ** Streams without a record *)

Lemma onlyLineEnds_cases l :
  onlyLineEnds l = true →
  l = [] ∨ l = [CR] ∨ (∃ r, l = LF :: r ∧ onlyLineEnds r = true)
  ∨ (∃ r, l = CR :: LF :: r ∧ onlyLineEnds r = true).
Proof.
  destruct l as [|c r]; [by left|]. cbn [onlyLineEnds].
  destruct (ceqb c LF) eqn:H1.
  { apply ceqb_true in H1 as ->. intros H. right; right; left. by exists r. }
  destruct (ceqb c CR) eqn:H2; [|done]. apply ceqb_true in H2 as ->.
  destruct r as [|d r]; [by right; left|].
  intros [Hd Hr]%andb_true_iff. apply ceqb_true in Hd as ->.
  right; right; right. by exists r.
Qed.

Lemma nextLine_onlyLineEnds n l :
  onlyLineEnds l = true → length l ≤ n → GoCsv.nextLine n l = None.
Proof.
  revert l. induction n as [|n IH]; intros l Hl Hn.
  - destruct l; [done | cbn in Hn; lia].
  - destruct (onlyLineEnds_cases l Hl) as [->|[->|[(r & -> & Hr)|(r & -> & Hr)]]].
    + reflexivity.
    + change (GoCsv.nextLine (S n) [CR]) with (GoCsv.nextLine n []). by destruct n.
    + change (GoCsv.nextLine (S n) (LF :: r)) with (GoCsv.nextLine n r).
      apply IH; [done | cbn in Hn; lia].
    + change (GoCsv.nextLine (S n) (CR :: LF :: r)) with (GoCsv.nextLine n r).
      apply IH; [done | cbn in Hn; lia].
Qed.

Lemma Read_onlyLineEnds r :
  onlyLineEnds (GoCsv.input r) = true →
  GoCsv.Read r = (inl GoCsv.EOF, GoCsv.mkReader [] (GoCsv.FieldsPerRecord r)).
Proof.
  intros H. unfold GoCsv.Read. by rewrite nextLine_onlyLineEnds.
Qed.

Lemma stripBOM_onlyLineEnds l : onlyLineEnds l = true → stripBOM l = l.
Proof.
  intros H. destruct l as [|a [|b [|c r]]]; try done.
  unfold stripBOM.
  destruct (onlyLineEnds_cases _ H) as [?|[?|[(? & [= -> _] & _)|(? & [= -> _] & _)]]]; done.
Qed.

Lemma normalizeCR_onlyLineEnds l :
  Forall (λ c, c = CR ∨ c = LF) l → onlyLineEnds (normalizeCR l) = true.
Proof.
  assert (∀ n l, length l ≤ n → Forall (λ c, c = CR ∨ c = LF) l →
                 onlyLineEnds (normalizeCR l) = true) as H; [|by apply (H (length l))].
  clear l. induction n as [|n IH]; intros l Hn Hl.
  { destruct l; [done | cbn in Hn; lia]. }
  destruct l as [|c r]; [done|]. apply Forall_cons in Hl as [[->| ->] Hr]; cbn in Hn.
  - destruct r as [|d r]; [done|]. apply Forall_cons in Hr as [[->| ->] Hr']; cbn in Hn.
    + change (normalizeCR (CR :: CR :: r)) with (LF :: normalizeCR (CR :: r)).
      change (onlyLineEnds (LF :: ?x)) with (onlyLineEnds x).
      apply IH; [cbn; lia | by constructor; [left|]].
    + change (normalizeCR (CR :: LF :: r)) with (CR :: LF :: normalizeCR r).
      change (onlyLineEnds (CR :: LF :: ?x)) with (onlyLineEnds x).
      apply IH; [lia | done].
  - change (normalizeCR (LF :: r)) with (LF :: normalizeCR r).
    change (onlyLineEnds (LF :: ?x)) with (onlyLineEnds x).
    apply IH; [lia | done].
Qed.

(** X8. A structure file without a record (nothing but line ends, or
    nothing at all) makes [parseSchemas] fail on its header with io.EOF,
    whatever the other entries hold. *)
Theorem parseSchemas_blank_file sentinelNulls (f : zipFile) (rest : list zipFile) :
  GoStrings.HasSuffix (Name f) "_CSV_DATA_STRUCTURE.csv" = true →
  Forall (λ c, c = CR ∨ c = LF) (s2l (content f)) →
  parseSchemas sentinelNulls (f :: rest) = inl (ReadHeaderError (Name f) GoCsv.EOF).
Proof.
  intros Hf Hc. unfold parseSchemas. cbn [parseSchemaFiles].
  unfold parseSchemaFile. rewrite Hf. cbn [negb].
  rewrite Read_onlyLineEnds; [done|]. by apply normalizeCR_onlyLineEnds.
Qed.

Section LoadingFacts.

Context {float64 : Type} `{!EqDecision float64}.
Variable ParseFloat : string → option float64.
Implicit Types (db : database (float64 := float64)) (tb : table (float64 := float64)).
Implicit Types (rs : list (row (float64 := float64))) (r : row (float64 := float64)).

(** X15. A data file without a line is an error of [loadCSV], not an empty
    table: reading the header returns io.EOF. *)
Theorem loadCSV_blank_stream (r : bytes) ts db :
  prepareInsert ts db = true → onlyLineEnds r = true →
  loadCSV ParseFloat r ts db = inl (LoadReadError GoCsv.EOF).
Proof.
  intros Hp Hr. unfold loadCSV. rewrite Hp. cbn [negb].
  rewrite stripBOM_onlyLineEnds by done.
  by rewrite Read_onlyLineEnds.
Qed.

Lemma stripBOM_BOM (r : bytes) : stripBOM (BOM ++ r) = r.
Proof. reflexivity. Qed.

Lemma stripBOM_other (r : bytes) : take 3 r ≠ BOM → stripBOM r = r.
Proof.
  intros H. destruct r as [|a [|b [|c r]]]; try done. unfold stripBOM.
  destruct (ceqb a (chr 239)) eqn:Ha; [|done].
  destruct (ceqb b (chr 187)) eqn:Hb; [|done].
  destruct (ceqb c (chr 191)) eqn:Hc; [|done].
  apply ceqb_true in Ha as ->, Hb as ->, Hc as ->. done.
Qed.

(** X14. [loadCSV] strips one leading byte-order mark: a stream and the same
    stream behind a mark load alike. *)
Theorem loadCSV_strips_BOM (r : bytes) ts db :
  take 3 r ≠ BOM →
  loadCSV ParseFloat (BOM ++ r) ts db = loadCSV ParseFloat r ts db.
Proof.
  intros H. unfold loadCSV. by rewrite stripBOM_BOM, stripBOM_other.
Qed.

Lemma sqlIdent_insertTarget ts n :
  sqlIdent (insertTarget ts) = Some n → n = tname ts.
Proof.
  unfold sqlIdent, insertTarget, quotedIdent.
  rewrite s2l_String, s2l_app. change (ceqb DQ DQ) with true. cbv iota.
  destruct (GoRegexp.spanNot DQ (s2l (tname ts) ++ s2l (String DQ ""))) as [nm b] eqn:Hs.
  apply spanNot_spec in Hs as (Heq & Hn & Hb).
  destruct b as [|d [|e b]]; try done. intros [= <-].
  destruct Hb as [?|[r' [= -> <-]]]; [done|].
  change (s2l (String DQ "")) with [DQ] in Heq.
  apply app_inj_tail in Heq as [<- _]. by rewrite l2s_s2l.
Qed.

Lemma nextRowid_above rs r : r ∈ rs → (rowid r < nextRowid rs)%Z.
Proof.
  induction rs as [|r0 rs IH]; [by intros ?%elem_of_nil|].
  change (nextRowid (r0 :: rs)) with (Z.max (rowid r0 + 1) (nextRowid rs)).
  intros [->|Hin]%elem_of_cons; [lia|]. specialize (IH Hin). lia.
Qed.

Lemma execInsert_spec q vals db db' :
  execInsert q vals db = Some db' →
  ∃ t tb, sqlIdent q = Some t ∧ tables db !! t = Some tb
          ∧ db' = withRows db t tb (rows tb ++ [mkRow (nextRowid (rows tb)) vals]).
Proof.
  unfold execInsert. destruct (sqlIdent q) as [t|]; [|done]. cbn [mbind option_bind].
  destruct (tables db !! t) as [tb|] eqn:Htb; [|done]. cbn [mbind option_bind].
  destruct (_ && _); [|done]. intros [= <-]. by exists t, tb.
Qed.

Lemma loadRows_spec fuel cr ts db db' tb :
  tables db !! tname ts = Some tb →
  loadRows ParseFloat fuel cr ts db = inr db' →
  ∃ new, db' = withRows db (tname ts) tb (rows tb ++ new)
         ∧ Forall (λ r, length (cells r) = length (columns ts)) new
         ∧ Forall (λ r, Forall (λ r0, rowid r0 < rowid r)%Z (rows tb)) new
         ∧ StronglySorted Z.lt (rowid <$> new).
Proof.
  revert cr db tb. induction fuel as [|fuel IH]; intros cr db tb Htb H; cbn [loadRows] in H.
  { injection H as <-. exists []. rewrite app_nil_r, withRows_id by done.
    split_and!; [done|constructor|constructor|constructor]. }
  destruct (GoCsv.Read cr) as [[e|fields] cr'].
  { destruct e; try done. injection H as <-. exists [].
    rewrite app_nil_r, withRows_id by done.
    split_and!; [done|constructor|constructor|constructor]. }
  destruct (execInsert _ _ db) as [db1|] eqn:Hins; [|done].
  apply execInsert_spec in Hins as (t & tb0 & Ht & Htb0 & ->).
  apply sqlIdent_insertTarget in Ht as ->. rewrite Htb in Htb0. injection Htb0 as <-.
  set (r1 := mkRow (nextRowid (rows tb)) (rowValues ParseFloat ts fields)) in *.
  destruct (IH cr' _ (setRows tb (rows tb ++ [r1])) (withRows_lookup _ _ _ _) H)
    as (new & -> & Hlen & Habove & Hsorted).
  exists (r1 :: new). cbn [rows setRows] in *. split_and!.
  - rewrite withRows_withRows. by rewrite <- app_assoc.
  - constructor; [apply rowValues_length | done].
  - constructor.
    + apply Forall_forall. intros r0 Hr0. by apply nextRowid_above.
    + eapply Forall_impl; [exact Habove|]. intros r Hr. cbn in Hr.
      by apply Forall_app in Hr as [? _].
  - cbn. constructor; [done|]. apply Forall_fmap. eapply Forall_impl; [exact Habove|].
    intros r Hr. cbn in Hr. apply Forall_app in Hr as [_ Hr].
    exact (proj1 (Forall_singleton _ _) Hr).
Qed.

Lemma prepareInsert_true ts db :
  prepareInsert ts db = true → is_Some (tables db !! tname ts).
Proof.
  unfold prepareInsert. destruct (sqlIdent (insertTarget ts)) as [n|] eqn:Hn; [|done].
  apply sqlIdent_insertTarget in Hn as ->. cbn. by destruct (tables db !! tname ts).
Qed.

Lemma loadCSV_spec (r : bytes) ts db db' :
  loadCSV ParseFloat r ts db = inr db' →
  ∃ tb new, tables db !! tname ts = Some tb
         ∧ db' = withRows db (tname ts) tb (rows tb ++ new)
         ∧ Forall (λ r, length (cells r) = length (columns ts)) new
         ∧ Forall (λ r, Forall (λ r0, rowid r0 < rowid r)%Z (rows tb)) new
         ∧ StronglySorted Z.lt (rowid <$> new).
Proof.
  unfold loadCSV. destruct (prepareInsert ts db) eqn:Hp; [|done]. cbn [negb].
  apply prepareInsert_true in Hp as [tb Htb].
  destruct (GoCsv.Read _) as [[e|hd] cr']; [done|]. intros H.
  destruct (loadRows_spec _ _ _ _ _ _ Htb H) as (new & ?). by exists tb, new.
Qed.

(** X16. A successful [loadCSV] adds rows at the end of the table of its
    schema and changes nothing else: the other tables, the rows the table
    had, its schema and the indexes stay; every new row has one value per
    column of the schema. *)
Theorem loadCSV_appends (r : bytes) ts db db' :
  loadCSV ParseFloat r ts db = inr db' →
  ∃ new, appended db db' (tname ts) new
         ∧ Forall (λ r, length (cells r) = length (columns ts)) new.
Proof.
  intros H. destruct (loadCSV_spec _ _ _ _ H) as (tb & new & Htb & -> & Hlen & _).
  exists new. split; [by exists tb | done].
Qed.

(** X17. The rows a successful [loadCSV] adds get rowids in increasing order
    above every rowid the table had, so rowids that were distinct stay
    distinct. *)
Theorem loadCSV_fresh_rowids (r : bytes) ts db db' tb tb' :
  loadCSV ParseFloat r ts db = inr db' →
  tables db !! tname ts = Some tb → tables db' !! tname ts = Some tb' →
  ∃ new, rows tb' = rows tb ++ new
         ∧ StronglySorted Z.lt (rowid <$> new)
         ∧ Forall (λ r, Forall (λ r0, rowid r0 < rowid r)%Z (rows tb)) new
         ∧ (NoDup (rowid <$> rows tb) → NoDup (rowid <$> rows tb')).
Proof.
  intros H Htb Htb'.
  destruct (loadCSV_spec _ _ _ _ H) as (tb0 & new & Htb0 & -> & _ & Habove & Hsorted).
  rewrite Htb in Htb0. injection Htb0 as <-.
  rewrite withRows_lookup in Htb'. injection Htb' as <-. cbn [rows setRows].
  exists new. split_and!; [done..|].
  intros Hnd. rewrite fmap_app. apply NoDup_app. split_and!; [done| |].
  - intros x (r0 & -> & Hr0)%list_elem_of_fmap (r1 & Heq & Hr1)%list_elem_of_fmap.
    rewrite Forall_forall in Habove. specialize (Habove r1 Hr1).
    rewrite Forall_forall in Habove. specialize (Habove r0 Hr0). lia.
  - clear -Hsorted. induction Hsorted as [|x l Hs IH Hx]; constructor; [|done].
    intros Hin. rewrite Forall_forall in Hx. specialize (Hx x Hin). lia.
Qed.

End LoadingFacts.

(** ** Loading every table *)

Section LoadAllFacts.

Context {float64 : Type} `{!EqDecision float64}.
Variable ParseFloat : string → option float64.
Implicit Types (db : database (float64 := float64)) (tb : table (float64 := float64)).

Lemma extends_refl db : extends db db.
Proof.
  split; [done|]. intros n. destruct (tables db !! n); constructor. done.
Qed.

Lemma extends_trans db1 db2 db3 : extends db1 db2 → extends db2 db3 → extends db1 db3.
Proof.
  intros [Hi1 H1] [Hi2 H2]. split; [congruence|]. intros n.
  specialize (H1 n). specialize (H2 n).
  destruct H1 as [tb1 tb2 (Hs1 & Hc1 & Hr1)|]; inversion H2 as [? tb3 (Hs2 & Hc2 & Hr2)|];
    simplify_eq; constructor.
  split_and!; [congruence | congruence | by etrans].
Qed.

Lemma withRows_extends db t tb new :
  tables db !! t = Some tb → extends db (withRows db t tb (rows tb ++ new)).
Proof.
  intros Htb. split; [done|]. intros n. unfold withRows. cbn [tables].
  destruct (decide (t = n)) as [<-|Hne].
  - rewrite lookup_insert_eq, Htb. constructor. cbn. split_and!; [done|done|].
    by apply prefix_app_r.
  - rewrite lookup_insert_ne by done. destruct (tables db !! n); constructor. done.
Qed.

Lemma loadCSV_extends (r : bytes) ts db db' :
  loadCSV ParseFloat r ts db = inr db' → extends db db'.
Proof.
  intros H. destruct (loadCSV_spec _ _ _ _ _ H) as (tb & new & Htb & -> & _).
  by apply withRows_extends.
Qed.

(** X19. A successful [loadAllCSVs] only adds rows: every table keeps its
    schema, its constraints and the rows it had, in their order and at the
    head of the table; no table appears or goes, and no index changes. *)
Theorem loadAllCSVs_extends files tables db db' :
  loadAllCSVs ParseFloat files tables db = inr db' → extends db db'.
Proof.
  revert db. induction files as [|f fs IH]; intros db H; cbn [loadAllCSVs] in H.
  { injection H as <-. apply extends_refl. }
  destruct (negb _); [by apply IH|].
  destruct (GoStrings.HasSuffix (Name f) "_CSV_DATA_STRUCTURE.csv"); [by apply IH|].
  destruct (tables !! dataTableName (Name f)) as [ts|]; [|by apply IH].
  destruct (loadCSV _ _ _ _) as [e|db1] eqn:Hload; [done|].
  eapply extends_trans; [by eapply loadCSV_extends | by apply IH].
Qed.

(** X18. [loadAllCSVs] passes over the entries that are not .csv files, the
    structure files, and the files whose table has no schema: they do not
    change its result, whatever they hold. *)
Theorem loadAllCSVs_loaded_entries_only files tables db :
  loadAllCSVs ParseFloat files tables db
  = loadAllCSVs ParseFloat (filter (loadedEntry tables) files) tables db.
Proof.
  revert db. induction files as [|f fs IH]; intros db; [done|].
  rewrite filter_cons. destruct (decide (loadedEntry tables f)) as [(H1 & H2 & [ts H3])|Hn].
  - cbn [loadAllCSVs]. rewrite H1, H2, H3. cbn [negb].
    destruct (loadCSV _ _ _ _); [done | apply IH].
  - cbn [loadAllCSVs]. rewrite <- IH.
    destruct (GoStrings.HasSuffix (Name f) ".csv") eqn:H1; cbn [negb]; [|done].
    destruct (GoStrings.HasSuffix (Name f) "_CSV_DATA_STRUCTURE.csv") eqn:H2; [done|].
    destruct (tables !! dataTableName (Name f)) as [ts|] eqn:H3; [|done].
    exfalso. apply Hn. unfold loadedEntry. by rewrite H3.
Qed.

(** X20. With schemas filed under their names, [loadAllCSVs] leaves a table
    as it was when no loaded entry has its name as base name. *)
Theorem loadAllCSVs_untouched files (schemas : gmap string tableSchema) db db' n :
  keyedByName schemas →
  loadAllCSVs ParseFloat files schemas db = inr db' →
  Forall (λ f, loadedEntry schemas f → dataTableName (Name f) ≠ n) files →
  tables db' !! n = tables db !! n.
Proof.
  intros Hk. revert db. induction files as [|f fs IH]; intros db H Hf; cbn [loadAllCSVs] in H.
  { by injection H as <-. }
  apply Forall_cons in Hf as [Hf Hfs].
  destruct (GoStrings.HasSuffix (Name f) ".csv") eqn:H1; cbn [negb] in H; [|by apply IH].
  destruct (GoStrings.HasSuffix (Name f) "_CSV_DATA_STRUCTURE.csv") eqn:H2; [by apply IH|].
  destruct (schemas !! dataTableName (Name f)) as [ts|] eqn:H3; [|by apply IH].
  destruct (loadCSV _ _ _ _) as [e|db1] eqn:Hload; [done|].
  rewrite (IH _ H Hfs).
  destruct (loadCSV_spec _ _ _ _ _ Hload) as (tb & new & Htb & -> & _).
  unfold withRows. cbn [tables]. apply lookup_insert_ne.
  rewrite (Hk _ _ H3). apply Hf. unfold loadedEntry. by rewrite H3.
Qed.

End LoadAllFacts.

(** ** What the repairs keep *)

Section RepairMonotone.

Context {float64 : Type} `{!EqDecision float64}.
Implicit Types (db : database (float64 := float64)) (tb : table (float64 := float64)).
Implicit Types (st : state (float64 := float64)) (o : outcome (float64 := float64)).

Lemma shrinks_refl db : shrinks db db.
Proof.
  split; [done|]. intros n. destruct (tables db !! n); constructor. done.
Qed.

Lemma shrinks_trans db1 db2 db3 : shrinks db1 db2 → shrinks db2 db3 → shrinks db1 db3.
Proof.
  intros [Hi1 H1] [Hi2 H2]. split; [by etrans|]. intros n.
  specialize (H1 n). specialize (H2 n).
  destruct H1 as [tb1 tb2 (Hs1 & Hc1 & Hr1)|]; inversion H2 as [? tb3 (Hs2 & Hc2 & Hr2)|];
    simplify_eq; constructor.
  split_and!; [congruence | congruence | by etrans].
Qed.

Lemma steady_refl e st : steady st (e, st).
Proof. split; [apply shrinks_refl | done]. Qed.

Lemma steady_trans st e1 st1 o :
  steady st (e1, st1) → steady st1 o → steady st o.
Proof.
  intros [H1 L1] [H2 L2]. split; [by eapply shrinks_trans | by etrans].
Qed.

Lemma steady_error st e e' st1 : steady st (e, st1) → steady st (e', st1).
Proof. done. Qed.

Lemma execDelete_shrinks q rid db db' : execDelete q rid db = Some db' → shrinks db db'.
Proof.
  unfold execDelete. destruct (sqlIdent q) as [t|]; [|done]. cbn [mbind option_bind].
  destruct (tables db !! t) as [tb|] eqn:Htb; [|done]. intros [= <-].
  split; [done|]. intros n. cbn [tables]. destruct (decide (t = n)) as [<-|Hne].
  - rewrite lookup_insert_eq, Htb. constructor. split_and!; [done|done|].
    apply sublist_filter.
  - rewrite lookup_insert_ne by done. destruct (tables db !! n); constructor. done.
Qed.

Lemma execCreateIndex_spec stmt db db' :
  execCreateIndex stmt db = Some db' →
  ∃ ix tb idx, readIndexStmt stmt = Some ix
               ∧ db' = mkDatabase (tables db) (indexes db ++ [ix])
               ∧ tables db !! ixTable ix = Some tb
               ∧ keyIdx (schema tb) (ixColumns ix) = Some idx
               ∧ uniqueOn idx (rows tb).
Proof.
  unfold execCreateIndex. destruct (readIndexStmt stmt) as [ix|]; [|done].
  cbn [mbind option_bind]. case_bool_decide; [done|].
  destruct (tables db !! ixTable ix) as [tb|] eqn:Htb; [|done]. cbn [mbind option_bind].
  destruct (keyIdx (schema tb) (ixColumns ix)) as [idx|] eqn:Hidx; [|done].
  cbn [mbind option_bind]. case_bool_decide; [|done]. intros [= <-].
  by exists ix, tb, idx.
Qed.

Lemma execCreateIndex_shrinks stmt db db' :
  execCreateIndex stmt db = Some db' → shrinks db db'.
Proof.
  intros (ix & tb & idx & _ & -> & _)%execCreateIndex_spec.
  split; [by apply prefix_app_r|]. intros n. cbn. destruct (tables db !! n); constructor. done.
Qed.

Lemma deleteDuplicates_steady t cols vals kept rids st :
  steady st (deleteDuplicates t cols vals kept rids st).
Proof.
  revert st. induction rids as [|rid rids IH]; intros st; cbn [deleteDuplicates].
  { apply steady_refl. }
  destruct (execDelete _ _ _) as [db'|] eqn:Hdel.
  - eapply (steady_trans _ None); [|apply IH]. split; cbn.
    + by eapply execDelete_shrinks.
    + by apply prefix_app_r.
  - split; cbn; [apply shrinks_refl | by apply prefix_app_r].
Qed.

Lemma dedupGroups_steady t cols groups st : steady st (dedupGroups t cols groups st).
Proof.
  revert st. induction groups as [|vals groups IH]; intros st; cbn [dedupGroups].
  { apply steady_refl. }
  destruct (queryRowids _ _ _ _) as [rowids|]; [|apply steady_refl].
  destruct rowids as [|kept [|o others]]; [apply IH | apply IH |].
  pose proof (deleteDuplicates_steady t cols vals kept (o :: others) st) as Hd.
  destruct (deleteDuplicates _ _ _ _ _ _) as [[e|] st']; [done|].
  eapply steady_trans; [exact Hd | apply IH].
Qed.

Lemma dedupIndex_steady stmt st : steady st (dedupIndex stmt st).
Proof.
  unfold dedupIndex. destruct (execCreateIndex stmt st.1) as [db'|] eqn:H1.
  { split; cbn; [by eapply execCreateIndex_shrinks | done]. }
  destruct (parseUniqueIndex stmt) as [[t cols]|]; [|apply steady_refl].
  destruct (queryDupKeys _ _ _) as [groups|]; [|apply steady_refl].
  pose proof (dedupGroups_steady t cols groups st) as Hg.
  destruct (dedupGroups _ _ _ _) as [[e|] st']; [done|].
  destruct (execCreateIndex stmt st'.1) as [db'|] eqn:H2; [|done].
  eapply (steady_trans _ None); [exact Hg|]. split; cbn; [by eapply execCreateIndex_shrinks | done].
Qed.

Lemma deduplicateParents_steady stmts st : steady st (deduplicateParents stmts st).
Proof.
  revert st. induction stmts as [|stmt stmts IH]; intros st; cbn [deduplicateParents].
  { apply steady_refl. }
  pose proof (dedupIndex_steady stmt st) as Hd.
  destruct (dedupIndex stmt st) as [[e|] st']; [done|].
  eapply steady_trans; [exact Hd | apply IH].
Qed.

Lemma deleteViolations_steady vs st : steady st (deleteViolations vs st).
Proof.
  revert st. induction vs as [|v vs IH]; intros st; cbn [deleteViolations].
  { apply steady_refl. }
  destruct (execDelete _ _ _) as [db'|] eqn:Hdel.
  - eapply (steady_trans _ None); [|apply IH]. split; cbn.
    + by eapply execDelete_shrinks.
    + by apply prefix_app_r.
  - split; cbn; [apply shrinks_refl | by apply prefix_app_r].
Qed.

Lemma deleteOrphans_steady st : steady st (deleteOrphans st).
Proof.
  unfold deleteOrphans. destruct (fkCheck st.1); [|apply steady_refl].
  apply deleteViolations_steady.
Qed.

Lemma finalCheck_steady st : steady st (finalCheck st).
Proof.
  unfold finalCheck. destruct (fkCheck st.1) as [vs|]; [|apply steady_refl].
  case_bool_decide; (split; cbn; [apply shrinks_refl | by apply prefix_app_r]).
Qed.

Lemma repairAndVerify_steady stmts st : steady st (repairAndVerify stmts st).
Proof.
  unfold repairAndVerify.
  pose proof (deduplicateParents_steady stmts st) as H1.
  destruct (deduplicateParents stmts st) as [[e|] st1]; [done|].
  pose proof (deleteOrphans_steady st1) as H2.
  destruct (deleteOrphans st1) as [[e|] st2].
  { eapply steady_trans; [exact H1 | exact H2]. }
  eapply steady_trans; [exact H1|]. eapply steady_trans; [exact H2|].
  apply finalCheck_steady.
Qed.

(** X21. The repair passes only delete rows, add indexes and add log lines,
    whether they succeed or fail: after [deduplicateParents], after
    [deleteOrphans] and at the end of [Extract] every table is there with
    its schema and its constraints, its rows are rows it had, in their
    order, no index is gone and the log written before is kept. *)
Theorem repair_only_deletes (stmts : list string) st :
  steady st (deduplicateParents stmts st)
  ∧ steady st (deleteOrphans st)
  ∧ steady st (repairAndVerify stmts st).
Proof.
  split_and!;
    [apply deduplicateParents_steady | apply deleteOrphans_steady
     | apply repairAndVerify_steady].
Qed.

Lemma filter_sublist {A} (P : A → Prop) `{!∀ x, Decision (P x)} (l1 l2 : list A) :
  l1 `sublist_of` l2 → filter P l1 `sublist_of` filter P l2.
Proof.
  induction 1 as [|x l1 l2 _ IH|x l1 l2 _ IH]; rewrite ?filter_cons.
  - done.
  - destruct (decide (P x)); [by constructor | done].
  - destruct (decide (P x)); [by constructor | done].
Qed.

Lemma uniqueOn_sublist idx (rs rs' : list (row (float64 := float64))) :
  rs' `sublist_of` rs → uniqueOn idx rs → uniqueOn idx rs'.
Proof.
  unfold uniqueOn. intros Hs Hnd. eapply sublist_NoDup; [exact Hnd|].
  apply filter_sublist. by apply fmap_sublist.
Qed.

Lemma indexHolds_shrinks db db' ix : shrinks db db' → indexHolds db ix → indexHolds db' ix.
Proof.
  intros [Hi Ht] (Hin & tb & idx & Htb & Hidx & Hu). split.
  - destruct Hi as [k ->]. apply elem_of_app. by left.
  - specialize (Ht (ixTable ix)). rewrite Htb in Ht.
    inversion Ht as [? tb' (Hs & Hc & Hr)|]; simplify_eq.
    exists tb', idx. split_and!; [done | by rewrite Hs | by eapply uniqueOn_sublist].
Qed.

Lemma execCreateIndex_holds stmt db db' :
  execCreateIndex stmt db = Some db' →
  ∃ ix, readIndexStmt stmt = Some ix ∧ indexHolds db' ix.
Proof.
  intros (ix & tb & idx & Hread & -> & Htb & Hidx & Hu)%execCreateIndex_spec.
  exists ix. split; [done|]. split.
  - cbn. apply elem_of_app. right. apply list_elem_of_here.
  - by exists tb, idx.
Qed.

Lemma dedupIndex_holds stmt st st' :
  dedupIndex stmt st = (None, st') →
  ∃ ix, readIndexStmt stmt = Some ix ∧ indexHolds st'.1 ix.
Proof.
  unfold dedupIndex. destruct (execCreateIndex stmt st.1) as [db'|] eqn:H1.
  { intros [= <-]. by eapply execCreateIndex_holds. }
  destruct (parseUniqueIndex stmt) as [[t cols]|]; [|done].
  destruct (queryDupKeys _ _ _) as [groups|]; [|done].
  destruct (dedupGroups _ _ _ _) as [[e|] st1]; [done|].
  destruct (execCreateIndex stmt st1.1) as [db'|] eqn:H2; [|done].
  intros [= <-]. by eapply execCreateIndex_holds.
Qed.

Lemma deduplicateParents_holds stmts st st1 :
  deduplicateParents stmts st = (None, st1) →
  Forall (λ stmt, ∃ ix, readIndexStmt stmt = Some ix ∧ indexHolds st1.1 ix) stmts.
Proof.
  revert st. induction stmts as [|stmt stmts IH]; intros st H; [constructor|].
  cbn [deduplicateParents] in H.
  destruct (dedupIndex stmt st) as [[e|] st'] eqn:Hd; [done|].
  constructor; [|by eapply IH].
  destruct (dedupIndex_holds _ _ _ Hd) as (ix & Hread & Hix). exists ix. split; [done|].
  eapply indexHolds_shrinks; [|exact Hix].
  pose proof (deduplicateParents_steady stmts st') as [Hs _]. by rewrite H in Hs.
Qed.

(** X22. When [deduplicateParents] succeeds, every statement of its list is
    an index of the database and the table of each satisfies it: no two
    rows agree on a key without NULL.  This still holds of the database
    [Extract] ends on, whatever the orphan repair deletes. *)
Theorem deduplicateParents_indexes_hold (stmts : list string) st st1 :
  deduplicateParents stmts st = (None, st1) →
  Forall (λ stmt, ∃ ix, readIndexStmt stmt = Some ix
                        ∧ indexHolds st1.1 ix
                        ∧ indexHolds (repairAndVerify stmts st).2.1 ix) stmts.
Proof.
  intros H. eapply Forall_impl; [by eapply deduplicateParents_holds|].
  intros stmt (ix & Hread & Hix). exists ix. split_and!; [done|done|].
  eapply indexHolds_shrinks; [|exact Hix].
  unfold repairAndVerify. rewrite H.
  pose proof (deleteOrphans_steady st1) as [H2 _].
  destruct (deleteOrphans st1) as [[e|] st2]; [done|].
  eapply shrinks_trans; [exact H2|]. apply finalCheck_steady.
Qed.

End RepairMonotone.

(** ** What [parseUniqueIndex] can return *)

Lemma matchHere_captures l tbl cols :
  GoRegexp.matchHere l = Some (tbl, cols) →
  tbl ≠ [] ∧ (DQ ∉ tbl) ∧ cols ≠ [] ∧ (RPAR ∉ cols).
Proof.
  unfold GoRegexp.matchHere. destruct l as [|o [|n r]]; [done..|].
  destruct (_ && _); [|done].
  destruct (GoRegexp.spaces1Then DQ r) as [r1|]; [|done]. cbn [mbind option_bind].
  destruct (GoRegexp.captureUntil DQ r1) as [[t r2]|] eqn:H2; [|done].
  cbn [mbind option_bind].
  destruct (GoRegexp.spaces1Then LPAR r2) as [r3|]; [|done]. cbn [mbind option_bind].
  destruct (GoRegexp.captureUntil RPAR r3) as [[c r4]|] eqn:H4; [|done].
  cbn [mbind option_bind]. intros [= <- <-].
  apply captureUntil_Some in H2 as (_ & ? & ?), H4 as (_ & ? & ?). done.
Qed.

Lemma findSubmatch_Some l m :
  GoRegexp.findSubmatch l = Some m →
  ∃ before here, l = before ++ here ∧ GoRegexp.matchHere here = Some m.
Proof.
  induction l as [|c l IH]; cbn [GoRegexp.findSubmatch].
  - destruct (GoRegexp.matchHere []) eqn:H; [|done]. intros [= <-]. by exists [], [].
  - destruct (GoRegexp.matchHere (c :: l)) as [m'|] eqn:H.
    + intros [= <-]. by exists [], (c :: l).
    + intros (b & h & -> & Hm)%IH. by exists (c :: b), h.
Qed.

Lemma split_nonempty sep l : GoStrings.split sep l ≠ [].
Proof.
  destruct l as [|c l]; [done|]. cbn. destruct (ceqb c sep); [done|].
  by destruct (GoStrings.split sep l).
Qed.

Lemma split_length sep l :
  length (GoStrings.split sep l) = S (length (filter (λ c, c = sep) l)).
Proof.
  induction l as [|c l IH]; [done|]. cbn [GoStrings.split]. rewrite filter_cons.
  destruct (ceqb c sep) eqn:Hc.
  - apply ceqb_true in Hc as ->. rewrite decide_True by done. cbn. by rewrite IH.
  - apply ceqb_false in Hc. rewrite decide_False by done.
    destruct (GoStrings.split sep l); cbn in *; [done | by rewrite <- IH].
Qed.

(** X11. When [parseUniqueIndex] reads a statement, the table name it
    returns is not empty and holds no double quote, and it returns at
    least one column: one more than there are commas between the
    parentheses. *)
Theorem parseUniqueIndex_result (stmt t : string) (cols : list string) :
  parseUniqueIndex stmt = Some (t, cols) →
  t ≠ "" ∧ (DQ ∉ s2l t) ∧ cols ≠ []
  ∧ ∃ before cs after,
      s2l stmt = before ++ LPAR :: cs ++ RPAR :: after
      ∧ (RPAR ∉ cs)
      ∧ length cols = S (length (filter (λ c, c = COMMA) cs)).
Proof.
  unfold parseUniqueIndex.
  destruct (GoRegexp.findSubmatch (s2l stmt)) as [[tbl cs]|] eqn:Hf; [|done].
  intros [= <- <-].
  apply findSubmatch_Some in Hf as (before & here & Hstmt & Hm).
  pose proof (matchHere_captures _ _ _ Hm) as (Ht & Hq & Hc & Hr).
  split_and!.
  - intros H. apply Ht. by rewrite <- (s2l_l2s tbl), H.
  - by rewrite s2l_l2s.
  - unfold GoStrings.Split. rewrite s2l_l2s.
    pose proof (split_nonempty COMMA cs). by destruct (GoStrings.split COMMA cs).
  - revert Hm. unfold GoRegexp.matchHere. destruct here as [|o [|n r]]; [done..|].
    destruct (_ && _); [|done].
    destruct (GoRegexp.spaces1Then DQ r) as [r1|] eqn:H1; [|done]. cbn [mbind option_bind].
    destruct (GoRegexp.captureUntil DQ r1) as [[t' r2]|] eqn:H2; [|done].
    cbn [mbind option_bind].
    destruct (GoRegexp.spaces1Then LPAR r2) as [r3|] eqn:H3; [|done].
    cbn [mbind option_bind].
    destruct (GoRegexp.captureUntil RPAR r3) as [[c r4]|] eqn:H4; [|done].
    cbn [mbind option_bind]. intros [= -> ->].
    apply spaces1Then_Some in H1 as (w & -> & _).
    apply captureUntil_Some in H2 as (-> & _).
    apply spaces1Then_Some in H3 as (w2 & -> & _).
    apply captureUntil_Some in H4 as (-> & _).
    exists (before ++ o :: n :: w ++ DQ :: tbl ++ DQ :: w2), cs, r4.
    split_and!; [|done|].
    + rewrite Hstmt. rewrite <- !app_assoc. cbn. rewrite <- !app_assoc. cbn.
      by rewrite <- !app_assoc.
    + unfold GoStrings.Split. rewrite s2l_l2s, !length_fmap. apply split_length.
Qed.

Lemma parseUniqueIndex_result_witness :
  "T" ≠ "" ∧ (DQ ∉ s2l "T") ∧ ["x"; "y"] ≠ []
  ∧ ∃ before cs after,
      s2l dupIndexStmt = before ++ LPAR :: cs ++ RPAR :: after
      ∧ (RPAR ∉ cs)
      ∧ length ["x"; "y"] = S (length (filter (λ c, c = COMMA) cs)).
Proof. apply (parseUniqueIndex_result dupIndexStmt "T" ["x"; "y"]). by vm_compute. Defined.

(** ** The engine's reading of a generated statement *)

Lemma stripPrefix_app p (l : bytes) : stripPrefix p (s2l p ++ l) = Some l.
Proof.
  unfold stripPrefix.
  assert (GoStrings.hasPrefix (s2l p ++ l) (s2l p) = true) as ->.
  { generalize (s2l p). intros q. induction q as [|c q IH]; [by destruct l|].
    cbn. by rewrite (proj2 (ceqb_true c c) eq_refl), IH. }
  by rewrite drop_app_length.
Qed.

Lemma quotedIdent_quoted nm (r : bytes) :
  DQ ∉ nm → quotedIdent (DQ :: nm ++ DQ :: r) = Some (nm, r).
Proof.
  intros H. unfold quotedIdent. rewrite (proj2 (ceqb_true DQ DQ) eq_refl).
  by rewrite spanNot_app.
Qed.

Lemma identList_colListL fuel cols :
  cols ≠ [] → Forall (λ c, DQ ∉ c) cols → length cols ≤ fuel →
  identList fuel (colListL cols ++ s2l ");") = Some cols.
Proof.
  revert cols. induction fuel as [|fuel IH]; intros cols Hne Hq Hlen.
  { destruct cols; [done | cbn in Hlen; lia]. }
  destruct cols as [|c cols]; [done|]. apply Forall_cons in Hq as [Hc Hq].
  destruct cols as [|c' cols].
  - cbn [colListL identList]. unfold quotedL. cbn [app].
    rewrite <- app_assoc. cbn [app]. rewrite quotedIdent_quoted by done.
    cbn [mbind option_bind]. by rewrite bool_decide_eq_true_2.
  - change (colListL (c :: c' :: cols))
      with (quotedL c ++ COMMA :: SP :: colListL (c' :: cols)).
    cbn [identList]. unfold quotedL at 1. cbn [app]. rewrite <- !app_assoc. cbn [app].
    rewrite quotedIdent_quoted by done. cbn [mbind option_bind].
    rewrite bool_decide_eq_false_2 by done.
    change (COMMA :: SP :: colListL (c' :: cols) ++ s2l ");")
      with (s2l ", " ++ (colListL (c' :: cols) ++ s2l ");")).
    rewrite stripPrefix_app. cbn [mbind option_bind].
    rewrite IH; [done | done | done | cbn in *; lia].
Qed.

Lemma colListL_length cols :
  length cols ≤ length (colListL cols).
Proof.
  induction cols as [|c cols IH]; [done|]. destruct cols as [|c' cols].
  - cbn. lia.
  - change (colListL (c :: c' :: cols))
      with (quotedL c ++ COMMA :: SP :: colListL (c' :: cols)).
    rewrite length_app. cbn [length] in *. lia.
Qed.

Lemma readIndexStmt_createIndexStmt fk :
  plainKey fk →
  readIndexStmt (createIndexStmt fk)
  = Some (mkIndex (indexName fk) (parentTable fk) (fkColumns fk)).
Proof.
  intros Hfk. pose proof (plainName_indexName fk Hfk) as Hidx.
  unfold readIndexStmt. rewrite s2l_createIndexStmt by done.
  destruct Hfk as (HP0 & HP & Hc0 & Hcols).
  unfold stmtPrefix. rewrite stripPrefix_app. cbn [mbind option_bind].
  change ([DQ; SP] ++ ?x) with (DQ :: SP :: x).
  rewrite quotedIdent_quoted by (apply plain_not_elem; [done | apply plainByte_notDQ]).
  cbn [mbind option_bind]. unfold stmtTail.
  change (SP :: chr 79 :: chr 78 :: SP :: ?x) with (s2l " ON " ++ x).
  rewrite stripPrefix_app. cbn [mbind option_bind].
  rewrite quotedIdent_quoted by (apply plain_not_elem; [done | apply plainByte_notDQ]).
  cbn [mbind option_bind].
  change (SP :: LPAR :: ?x) with (s2l " (" ++ x).
  rewrite stripPrefix_app. cbn [mbind option_bind].
  change [RPAR; chr 59] with (s2l ");").
  rewrite identList_colListL.
  - cbn [mbind option_bind]. rewrite !l2s_s2l. do 2 f_equal.
    rewrite <- list_fmap_compose. rewrite <- (list_fmap_id (fkColumns fk)) at 2.
    apply list_fmap_ext. intros i c _. apply l2s_s2l.
  - by destruct (fkColumns fk).
  - apply Forall_fmap. eapply Forall_impl; [exact Hcols|]. intros c Hc.
    apply plain_not_elem; [done | apply plainByte_notDQ].
  - rewrite length_app. pose proof (colListL_length (s2l <$> fkColumns fk)). lia.
Qed.

Section GeneratedStatements.

Context {float64 : Type} `{!EqDecision float64}.
Implicit Types (db : database (float64 := float64)) (tb : table (float64 := float64)).





End GeneratedStatements.

(** ** The catalog of the program *)

Section Catalog.

Variable sortSlice : (foreignKey → foreignKey → bool) → list foreignKey → list foreignKey.
Hypothesis sortSlice_perm : ∀ less l, sortSlice less l ≡ₚ l.

(** X10. With the catalog of the program, whatever the schemas:
    [generateDDL] emits 18 index statements; [parseUniqueIndex] reads
    each back as the parent table and the columns of a constraint of the
    catalog, and so does the engine, under an index name that no other
    statement has. *)
Theorem catalog_index_statements iter tables :
  let stmts := (generateDDL sortSlice iter tables foreignKeyDefs).2 in
  length stmts = 18
  ∧ Forall (λ stmt,
             ∃ fk, fk ∈ foreignKeyDefs ∧ stmt = createIndexStmt fk
                   ∧ parseUniqueIndex stmt = Some (parentTable fk, fkColumns fk)
                   ∧ readIndexStmt stmt
                     = Some (mkIndex (indexName fk) (parentTable fk) (fkColumns fk)))
           stmts
  ∧ NoDup ((λ stmt, ixName <$> readIndexStmt stmt) <$> stmts).
Proof.
  cbv zeta. rewrite generateDDL_indexes.
  pose proof (sortSlice_perm lessParent (collectUniqueIndexes foreignKeyDefs)) as Hp.
  set (U := collectUniqueIndexes foreignKeyDefs) in *.
  assert (Forall (λ fk, fk ∈ foreignKeyDefs ∧ plainKey fk) U) as HU.
  { apply (bool_decide_unpack _). by vm_compute. }
  assert (length U = 18) as Hlen by (by vm_compute).
  assert (NoDup (indexName <$> U)) as Hnames.
  { apply (bool_decide_unpack _). by vm_compute. }
  rewrite <- Hp in HU, Hnames. rewrite <- (Permutation_length Hp) in Hlen.
  split_and!.
  - by rewrite length_fmap.
  - apply Forall_fmap. eapply Forall_impl; [exact HU|]. intros fk [Hin Hfk].
    exists fk. split_and!; [done | done | by apply parseUniqueIndex_createIndexStmt
                         | by apply readIndexStmt_createIndexStmt].
  - rewrite <- list_fmap_compose.
    rewrite (list_fmap_ext _ (λ fk, Some (indexName fk)) (sortSlice lessParent U)).
    + rewrite (list_fmap_compose indexName Some). apply NoDup_fmap_2; [|done].
      by intros ?? [= ?].
    + intros i fk Hi. cbn. rewrite Forall_forall in HU.
      destruct (HU fk) as [_ Hfk]; [by eapply list_elem_of_lookup_2|].
      by rewrite readIndexStmt_createIndexStmt.
Qed.

End Catalog.

(** ** Reading plain records *)

Lemma csvPlain_ne c n : csvPlain c → (n = 34 ∨ n = 44 ∨ n = 10 ∨ n = 13 ∨ n = 239)%N → c ≠ chr n.
Proof.
  intros (H1 & H2 & H3 & H4) Hn ->.
  rewrite (code_chr_plain (chr n) n eq_refl) in * by lia. lia.
Qed.

Lemma csvPlain_not_in l n :
  Forall csvPlain l → (n = 34 ∨ n = 44 ∨ n = 10 ∨ n = 13 ∨ n = 239)%N → chr n ∉ l.
Proof.
  intros Hl Hn Hin. rewrite Forall_forall in Hl. by apply (csvPlain_ne _ n (Hl _ Hin) Hn).
Qed.

Lemma lineByte_ne c n : lineByte c → (n = 34 ∨ n = 10 ∨ n = 13 ∨ n = 239)%N → c ≠ chr n.
Proof.
  intros [Hc| ->] Hn.
  - apply csvPlain_ne; [done | lia].
  - intros Heq. assert (code COMMA = code (chr n)) as H by by rewrite Heq.
    rewrite (code_chr_plain (chr n) n eq_refl) in H by lia.
    change (code COMMA) with 44%N in H. lia.
Qed.

Lemma lineByte_not_in l n :
  Forall lineByte l → (n = 34 ∨ n = 10 ∨ n = 13 ∨ n = 239)%N → chr n ∉ l.
Proof.
  intros Hl Hn Hin. rewrite Forall_forall in Hl. by apply (lineByte_ne _ n (Hl _ Hin) Hn).
Qed.

Lemma Join_lineBytes rec :
  Forall (λ f, Forall csvPlain (s2l f)) rec → Forall lineByte (s2l (GoStrings.Join rec ",")).
Proof.
  induction 1 as [|f rec Hf Hrec IH]; [constructor|].
  destruct rec as [|f' rec].
  - cbn. eapply Forall_impl; [exact Hf|]. by left.
  - rewrite Join_cons, !s2l_app. apply Forall_app. split.
    + eapply Forall_impl; [exact Hf|]. by left.
    + apply Forall_app. split; [|done]. apply Forall_singleton. by right.
Qed.

Lemma Join_nonempty rec :
  rec ≠ [] → rec ≠ [""] → s2l (GoStrings.Join rec ",") ≠ [].
Proof.
  intros H1 H2. destruct rec as [|f [|f' rec]]; [done| |].
  - cbn. intros H. apply H2. f_equal. apply s2l_inj. by rewrite H.
  - rewrite Join_cons, !s2l_app. by destruct (s2l f).
Qed.

Lemma last_app_singleton {A} (l : list A) x : last (l ++ [x]) = Some x.
Proof. induction l as [|a [|b l] IH]; done. Qed.

Lemma lengthNL_line (l : bytes) : GoCsv.lengthNL (l ++ [LF]) = 1.
Proof. unfold GoCsv.lengthNL. by rewrite last_app_singleton. Qed.

Lemma readLine_line (content rest : bytes) :
  content ≠ [] → Forall lineByte content →
  GoCsv.readLine (content ++ LF :: rest) = Some (content ++ [LF], rest).
Proof.
  intros Hne Hc. unfold GoCsv.readLine.
  rewrite spanNot_app by (by apply (lineByte_not_in _ 10); [|lia]).
  destruct content as [|c content]; [done|]. cbn [app].
  destruct (last (c :: content)) as [x|] eqn:Hlast; [|done].
  assert (x ∈ c :: content) as Hx.
  { apply last_Some in Hlast as [l' ->]. apply elem_of_app. right. apply list_elem_of_here. }
  rewrite Forall_forall in Hc.
  by rewrite (proj2 (ceqb_false x CR) (lineByte_ne x 13 (Hc x Hx) ltac:(lia))).
Qed.

Lemma nextLine_line fuel (content rest : bytes) :
  content ≠ [] → Forall lineByte content →
  GoCsv.nextLine fuel (content ++ LF :: rest) = Some (content ++ [LF], rest).
Proof.
  intros Hne Hc.
  assert (bool_decide (length (content ++ [LF]) = GoCsv.lengthNL (content ++ [LF])) = false)
    as Hskip.
  { apply bool_decide_eq_false_2. rewrite lengthNL_line, length_app. cbn.
    destruct content; [done | cbn; lia]. }
  destruct fuel; cbn [GoCsv.nextLine]; by rewrite readLine_line, Hskip.
Qed.

Lemma hasQuote_plain l : Forall csvPlain l → GoCsv.hasQuote l = false.
Proof.
  intros Hl. unfold GoCsv.hasQuote. apply not_true_is_false. intros H.
  apply existsb_exists in H as (x & Hx & Heq). apply ceqb_true in Heq as <-.
  apply list_elem_of_In in Hx. by apply (csvPlain_not_in l 34 Hl); [lia|].
Qed.

Lemma spanNot_comma_last (f : bytes) :
  Forall csvPlain f → GoRegexp.spanNot COMMA (f ++ [LF]) = (f ++ [LF], []).
Proof.
  intros Hf. apply spanNot_none. rewrite elem_of_app. intros [H|H].
  - by apply (csvPlain_not_in f 44 Hf); [lia|].
  - by apply list_elem_of_singleton in H.
Qed.

(** The field loop on the line of a plain record. *)
Lemma parseFields_plain fuel fields (rec : list string) (rest : bytes) :
  rec ≠ [] → Forall (λ f, Forall csvPlain (s2l f)) rec → length rec ≤ fuel →
  GoCsv.parseFields fuel GoCsv.Field fields (csvLine rec) rest
  = inr (rev fields ++ (s2l <$> rec), rest).
Proof.
  revert fields rec. induction fuel as [|fuel IH]; intros fields rec Hne Hrec Hlen.
  { destruct rec; [done | cbn in Hlen; lia]. }
  destruct rec as [|f rec]; [done|]. apply Forall_cons in Hrec as [Hf Hrec].
  unfold csvLine. destruct rec as [|f' rec].
  - (* the last field *)
    change (GoStrings.Join [f] ",") with f. cbn [GoCsv.parseFields].
    destruct (s2l f) as [|c l] eqn:Hfl.
    + cbn [fmap list_fmap]. rewrite Hfl. reflexivity.
    + cbn [app].
      assert (ceqb c DQ = false) as ->.
      { apply ceqb_false. apply Forall_cons in Hf as [Hc _]. apply (csvPlain_ne c 34 Hc). lia. }
      change (c :: l ++ [LF]) with ((c :: l) ++ [LF]).
      rewrite spanNot_comma_last by done.
      rewrite lengthNL_line, length_app. cbn [length].
      replace (S (length l) + 1 - 1) with (length (c :: l)) by (cbn [length]; lia).
      rewrite take_app_length.
      rewrite hasQuote_plain by done. cbn [rev fmap list_fmap]. by rewrite Hfl.
  - rewrite Join_cons, !s2l_app. change (s2l ",") with [COMMA].
    rewrite <- !app_assoc. cbn [app GoCsv.parseFields].
    assert (COMMA ∉ s2l f) as Hnc by (by apply (csvPlain_not_in _ 44); [|lia]).
    destruct (s2l f) as [|c l] eqn:Hfl.
    + cbn [app]. change (ceqb COMMA DQ) with false. cbv iota.
      change (GoRegexp.spanNot COMMA (COMMA :: ?x)) with (@nil ascii, COMMA :: x).
      cbv iota beta. change (GoCsv.hasQuote []) with false. cbv iota.
      fold (csvLine (f' :: rec)).
      rewrite IH; [|done|done|cbn in *; lia].
      cbn [rev fmap list_fmap]. rewrite Hfl, <- app_assoc. done.
    + cbn [app].
      assert (ceqb c DQ = false) as ->.
      { apply ceqb_false. apply Forall_cons in Hf as [Hc _]. apply (csvPlain_ne c 34 Hc). lia. }
      change (c :: l ++ COMMA :: ?x) with ((c :: l) ++ COMMA :: x).
      rewrite spanNot_app by done. rewrite hasQuote_plain by done.
      fold (csvLine (f' :: rec)).
      rewrite IH; [|done|done|cbn in *; lia].
      cbn [rev fmap list_fmap]. rewrite Hfl, <- app_assoc. done.
Qed.

Lemma csvLine_length rec : length rec ≤ length (csvLine rec).
Proof.
  unfold csvLine. rewrite length_app. cbn [length].
  induction rec as [|f [|f' rec] IH]; [cbn; lia | cbn; lia |].
  rewrite Join_cons, !s2l_app, !length_app. cbn [length] in *.
  change (length (s2l ",")) with 1. lia.
Qed.

Lemma fmap_l2s_s2l (rec : list string) : l2s <$> (s2l <$> rec) = rec.
Proof.
  rewrite <- list_fmap_compose. rewrite <- (list_fmap_id rec) at 2.
  apply list_fmap_ext. intros i x _. apply l2s_s2l.
Qed.

(** [Read] on a stream that starts with the line of a plain record. *)
Lemma Read_plain rec (rest : bytes) fpr :
  plainRecord rec →
  GoCsv.Read (GoCsv.mkReader (csvLine rec ++ rest) fpr)
  = if bool_decide (0 < fpr)%Z then
      if bool_decide (Z.of_nat (length rec) = fpr)
      then (inr rec, GoCsv.mkReader rest fpr)
      else (inl GoCsv.ErrFieldCount, GoCsv.mkReader rest fpr)
    else if bool_decide (fpr = 0)%Z
    then (inr rec, GoCsv.mkReader rest (Z.of_nat (length rec)))
    else (inr rec, GoCsv.mkReader rest fpr).
Proof.
  intros (Hne & Hne' & Hrec). unfold GoCsv.Read. cbn [GoCsv.input GoCsv.FieldsPerRecord].
  unfold csvLine at 1 2. rewrite <- !app_assoc. cbn [app].
  rewrite nextLine_line by (by apply Join_nonempty || by apply Join_lineBytes).
  fold (csvLine rec). rewrite parseFields_plain; [|done|done|].
  - cbn [rev app]. by rewrite fmap_l2s_s2l, length_fmap.
  - pose proof (csvLine_length rec). lia.
Qed.

(** ** Loading a plain stream *)

Lemma csvStream_cons rec recs : csvStream (rec :: recs) = csvLine rec ++ csvStream recs.
Proof. done. Qed.

Lemma csvStream_app recs recs' : csvStream (recs ++ recs') = csvStream recs ++ csvStream recs'.
Proof. unfold csvStream. by rewrite fmap_app, concat_app. Qed.

Lemma csvStream_length recs : length recs ≤ length (csvStream recs).
Proof.
  induction recs as [|rec recs IH]; [done|]. rewrite csvStream_cons, length_app.
  unfold csvLine at 1. rewrite length_app. cbn [length]. lia.
Qed.

Lemma csvLine_head rec c :
  plainRecord rec → head (csvLine rec) = Some c → c ≠ chr 239.
Proof.
  intros (Hne & Hne' & Hrec) Hc.
  pose proof (Join_lineBytes rec Hrec) as Hl. pose proof (Join_nonempty rec Hne Hne') as Hn.
  unfold csvLine in Hc. destruct (s2l (GoStrings.Join rec ",")) as [|x l]; [done|].
  cbn in Hc. injection Hc as <-. apply Forall_cons in Hl as [Hx _].
  apply (lineByte_ne x 239 Hx). lia.
Qed.

Lemma stripBOM_head (l : bytes) :
  (∀ c, head l = Some c → c ≠ chr 239) → stripBOM l = l.
Proof.
  intros H. destruct l as [|a [|b [|c r]]]; try done. unfold stripBOM.
  by rewrite (proj2 (ceqb_false a (chr 239)) (H a eq_refl)).
Qed.

Section PlainLoading.

Context {float64 : Type} `{!EqDecision float64}.
Variable ParseFloat : string → option float64.
Implicit Types (db : database (float64 := float64)) (tb : table (float64 := float64)).

Lemma nextRowid_snoc (rs : list (row (float64 := float64))) vals :
  nextRowid (rs ++ [mkRow (nextRowid rs) vals]) = (nextRowid rs + 1)%Z.
Proof.
  assert (∀ (rs : list (row (float64 := float64))) (r : row),
            nextRowid (rs ++ [r]) = Z.max (nextRowid rs) (rowid r + 1)) as H.
  { clear. intros rs r. induction rs as [|r0 rs IH].
    - unfold nextRowid. cbn [app foldr]. lia.
    - change (nextRowid ((r0 :: rs) ++ [r]))
        with (Z.max (rowid r0 + 1) (nextRowid (rs ++ [r]))).
      change (nextRowid (r0 :: rs)) with (Z.max (rowid r0 + 1) (nextRowid rs)).
      rewrite IH. lia. }
  rewrite H. cbn [rowid]. lia.
Qed.

Lemma prepareInsert_spec ts db :
  prepareInsert ts db = true →
  sqlIdent (insertTarget ts) = Some (tname ts)
  ∧ ∃ tb, tables db !! tname ts = Some tb
          ∧ length (columns (schema tb)) = length (columns ts).
Proof.
  unfold prepareInsert. destruct (sqlIdent (insertTarget ts)) as [n|] eqn:Hn; [|done].
  pose proof (sqlIdent_insertTarget _ _ Hn) as ->. cbn.
  destruct (tables db !! tname ts) as [tb|]; [|done].
  intros H%bool_decide_eq_true. split; [done|]. by exists tb.
Qed.

Lemma execInsert_ok ts db tb vals :
  sqlIdent (insertTarget ts) = Some (tname ts) →
  tables db !! tname ts = Some tb →
  length vals = length (columns (schema tb)) →
  execInsert (insertTarget ts) vals db
  = if notNullOk (schema tb) vals
    then Some (withRows db (tname ts) tb (rows tb ++ [mkRow (nextRowid (rows tb)) vals]))
    else None.
Proof.
  intros Hq Htb Hlen. unfold execInsert. rewrite Hq. cbn [mbind option_bind].
  rewrite Htb. cbn [mbind option_bind]. rewrite bool_decide_eq_true_2 by done.
  by destruct (notNullOk _ _).
Qed.

(** The row loop on the lines of plain records that the engine accepts,
    with whatever follows them. *)
Lemma loadRows_plain fuel good (rest : bytes) n ts db tb :
  sqlIdent (insertTarget ts) = Some (tname ts) →
  tables db !! tname ts = Some tb →
  length (columns (schema tb)) = length (columns ts) →
  (0 < n)%Z →
  Forall plainRecord good → Forall (λ r, Z.of_nat (length r) = n) good →
  Forall (λ r, notNullOk (schema tb) (rowValues ParseFloat ts r) = true) good →
  loadRows ParseFloat (length good + fuel) (GoCsv.mkReader (csvStream good ++ rest) n) ts db
  = loadRows ParseFloat fuel (GoCsv.mkReader rest n) ts
      (withRows db (tname ts) tb
         (rows tb ++ numbered (nextRowid (rows tb)) (rowValues ParseFloat ts <$> good))).
Proof.
  intros Hq Htb Hcols Hn Hplain Hcount Hok. revert db tb Htb Hcols Hok.
  induction good as [|rec good IH]; intros db tb Htb Hcols Hok.
  { cbn. by rewrite app_nil_r, withRows_id. }
  apply Forall_cons in Hplain as [Hrec Hplain], Hcount as [Hc Hcount], Hok as [Hr Hok].
  cbn [length Nat.add]. rewrite csvStream_cons, <- app_assoc.
  cbn [loadRows]. rewrite Read_plain by done.
  rewrite (bool_decide_eq_true_2 (0 < n)%Z) by done.
  rewrite bool_decide_eq_true_2 by done.
  rewrite (execInsert_ok ts db tb) by (done || by rewrite rowValues_length).
  rewrite Hr.
  set (r1 := mkRow (nextRowid (rows tb)) (rowValues ParseFloat ts rec)).
  rewrite (IH Hplain Hcount _ (setRows tb (rows tb ++ [r1]))); [| |done|done].
  2:{ apply withRows_lookup. }
  cbn [rows setRows schema]. rewrite withRows_withRows.
  unfold r1. rewrite nextRowid_snoc. cbn [fmap list_fmap numbered].
  by rewrite <- app_assoc.
Qed.

Lemma loadCSV_plain_start hdr (rest : bytes) ts db :
  prepareInsert ts db = true → plainRecord hdr →
  loadCSV ParseFloat (csvLine hdr ++ rest) ts db
  = loadRows ParseFloat (S (length (csvLine hdr ++ rest)))
      (GoCsv.mkReader rest (Z.of_nat (length hdr))) ts db.
Proof.
  intros Hp Hhdr. unfold loadCSV. rewrite Hp. cbn [negb].
  rewrite stripBOM_head.
  2:{ intros c Hc. apply (csvLine_head hdr c Hhdr).
      unfold csvLine in *. destruct (s2l (GoStrings.Join hdr ",")); done. }
  unfold GoCsv.NewReader. rewrite Read_plain by done. done.
Qed.


(** In such a stream, a record whose number of fields is not that of
    the header ends [loadCSV] with the error of the csv reader for a
    wrong number of fields, whatever follows the record: the reader is
    left with [FieldsPerRecord = 0]. *)
Lemma loadCSV_field_count hdr good bad (rest : bytes) ts db tb :
  prepareInsert ts db = true →
  tables db !! tname ts = Some tb →
  plainRecord hdr → Forall plainRecord good →
  Forall (λ r, length r = length hdr) good →
  Forall (λ r, notNullOk (schema tb) (rowValues ParseFloat ts r) = true) good →
  plainRecord bad → length bad ≠ length hdr →
  loadCSV ParseFloat (csvStream (hdr :: good) ++ csvLine bad ++ rest) ts db
  = inl (LoadReadError GoCsv.ErrFieldCount).
Proof.
  intros Hp Htb Hhdr Hgood Hcount Hok Hbad Hlen.
  destruct (prepareInsert_spec _ _ Hp) as (Hq & tb' & Htb' & Hcols).
  rewrite Htb in Htb'. injection Htb' as <-.
  rewrite csvStream_cons, <- app_assoc, loadCSV_plain_start by done.
  assert (0 < length hdr) as Hpos by (destruct Hhdr as (? & _); by destruct hdr; [|cbn; lia]).
  assert (∃ fuel, S (length (csvLine hdr ++ csvStream good ++ csvLine bad ++ rest))
                  = length good + S fuel) as [fuel ->].
  { exists (length (csvLine hdr ++ csvStream good ++ csvLine bad ++ rest) - length good).
    pose proof (csvStream_length good). rewrite !length_app in *. lia. }
  rewrite (loadRows_plain _ _ _ _ _ _ tb); [|done|done|done|lia|done| |done].
  - cbn [loadRows]. rewrite Read_plain by done.
    rewrite bool_decide_eq_true_2 by lia. rewrite bool_decide_eq_false_2 by lia. done.
  - eapply Forall_impl; [exact Hcount|]. intros r Hr. cbn. by rewrite Hr.
Qed.

(** X26. In such a stream, a record that leaves nil in a column the table
    declares NOT NULL (a column past the fields of the record, say) ends
    [loadCSV] with the error of the insertion, whatever follows the
    record. *)
Theorem loadCSV_not_null hdr good bad (rest : bytes) ts db tb :
  prepareInsert ts db = true →
  tables db !! tname ts = Some tb →
  plainRecord hdr → Forall plainRecord good →
  Forall (λ r, length r = length hdr) good →
  Forall (λ r, notNullOk (schema tb) (rowValues ParseFloat ts r) = true) good →
  plainRecord bad → length bad = length hdr →
  notNullOk (schema tb) (rowValues ParseFloat ts bad) = false →
  loadCSV ParseFloat (csvStream (hdr :: good) ++ csvLine bad ++ rest) ts db
  = inl LoadExecError.
Proof.
  intros Hp Htb Hhdr Hgood Hcount Hok Hbad Hlen Hnull.
  destruct (prepareInsert_spec _ _ Hp) as (Hq & tb' & Htb' & Hcols).
  rewrite Htb in Htb'. injection Htb' as <-.
  rewrite csvStream_cons, <- app_assoc, loadCSV_plain_start by done.
  assert (0 < length hdr) as Hpos by (destruct Hhdr as (? & _); by destruct hdr; [|cbn; lia]).
  assert (∃ fuel, S (length (csvLine hdr ++ csvStream good ++ csvLine bad ++ rest))
                  = length good + S fuel) as [fuel ->].
  { exists (length (csvLine hdr ++ csvStream good ++ csvLine bad ++ rest) - length good).
    pose proof (csvStream_length good). rewrite !length_app in *. lia. }
  rewrite (loadRows_plain _ _ _ _ _ _ tb); [|done|done|done|lia|done| |done].
  - cbn [loadRows]. rewrite Read_plain by done.
    rewrite bool_decide_eq_true_2 by lia. rewrite bool_decide_eq_true_2 by lia.
    erewrite execInsert_ok; [|done|apply withRows_lookup|].
    + cbn [schema setRows]. by rewrite Hnull.
    + cbn [schema setRows]. by rewrite rowValues_length.
  - eapply Forall_impl; [exact Hcount|]. intros r Hr. cbn. by rewrite Hr.
Qed.

End PlainLoading.

(** ** Parsing plain structure files *)

Lemma csvStream_bytes recs :
  Forall plainRecord recs → Forall (λ c, lineByte c ∨ c = LF) (csvStream recs).
Proof.
  induction 1 as [|rec recs (_ & _ & Hrec) _ IH]; [constructor|].
  rewrite csvStream_cons. apply Forall_app. split; [|done].
  unfold csvLine. apply Forall_app. split.
  - eapply Forall_impl; [by apply Join_lineBytes|]. by left.
  - apply Forall_singleton. by right.
Qed.

Lemma normalizeCR_plain recs :
  Forall plainRecord recs → normalizeCR (csvStream recs) = csvStream recs.
Proof.
  intros H. apply normalizeCR_fixed. intros i Hi. exfalso.
  pose proof (csvStream_bytes recs H) as Hb. rewrite Forall_forall in Hb.
  destruct (Hb CR) as [Hl|Heq]; [by eapply list_elem_of_lookup_2| |done].
  by apply (lineByte_ne CR 13 Hl); [lia|].
Qed.

Lemma readRecords_plain fuel recs file tables :
  Forall plainRecord recs →
  readRecords (length recs + S fuel) (GoCsv.mkReader (csvStream recs) (-1)) file tables
  = inr (foldl (λ m r, addRecord r m) tables recs).
Proof.
  intros H. revert tables. induction H as [|rec recs Hrec _ IH]; intros tables.
  { done. }
  cbn [length Nat.add readRecords]. rewrite csvStream_cons, Read_plain by done.
  rewrite bool_decide_eq_false_2 by lia. rewrite bool_decide_eq_false_2 by lia.
  by rewrite IH.
Qed.

Lemma parseSchemaFile_plain p tables :
  plainStructureFile p →
  parseSchemaFile (plainEntry p) tables
  = inr (foldl (λ m r, addRecord r m) tables (pfRecords p)).
Proof.
  intros (Hname & Hhdr & Hrecs). unfold parseSchemaFile, plainEntry.
  cbn [Name content]. rewrite Hname. cbn [negb]. rewrite s2l_l2s.
  rewrite normalizeCR_plain by by constructor.
  rewrite csvStream_cons, Read_plain by done.
  rewrite bool_decide_eq_false_2 by lia. rewrite bool_decide_eq_false_2 by lia.
  assert (∃ fuel, S (length (csvLine (pfHeader p) ++ csvStream (pfRecords p)))
                  = length (pfRecords p) + S fuel) as [fuel ->].
  { exists (length (csvLine (pfHeader p) ++ csvStream (pfRecords p)) - length (pfRecords p)).
    pose proof (csvStream_length (pfRecords p)). rewrite length_app. lia. }
  by apply readRecords_plain.
Qed.

Lemma parseSchemaFiles_plain ps tables :
  Forall plainStructureFile ps →
  parseSchemaFiles (plainEntry <$> ps) tables
  = inr (foldl (λ m r, addRecord r m) tables (concat (pfRecords <$> ps))).
Proof.
  intros H. revert tables. induction H as [|p ps Hp _ IH]; intros tables; [done|].
  cbn [fmap list_fmap parseSchemaFiles concat]. rewrite parseSchemaFile_plain by done.
  by rewrite IH, foldl_app.
Qed.

Lemma columnsOf_cons t rec recs :
  columnsOf t (rec :: recs)
  = match recordColumn rec with
    | Some (t', col) => if decide (t' = t) then col :: columnsOf t recs else columnsOf t recs
    | None => columnsOf t recs
    end.
Proof.
  unfold columnsOf. cbn [omap list_omap]. destruct (recordColumn rec) as [[t' col]|]; [|done].
  rewrite filter_cons. cbn [fst]. by destruct (decide (t' = t)).
Qed.

(** The record loop gives each table the columns of its records, in
    their order, after the columns it had. *)
Lemma addRecords_lookup recs (tables : gmap string tableSchema) t :
  foldl (λ m r, addRecord r m) tables recs !! t
  = match tables !! t with
    | Some ts => Some (mkTableSchema (tname ts) (columns ts ++ columnsOf t recs))
    | None => match columnsOf t recs with
              | [] => None
              | cols => Some (mkTableSchema t cols)
              end
    end.
Proof.
  revert tables. induction recs as [|rec recs IH]; intros tables.
  { cbn. destruct (tables !! t) as [[n cs]|]; [|done]. by rewrite app_nil_r. }
  cbn [foldl]. rewrite IH, columnsOf_cons. unfold addRecord.
  destruct (recordColumn rec) as [[t' col]|]; [|done].
  destruct (decide (t' = t)) as [->|Hne].
  - rewrite lookup_insert_eq. destruct (tables !! t) as [ts|]; cbn.
    + by rewrite <- app_assoc.
    + done.
  - by rewrite lookup_insert_ne.
Qed.

(** X27. On structure files written without quotes (a header line and one
    line per record, fields of printable ASCII without comma or quote),
    [parseSchemas] succeeds and returns exactly the tables that the
    records of at least five fields name: each with the columns of its
    records, in the order of the files and of their lines, and the
    columns listed in [sentinelNulls] made nullable. *)
Theorem parseSchemas_plain_files sentinelNulls (ps : list plainFile) :
  Forall plainStructureFile ps →
  ∃ tables, parseSchemas sentinelNulls (plainEntry <$> ps) = inr tables
            ∧ ∀ t, tables !! t = schemaOf sentinelNulls (concat (pfRecords <$> ps)) t.
Proof.
  intros H. unfold parseSchemas. rewrite parseSchemaFiles_plain by done.
  eexists. split; [done|]. intros t. rewrite overrides_lookup, addRecords_lookup.
  rewrite lookup_empty. unfold schemaOf. by destruct (columnsOf t _).
Qed.

(** ** The rows the orphan pass deletes *)

Section OrphanRows.

Context {float64 : Type} `{!EqDecision float64}.
Implicit Types (db : database (float64 := float64)) (tb : table (float64 := float64)).
Implicit Types (r : row (float64 := float64)).







End OrphanRows.

(** ** The further properties on examples *)

Lemma normalizeCR_no_bare_CR_witness : normalizeCR crSample !! 8 = Some LF.
Proof. apply (normalizeCR_no_bare_CR crSample 7). by vm_compute. Defined.

Lemma parseSchemas_keyed_by_name_witness :
  tname spacedSchema = "DP_BASE" ∧ columns spacedSchema ≠ [].
Proof.
  apply (parseSchemas_keyed_by_name [] [spacedMetadataFile] {["DP_BASE" := spacedSchema]}).
  - by vm_compute.
  - by vm_compute.
Defined.

Lemma parseSchemas_columns_clean_witness :
  Forall (λ c, dataType c ≠ "VARCHAR" ∧ dataType c ≠ "NUMBER" ∧ SP ∉ s2l (cname c))
         (columns spacedSchema).
Proof.
  apply (parseSchemas_columns_clean [] [spacedMetadataFile] {["DP_BASE" := spacedSchema]}
           "DP_BASE").
  - by vm_compute.
  - by vm_compute.
Defined.

Lemma parseSchemas_blank_file_witness :
  parseSchemas [] [mkZipFile "APT_CSV_DATA_STRUCTURE.csv" (l2s [CR; CR; LF]);
                   spacedMetadataFile]
  = inl (ReadHeaderError "APT_CSV_DATA_STRUCTURE.csv" GoCsv.EOF).
Proof.
  apply (parseSchemas_blank_file []
           (mkZipFile "APT_CSV_DATA_STRUCTURE.csv" (l2s [CR; CR; LF]))).
  - by vm_compute.
  - apply (bool_decide_unpack _). by vm_compute.
Defined.

Lemma createTableStmt_items_witness :
  createTableStmt spacedSchema testFks
  = "CREATE TABLE " +:+ GoFmt.Quote (tname spacedSchema) +:+ " (" +:+ NL
    +:+ GoStrings.Join ((columnItem <$> columns spacedSchema)
                        ++ (foreignKeyItem <$> testFks)) ("," +:+ NL)
    +:+ NL +:+ ");".
Proof. apply createTableStmt_items. by left. Defined.

Lemma catalog_index_statements_witness :
  let stmts := (generateDDL insertionSort [] ∅ foreignKeyDefs).2 in
  length stmts = 18
  ∧ Forall (λ stmt,
             ∃ fk, fk ∈ foreignKeyDefs ∧ stmt = createIndexStmt fk
                   ∧ parseUniqueIndex stmt = Some (parentTable fk, fkColumns fk)
                   ∧ readIndexStmt stmt
                     = Some (mkIndex (indexName fk) (parentTable fk) (fkColumns fk)))
           stmts
  ∧ NoDup ((λ stmt, ixName <$> readIndexStmt stmt) <$> stmts).
Proof. apply (catalog_index_statements insertionSort (@insertionSort_perm _)). Defined.

Lemma loadCSV_strips_BOM_witness :
  loadCSV noFloat (BOM ++ s2l pairStream) twoColumns (emptyTable twoColumns)
  = loadCSV noFloat (s2l pairStream) twoColumns (emptyTable twoColumns).
Proof. apply loadCSV_strips_BOM. apply (bool_decide_unpack _). by vm_compute. Defined.

Lemma loadCSV_blank_stream_witness :
  loadCSV noFloat [LF; CR; LF] twoColumns (emptyTable twoColumns)
  = inl (LoadReadError GoCsv.EOF).
Proof. apply loadCSV_blank_stream; by vm_compute. Defined.

Lemma loadCSV_appends_witness :
  ∃ new : list (row (float64 := Z)),
    appended (emptyTable twoColumns) pairLoaded (tname twoColumns) new
    ∧ Forall (λ r, length (cells r) = length (columns twoColumns)) new.
Proof. apply (loadCSV_appends noFloat (s2l pairStream)). by vm_compute. Defined.

Lemma loadCSV_fresh_rowids_witness :
  ∃ new : list (row (float64 := Z)),
    rows pairTable = rows emptyPairTable ++ new
    ∧ StronglySorted Z.lt (rowid <$> new)
    ∧ Forall (λ r, Forall (λ r0 : row (float64 := Z), rowid r0 < rowid r)%Z
                          (rows emptyPairTable)) new
    ∧ (NoDup (rowid <$> rows emptyPairTable) → NoDup (rowid <$> rows pairTable)).
Proof.
  apply (loadCSV_fresh_rowids noFloat (s2l pairStream) twoColumns
           (emptyTable twoColumns) pairLoaded); by vm_compute.
Defined.

Lemma loadAllCSVs_extends_witness : extends (emptyTable twoColumns) pairLoaded.
Proof.
  apply (loadAllCSVs_extends noFloat pairArchive {["T" := twoColumns]}).
  by vm_compute.
Defined.

Lemma loadAllCSVs_untouched_witness :
  tables pairLoaded !! "U" = tables (emptyTable twoColumns) !! "U".
Proof.
  apply (loadAllCSVs_untouched noFloat pairArchive {["T" := twoColumns]}).
  - apply (bool_decide_unpack _). by vm_compute.
  - by vm_compute.
  - apply (bool_decide_unpack _). by vm_compute.
Defined.

Lemma deduplicateParents_indexes_hold_witness :
  Forall (λ stmt, ∃ ix, readIndexStmt stmt = Some ix
                        ∧ indexHolds (deduplicateParents [dupIndexStmt] (dupDb, [])).2.1 ix
                        ∧ indexHolds (repairAndVerify [dupIndexStmt] (dupDb, [])).2.1 ix)
         [dupIndexStmt].
Proof.
  apply (deduplicateParents_indexes_hold [dupIndexStmt] (dupDb, [])
           (deduplicateParents [dupIndexStmt] (dupDb, [])).2).
  by vm_compute.
Defined.




Lemma loadCSV_not_null_witness :
  loadCSV noFloat (csvStream (["A"] :: []) ++ csvLine ["x"] ++ [])
          twoColumnsStrict (emptyTable twoColumnsStrict)
  = inl LoadExecError.
Proof.
  apply (loadCSV_not_null noFloat ["A"] [] ["x"] [] twoColumnsStrict
           (emptyTable twoColumnsStrict) (mkTable twoColumnsStrict [] [])).
  - by vm_compute.
  - by vm_compute.
  - apply (bool_decide_unpack _). by vm_compute.
  - constructor.
  - constructor.
  - constructor.
  - apply (bool_decide_unpack _). by vm_compute.
  - done.
  - by vm_compute.
Defined.

Lemma parseSchemas_plain_files_witness :
  ∃ tables,
    parseSchemas [("DP_BASE", "DP_COMPUTER_CODE")] (plainEntry <$> [spacedPlainFile])
    = inr tables
    ∧ ∀ t, tables !! t
           = schemaOf [("DP_BASE", "DP_COMPUTER_CODE")]
                      (concat (pfRecords <$> [spacedPlainFile])) t.
Proof.
  apply parseSchemas_plain_files. apply (bool_decide_unpack _). by vm_compute.
Defined.

